(** * VIFF runtime: program counters, share futures and secure comparison

    A verification development for [viff/runtime.py], for the
    authentication codes of [viff/bedoza.py] and for the applications
    [apps/xor_all.py] and [apps/fft.py].

    The runtime is modelled in layers, following the source file:

    - Python exceptions and results ([exn], [result]);
    - field elements ([FieldElement] class with the prime fields [GFp p]
      and the 256-element field [GF256]);
    - the program counter and its two guardians, [increment_pc] and
      [callback];
    - share futures: [ShareList], [gather_shares], the pending-share
      table [incoming_shares];
    - [_recombine] and the arithmetic protocol ([add], [sub], [mul],
      [open], [xor_int], [xor_bit]);
    - [prss_share_random] and the two comparison protocols;
    - share objects as deferreds ([Share.clone]), share lists with a
      threshold, the mask length of [convert_bit_share_II] and the
      connection set-up ([connect], [buildProtocol]);
    - the modules [BeDOZa] and [FFT] and the loop of [xor_all].

    Protocol-level operations are modelled in the opened-value view: a
    share that resolves is represented by the field element it opens
    to, and a share may also fail or never fire ([future]).  The
    runtime's players and threshold decide whether [mul] and [open]
    deliver: both end in [_recombine], which asserts that it is given
    more shares than its threshold. *)

From Stdlib Require Import ZArith Znumtheory Zcong Lia Bool List String.
From stdpp Require Import base list gmap.

Local Open Scope Z_scope.

(** ** Python exceptions and fallible results *)

Inductive exn : Type :=
| AssertionError (msg : string)
| IndexError
| KeyError
| AlreadyCalledError
| TypeError
| UserError (tag : Z).

Inductive result (A : Type) : Type :=
| Ok (a : A)
| Err (e : exn).
Arguments Ok {A} a.
Arguments Err {A} e.

#[export] Instance result_ret : MRet result := fun A a => Ok a.
#[export] Instance result_bind : MBind result := fun A B k r =>
  match r with
  | Ok a => k a
  | Err e => Err e
  end.

(** [assert cond, msg] *)
Definition py_assert (cond : bool) (msg : string) : result unit :=
  if cond then Ok tt else Err (AssertionError msg).

(** ** Field elements *)

(** The interface the runtime uses from [viff.field]: construction from
    an integer, the canonical representative, and the ring operations;
    [modulus] is [field.modulus] and [is_GF256] the test
    [field is GF256].  [f_inv] is [~x], and [x / y] is [x * ~y]. *)
Class FieldElement (F : Type) : Type := {
  modulus : Z;
  is_GF256 : bool;
  field : Z -> F;
  value : F -> Z;
  f_add : F -> F -> F;
  f_sub : F -> F -> F;
  f_mul : F -> F -> F;
  f_inv : F -> F
}.

(** Modelled from the spec: the prime field [GF(p)] of [viff.field],
    "value in [0, modulus), modulus fixed per field type", with the
    multiplicative inverse computed with the extended Euclidean
    algorithm ([Z.invmod]). *)
Record GFp (p : Z) : Type := mkGFp { gfp_value : Z }.
Arguments mkGFp {p} gfp_value.
Arguments gfp_value {p} _.

#[export] Instance GFp_field (p : Z) : FieldElement (GFp p) := {
  modulus := p;
  is_GF256 := false;
  field := fun n => mkGFp (n mod p);
  value := gfp_value;
  f_add := fun a b => mkGFp ((gfp_value a + gfp_value b) mod p);
  f_sub := fun a b => mkGFp ((gfp_value a - gfp_value b) mod p);
  f_mul := fun a b => mkGFp ((gfp_value a * gfp_value b) mod p);
  f_inv := fun a => mkGFp (Z.invmod (gfp_value a) p)
}.

(** Modelled from the spec: the compact 256-element field [GF256] of
    [viff.field]: characteristic 2, addition is bitwise exclusive-or,
    multiplication is polynomial multiplication modulo
    x^8 + x^4 + x^3 + x + 1. *)
Record GF256 : Type := mkGF256 { gf256_value : Z }.

Definition xtime (a : Z) : Z :=
  let a2 := Z.shiftl a 1 in
  if 255 <? a2 then Z.lxor a2 283 else a2.

Fixpoint gf256_mul_loop (n : nat) (a b acc : Z) : Z :=
  match n with
  | O => acc
  | S n' =>
      gf256_mul_loop n' (xtime a) (Z.shiftr b 1)
        (if Z.testbit b 0 then Z.lxor acc a else acc)
  end.

Definition gf256_mul (a b : Z) : Z := gf256_mul_loop 8 a b 0.

(** [x^254] is the inverse of a nonzero [x]. *)
Fixpoint gf256_pow (n : nat) (a : Z) : Z :=
  match n with
  | O => 1
  | S n' => gf256_mul a (gf256_pow n' a)
  end.

#[export] Instance GF256_field : FieldElement GF256 := {
  modulus := 256;
  is_GF256 := true;
  field := fun n => mkGF256 (Z.land n 255);
  value := gf256_value;
  f_add := fun a b => mkGF256 (Z.lxor (gf256_value a) (gf256_value b));
  f_sub := fun a b => mkGF256 (Z.lxor (gf256_value a) (gf256_value b));
  f_mul := fun a b => mkGF256 (gf256_mul (gf256_value a) (gf256_value b));
  f_inv := fun a => mkGF256 (gf256_pow 254 (gf256_value a))
}.

Definition f_div {F : Type} `{FieldElement F} (x y : F) : F :=
  f_mul x (f_inv y).

(** [FieldElement.bit(i)]: bit [i] of the canonical representative. *)
Definition bit {F : Type} `{FieldElement F} (x : F) (i : Z) : Z :=
  Z.b2z (Z.testbit (value x) i).

(** ** The program counter

    [self.program_counter] is a reference to a Python list.  The list
    objects live in [heap]; [program_counter] is the address the
    attribute currently points to.  [increment_pc] mutates the list in
    place, [callback] copies it ([self.program_counter[:]]) and its
    wrapper re-points the attribute. *)

(** What a method body or a continuation does with the runtime: it
    returns or raises, calls methods decorated with [increment_pc],
    catches exceptions, schedules continuations with [Runtime.callback]
    and resolves deferreds.  [Drain] is the rest of a deferred's callback
    loop. *)
Inductive body : Type :=
| Return
| Raise (e : exn)
| Method (m k : body)
| Try (b k : body)
| Callback (d : nat) (func k : body)
| Fire (d : nat) (k : body)
| Drain (d : nat) (k : body).

Record Runtime : Type := mkRuntime {
  heap : list (list Z);
  program_counter : nat;
  pending : list (nat * (nat * body));
  called : list nat;
  running : list nat;
  failed : list nat
}.

Inductive outcome : Type :=
| Returned
| Raised (e : exn).

Definition with_heap (h : list (list Z)) (self : Runtime) : Runtime :=
  mkRuntime h (program_counter self) (pending self) (called self)
    (running self) (failed self).

Definition with_pc (a : nat) (self : Runtime) : Runtime :=
  mkRuntime (heap self) a (pending self) (called self) (running self)
    (failed self).

Definition with_pending (q : list (nat * (nat * body))) (self : Runtime)
  : Runtime :=
  mkRuntime (heap self) (program_counter self) q (called self) (running self)
    (failed self).

(** The list [self.program_counter] currently denotes. *)
Definition pc_value (self : Runtime) : list Z :=
  default [] (heap self !! program_counter self).

(** [l[-1] += 1] *)
Definition incr_last (l : list Z) : result (list Z) :=
  match reverse l with
  | [] => Err IndexError
  | x :: r => Ok (reverse r ++ [x + 1])
  end.

(** [l.pop()] *)
Definition pop_last (l : list Z) : result (list Z) :=
  match reverse l with
  | [] => Err IndexError
  | _ :: r => Ok (reverse r)
  end.

Definition pc_update (f : list Z -> result (list Z)) (self : Runtime)
  : result Runtime :=
  l ← f (pc_value self);
  mret (with_heap (<[program_counter self := l]> (heap self)) self).

(** [finally: self.program_counter.pop()]: an exception raised by the
    [finally] clause replaces the pending outcome. *)
Definition finally_pop (out : outcome) (self : Runtime) : outcome * Runtime :=
  match pc_update pop_last self with
  | Ok self' => (out, self')
  | Err e => (Raised e, self)
  end.

(** [increment_pc(method)]: the wrapper [inc_pc_wrapper].  A method is a
    partial state transformer ([None]: the evaluation budget ran out). *)
Definition increment_pc (method : Runtime -> option (outcome * Runtime))
    (self : Runtime) : option (outcome * Runtime) :=
  match pc_update incr_last self with
  | Err e => Some (finally_pop (Raised e) self)
  | Ok self1 =>
      match pc_update (fun l => Ok (l ++ [0])) self1 with
      | Err e => Some (finally_pop (Raised e) self1)
      | Ok self2 =>
          match method self2 with
          | None => None
          | Some (out, self3) => Some (finally_pop out self3)
          end
      end
  end.

(** [callback_wrapper] of [Runtime.callback], closed over [saved_pc]. *)
Definition callback_wrapper (saved_pc : nat)
    (func : Runtime -> option (outcome * Runtime)) (self : Runtime)
  : option (outcome * Runtime) :=
  let current_pc := program_counter self in
  let self1 := with_pc saved_pc self in
  match func self1 with
  | None => None
  | Some (out, self2) => Some (out, with_pc current_pc self2)
  end.

(** [saved_pc = self.program_counter[:]]: a fresh list object. *)
Definition save_pc (self : Runtime) : nat * Runtime :=
  (length (heap self), with_heap (heap self ++ [pc_value self]) self).

(** *** Deferreds holding scheduled continuations

    [pending] lists the wrappers added to deferreds that have not run
    yet, in registration order, as [(deferred, (saved_pc, func))].  A
    deferred in [called] has been resolved; while it is in [running] its
    callback loop is active, and a continuation added to it meanwhile is
    queued behind the current one.  A continuation that raises turns the
    deferred's result into a failure ([failed]); the callbacks after it
    are skipped. *)

Fixpoint take_first (d : nat) (q : list (nat * (nat * body)))
  : option ((nat * body) * list (nat * (nat * body))) :=
  match q with
  | [] => None
  | (d', w) :: q' =>
      if decide (d' = d) then Some (w, q')
      else match take_first d q' with
           | None => None
           | Some (w', r) => Some (w', (d', w) :: r)
           end
  end.

Definition mark_called (d : nat) (self : Runtime) : Runtime :=
  mkRuntime (heap self) (program_counter self) (pending self)
    (d :: called self) (d :: running self) (failed self).

Definition clear_running (d : nat) (self : Runtime) : Runtime :=
  mkRuntime (heap self) (program_counter self) (pending self) (called self)
    (filter (λ x, x ≠ d) (running self)) (failed self).

Definition mark_failed (d : nat) (self : Runtime) : Runtime :=
  mkRuntime (heap self) (program_counter self) (pending self) (called self)
    (running self) (d :: failed self).

(** The deferred swallows what a continuation raises. *)
Definition absorb (d : nat) (r : outcome * Runtime) : Runtime :=
  match r with
  | (Returned, self) => self
  | (Raised _, self) => mark_failed d self
  end.

(** [Runtime.callback(deferred, func)]: snapshot the counter and add
    the wrapper to the deferred.  [addCallback] on a deferred that is
    already resolved (and idle) runs the wrapper at once.  [run_func]
    evaluates [func]. *)
Definition callback (run_func : Runtime -> option (outcome * Runtime))
    (d : nat) (func : body) (self : Runtime) : option Runtime :=
  let '(saved_pc, self1) := save_pc self in
  if bool_decide (d ∈ called self1 ∧ d ∉ running self1) then
    if bool_decide (d ∈ failed self1) then Some self1
    else
      match callback_wrapper saved_pc run_func self1 with
      | None => None
      | Some r => Some (absorb d r)
      end
  else Some (with_pending (pending self1 ++ [(d, (saved_pc, func))]) self1).

Fixpoint run (fuel : nat) (b : body) (self : Runtime)
  : option (outcome * Runtime) :=
  match fuel with
  | O => None
  | S fuel' =>
      match b with
      | Return => Some (Returned, self)
      | Raise e => Some (Raised e, self)
      | Method m k =>
          match increment_pc (run fuel' m) self with
          | None => None
          | Some (Returned, self') => run fuel' k self'
          | Some (Raised e, self') => Some (Raised e, self')
          end
      | Try b1 k =>
          match run fuel' b1 self with
          | None => None
          | Some (_, self') => run fuel' k self'
          end
      | Callback d func k =>
          match callback (run fuel' func) d func self with
          | None => None
          | Some self' => run fuel' k self'
          end
      | Fire d k =>
          (* deferred.callback(value) *)
          if bool_decide (d ∈ called self)
          then Some (Raised AlreadyCalledError, self)
          else run fuel' (Drain d k) (mark_called d self)
      | Drain d k =>
          match take_first d (pending self) with
          | None => run fuel' k (clear_running d self)
          | Some ((saved_pc, func), rest) =>
              let self1 := with_pending rest self in
              if bool_decide (d ∈ failed self1)
              then run fuel' (Drain d k) self1
              else
                match callback_wrapper saved_pc (run fuel' func) self1 with
                | None => None
                | Some r => run fuel' (Drain d k) (absorb d r)
                end
          end
      end
  end.

(** [Runtime.__init__]: [self.program_counter = [0]]. *)
Definition Runtime_init : Runtime := mkRuntime [[0]] 0%nat [] [] [] [].

Definition run_pc (fuel : nat) (b : body) : option (outcome * list Z) :=
  match run fuel b Runtime_init with
  | None => None
  | Some (out, self) => Some (out, pc_value self)
  end.

(** *** Well-formed runtimes and the frame a body leaves behind *)

Definition saved (self : Runtime) : list nat :=
  (λ e, fst (snd e)) <$> pending self.

Record wf (self : Runtime) : Prop := mk_wf {
  wf_pc : (program_counter self < length (heap self))%nat;
  wf_nonempty : Forall (λ l, l ≠ []) (heap self);
  wf_saved_nodup : NoDup (saved self);
  wf_saved_bound : Forall (λ a, (a < length (heap self))%nat) (saved self);
  wf_pc_fresh : program_counter self ∉ saved self
}.

(** Same length, same elements but the last, which only grows. *)
Definition same_frame (l l' : list Z) : Prop :=
  ∃ l0 x j, 0 <= j ∧ l = l0 ++ [x] ∧ l' = l0 ++ [x + j].

Record frame (self self' : Runtime) : Prop := mk_frame {
  fr_pc : program_counter self' = program_counter self;
  fr_grow : (length (heap self) <= length (heap self'))%nat;
  fr_value : same_frame (pc_value self) (pc_value self');
  fr_other : ∀ a, (a < length (heap self))%nat → a ≠ program_counter self →
             a ∉ saved self ∨ a ∈ saved self' →
             heap self' !! a = heap self !! a;
  fr_saved : ∀ a, a ∈ saved self' →
             a ∈ saved self ∨ (length (heap self) <= a)%nat
}.

(** A method or continuation body that keeps runtimes well formed and
    leaves a frame. *)
Definition respects (method : Runtime → option (outcome * Runtime)) : Prop :=
  ∀ s o s', wf s → method s = Some (o, s') → wf s' ∧ frame s s'.

Definition set_pc_list (l : list Z) (self : Runtime) : Runtime :=
  with_heap (<[program_counter self := l]> (heap self)) self.

(** *** Evaluation budget *)

(** The size of a body, and the weight of the continuations waiting in
    [pending]: together they bound the budget [run] needs. *)
Fixpoint size (b : body) : nat :=
  match b with
  | Return | Raise _ => 1
  | Method m k | Try m k => S (size m + size k)
  | Callback _ func k => S (S (size func + size k))
  | Fire _ k => S (S (size k))
  | Drain _ k => S (size k)
  end.

Fixpoint weight (q : list (nat * (nat * body))) : nat :=
  match q with
  | [] => O
  | (_, (_, func)) :: q' => S (size func + weight q')
  end.

(** *** What may happen between registration and firing

    After a continuation has been registered the runtime goes on: the
    rest of the current body and later bodies run, the decorated
    methods around the registration exit and pop their frames, the
    callback wrappers around it re-point the counter to the lists they
    had put aside, and deferreds record failures. *)
Inductive drifts : Runtime → Runtime → Prop :=
| drifts_refl (s : Runtime) : drifts s s
| drifts_run (s s' s'' : Runtime) (fuel : nat) (b : body) (o : outcome) :
    run fuel b s = Some (o, s') → drifts s' s'' → drifts s s''
| drifts_pop (s s' s'' : Runtime) :
    (2 <= length (pc_value s))%nat →
    pc_update pop_last s = Ok s' → drifts s' s'' → drifts s s''
| drifts_restore (s s'' : Runtime) (a : nat) :
    (a < length (heap s))%nat → a ∉ saved s →
    drifts (with_pc a s) s'' → drifts s s''
| drifts_failed (s s'' : Runtime) (d : nat) :
    drifts (mark_failed d s) s'' → drifts s s''.

(** Continuations still waiting keep their snapshot. *)
Definition keeps (s s' : Runtime) : Prop :=
  (length (heap s) <= length (heap s'))%nat ∧
  ∀ a, a ∈ saved s' → (a < length (heap s))%nat →
       a ∈ saved s ∧ heap s' !! a = heap s !! a.

(** ** Share futures

    A share is a Twisted [Deferred]: it fires once, with a success flag
    and a result.  For the list operations only the firing matters, so
    an input share is given by its state when the list is built --
    [Some (success, result)] if it has fired already, [None] if it is
    still pending -- and later firings arrive as events
    [(index, (success, result))]. *)

Section Shares.
Context {V : Type}.

(** [filter_results]: [[share for (success, share) in results]];
    unpacking a [None] entry is a [TypeError]. *)
Fixpoint filter_results (rs : list (option (bool * V))) : result (list V) :=
  match rs with
  | [] => Ok []
  | None :: _ => Err TypeError
  | Some (_, share) :: rs' =>
      match filter_results rs' with
      | Ok l => Ok (share :: l)
      | Err e => Err e
      end
  end.

(** [ShareList]: [results], [missing_shares] and the deferred's own
    [called] flag.  The list fires with the list object [self.results]
    itself ([self.callback(self.results)]), so the value it holds is not
    a copy: it is [results], as it is when it is read.  Of the callbacks
    a list may be given, the one of [gather_shares] is modelled,
    [filter_results], which builds a new list when it runs:
    [sl_filter] tells whether it has been added and [sl_filtered] what
    it has returned. *)
Record ShareList : Type := mkShareList {
  results : list (option (bool * V));
  missing_shares : Z;
  sl_called : bool;
  sl_filter : bool;
  sl_filtered : option (result (list V))
}.

(** [ShareList._callback_fired(result, index, success)] *)
Definition _callback_fired (self : ShareList) (result : V) (index : nat)
    (success : bool) : ShareList :=
  let results' := <[index := Some (success, result)]> (results self) in
  let missing' := missing_shares self - 1 in
  if negb (sl_called self) && (missing' =? 0)
  then
    (* self.callback(self.results): the callbacks run on the list *)
    mkShareList results' missing' true (sl_filter self)
      (if sl_filter self then Some (filter_results results') else None)
  else
    mkShareList results' missing' (sl_called self) (sl_filter self)
      (sl_filtered self).

(** [share.addCallbacks(self._callback_fired, ...)] on a share that
    has fired runs the callback at once. *)
Definition add_share (self : ShareList)
    (entry : nat * option (bool * V)) : ShareList :=
  match entry with
  | (index, Some (success, result)) =>
      _callback_fired self result index success
  | (_, None) => self
  end.

(** [ShareList.__init__(shares, threshold=None)] *)
Definition ShareList_init (shares : list (option (bool * V)))
    (threshold : option Z) : result ShareList :=
  _ ← py_assert (0 <? Z.of_nat (length shares))
        "Cannot create empty ShareList";
  _ ← py_assert
        match threshold with
        | None => true
        | Some t => (0 <? t) && (t <=? Z.of_nat (length shares))
        end
        "Threshold out of range";
  let missing :=
    match threshold with
    | None => Z.of_nat (length shares)
    | Some t => t
    end in
  mret (foldl add_share
          (mkShareList (replicate (length shares) None) missing false false
             None)
          (imap pair shares)).

(** A pending share fires later. *)
Definition fire (self : ShareList) (ev : nat * (bool * V)) : ShareList :=
  _callback_fired self ev.2.2 ev.1 ev.2.1.

(** [gather_shares(shares)]: the share list with [filter_results] as
    its first callback; on a list that has fired while it was built the
    callback runs when it is added. *)
Definition gather_shares (shares : list (option (bool * V)))
  : result ShareList :=
  share_list ← ShareList_init shares None;
  mret (mkShareList (results share_list) (missing_shares share_list)
          (sl_called share_list) true
          (if sl_called share_list
           then Some (filter_results (results share_list))
           else None)).

(** The value the gathered share has resolved to, if it has. *)
Definition gathered (self : ShareList) : option (result (list V)) :=
  sl_filtered self.

(** The value a list without callbacks holds once it has fired: the
    list object [self.results], with the entries it has now. *)
Definition fired_list (self : ShareList)
  : option (list (option (bool * V))) :=
  if sl_called self then Some (results self) else None.

(** What share [i] of the input list has fired with, given the events
    so far. *)
Fixpoint assoc (i : nat) (evs : list (nat * (bool * V)))
  : option (bool * V) :=
  match evs with
  | [] => None
  | (j, x) :: evs' => if decide (j = i) then Some x else assoc i evs'
  end.

Definition resolution (shares : list (option (bool * V)))
    (evs : list (nat * (bool * V))) (i : nat) : option (bool * V) :=
  match shares !! i with
  | Some (Some x) => Some x
  | _ => assoc i evs
  end.
End Shares.
Arguments ShareList : clear implicits.

(** Number of entries of a result list still waiting. *)
Fixpoint unresolved {V : Type} (cur : list (option (bool * V))) : nat :=
  match cur with
  | [] => O
  | None :: r => S (unresolved r)
  | Some _ :: r => unresolved r
  end.

(** The state of a share list whose inputs have fired as [cur] says,
    when it waits for all of them; [filter] tells whether
    [filter_results] has been added. *)
Definition tracks {V : Type} (filter : bool) (self : ShareList V)
    (cur : list (option (bool * V))) : Prop :=
  results self = cur ∧
  missing_shares self = Z.of_nat (unresolved cur) ∧
  sl_filter self = filter ∧
  (unresolved cur ≠ O → sl_called self = false ∧ sl_filtered self = None) ∧
  (unresolved cur = O →
   sl_called self = true ∧
   sl_filtered self = if filter then Some (filter_results cur) else None).

(** ** The pending-share table

    [Runtime.incoming_shares] maps [(program_counter, peer id)] to a
    [Share] object.  Share objects are shared between the table, the
    reactor's delayed calls and the callers of [_exchange_shares], so
    they live in a store: [share_store !! a] is [None] for a share that
    is still pending and [Some v] once it has fired with [v]. *)

Record Exchange : Type := mkExchange {
  share_store : list (option Z);
  incoming_shares : gmap (list Z * Z) nat;
  (** [reactor.callLater(0, share.callback, value)] calls not yet run *)
  delayed_calls : list (nat * Z);
  (** [(peer, program_counter, value)] handed to [sendShare] *)
  outbox : list (Z * list Z * Z)
}.

(** [Share(self.runtime, value)] / [Share(self)]: a new share object. *)
Definition new_share (value : option Z) (net : Exchange) : nat * Exchange :=
  (length (share_store net),
   mkExchange (share_store net ++ [value]) (incoming_shares net)
     (delayed_calls net) (outbox net)).

(** [Runtime._exchange_shares(id, share)] of the player [self_id] at
    program counter [pc]; returns the share to wait on. *)
Definition _exchange_shares (self_id : Z) (pc : list Z) (id : Z) (share : Z)
    (net : Exchange) : nat * Exchange :=
  if decide (id = self_id) then new_share (Some share) net
  else
    let key := (pc, id) in
    let net1 :=
      match incoming_shares net !! key with
      | Some _ => net
      | None =>
          let '(a, net') := new_share None net in
          mkExchange (share_store net') (<[key := a]> (incoming_shares net'))
            (delayed_calls net') (outbox net')
      end in
    let net2 :=
      mkExchange (share_store net1) (incoming_shares net1)
        (delayed_calls net1) (outbox net1 ++ [(id, pc, share)]) in
    (default O (incoming_shares net2 !! key), net2).

(** [ShareExchanger.stringReceived] of the connection to peer [id], for
    a message [(program_counter, modulus, value)]. *)
Definition stringReceived (id : Z) (program_counter : list Z) (value : Z)
    (net : Exchange) : Exchange :=
  let key := (program_counter, id) in
  match incoming_shares net !! key with
  | Some a =>
      (* reactor.callLater(0, shares.pop(key).callback, share) *)
      mkExchange (share_store net) (delete key (incoming_shares net))
        (delayed_calls net ++ [(a, value)]) (outbox net)
  | None =>
      (* except KeyError: shares[key] = Share(self.runtime, share) *)
      let '(a, net') := new_share (Some value) net in
      mkExchange (share_store net') (<[key := a]> (incoming_shares net'))
        (delayed_calls net') (outbox net')
  end.

(** The reactor runs the oldest delayed call, [share.callback(value)]. *)
Definition reactor_step (net : Exchange) : result Exchange :=
  match delayed_calls net with
  | [] => Ok net
  | (a, v) :: calls =>
      match share_store net !! a with
      | Some None =>
          Ok (mkExchange (<[a := Some v]> (share_store net))
                (incoming_shares net) calls (outbox net))
      | _ => Err AlreadyCalledError
      end
  end.

Definition Exchange_init : Exchange := mkExchange [] ∅ [] [].

(** ** Reconstruction *)

(** [l[:stop]] *)
Definition slice_to {A : Type} (l : list A) (stop : Z) : list A :=
  if stop <? 0
  then take (Z.to_nat (Z.of_nat (length l) + stop)) l
  else take (Z.to_nat stop) l.

(** [gatherResults(deferreds)]: fires with the list of results once
    every deferred of the list has fired. *)
Fixpoint gatherResults {A : Type} (ds : list (option A)) : option (list A) :=
  match ds with
  | [] => Some []
  | None :: _ => None
  | Some x :: ds' =>
      match gatherResults ds' with
      | Some l => Some (x :: l)
      | None => None
      end
  end.

Section Recombine.
Context {F : Type} `{FieldElement F}.

(** Modelled from the spec: [shamir.recombine(points)], "compute the
    Lagrange interpolation at x = 0". *)
Definition lagrange_weight (xs : list F) (xi : F) : F :=
  foldr (λ xj acc,
           if decide (value xj = value xi) then acc
           else f_mul acc (f_mul xj (f_inv (f_sub xj xi))))
        (field 1) xs.

Definition shamir_recombine (points : list (F * F)) : F :=
  foldr (λ '(xi, yi) acc,
           f_add (f_mul yi (lagrange_weight (points.*1) xi)) acc)
        (field 0) points.

(** [Runtime._recombine(shares, threshold)], for any reconstruction
    function [recombine]:
    [result = gatherResults(shares[:threshold+1])] with
    [result.addCallback(shamir.recombine)]. *)
Definition _recombine (recombine : list (F * F) → F)
    (shares : list (option (F * F))) (threshold : Z)
  : result (option F) :=
  _ ← py_assert (threshold <? Z.of_nat (length shares)) "";
  let result := gatherResults (slice_to shares (threshold + 1)) in
  mret (recombine <$> result).
End Recombine.

(** ** The arithmetic protocol (opened-value view)

    A share is a Twisted [Deferred] that fires with this player's share
    of a secret.  In the opened-value view a share that fires with a
    value is represented by the field element that value opens to,
    [Resolved v]; [Share(self, v)] is [Resolved v].  The other two states
    are the ways in which a share delivers no value: [Failed], when a
    callback of its chain has raised, so that the deferred holds a
    [Failure], and [Pending], when it never fires.

    The runtime is configured with the players and the threshold:
    [players] is [len(self.players)] and [threshold] is
    [self.threshold], the degree of the sharing polynomials, a natural
    number.  The re-sharing of [mul] and the interpolation of [open] live
    in the [shamir] module, outside this file's source; modelled from the
    spec, "recombine(share(s, t, n)) using any t+1 of the n shares
    equals s": what [_recombine] reconstructs from enough shares of a
    sharing is the shared value. *)

Inductive future (A : Type) : Type :=
| Resolved (a : A)
| Failed
| Pending.
Arguments Resolved {A} a.
Arguments Failed {A}.
Arguments Pending {A}.

(** [addCallback] on a share: the callback runs on the value; a share
    that has failed passes its callbacks over, a share that never fires
    never runs them.  A callback that returns a share chains it. *)
#[export] Instance future_ret : MRet future := λ A a, Resolved a.
#[export] Instance future_bind : MBind future := λ A B k s,
  match s with
  | Resolved a => k a
  | Failed => Failed
  | Pending => Pending
  end.

(** [gather_shares([a, b])], for the callbacks that compute with both
    values.  The list fires once both shares have fired, by callback or
    by errback: it never fires while one of them is pending, and when
    one has failed the list holds its [Failure], on which the arithmetic
    of the callback raises. *)
Definition both {A B : Type} (a : future A) (b : future B) : future (A * B) :=
  match a, b with
  | Pending, _ | _, Pending => Pending
  | Resolved x, Resolved y => Resolved (x, y)
  | _, _ => Failed
  end.

(** [gather_shares(shares)], for a callback that computes with every
    value of the list. *)
Fixpoint gather {A : Type} (shares : list (future A)) : future (list A) :=
  match shares with
  | [] => Resolved []
  | share :: rest => p ← both share (gather rest); mret (p.1 :: p.2)
  end.

Definition is_pending {A : Type} (share : future A) : bool :=
  match share with
  | Pending => true
  | _ => false
  end.

(** *** The tuples of variant B of the comparison *)

(** The randomness [greater_thanII_preproc] consumes: the shared random
    bits and the sign bit, each the share a call
    [prss_share_random(field, True)] returns, the players' masks of the
    sign bit's conversion, and the elements the two masks
    [prss_share_random(smallField, False)] open to. *)
Record preproc_draws (F : Type) : Type := mk_preproc_draws {
  draw_bits : list (future F);
  draw_s_bit : future F;
  draw_conv_masks : list Z;
  draw_mask : F;
  draw_mask_2 : F
}.
Arguments mk_preproc_draws {F}.
Arguments draw_bits {F}.
Arguments draw_s_bit {F}.
Arguments draw_conv_masks {F}.
Arguments draw_mask {F}.
Arguments draw_mask_2 {F}.

(** The tuple [greater_thanII_preproc] returns (without the two field
    objects). *)
Record preproc_result (F : Type) : Type := mk_preproc_result {
  s_bit : future F;
  s_sign : future F;
  mask : future F;
  r_full : future F;
  r_modl : future F;
  r_bits : list (future F)
}.
Arguments mk_preproc_result {F}.
Arguments s_bit {F}.
Arguments s_sign {F}.
Arguments mask {F}.
Arguments r_full {F}.
Arguments r_modl {F}.
Arguments r_bits {F}.

Section Protocols.
(** [len(self.players)] and [self.threshold] *)
Variable players : Z.
Variable threshold : nat.

Section Arithmetic.
Context {F : Type} `{FieldElement F}.

(** [Runtime.add]: [result = gather_shares([share_a, share_b])] and
    [result.addCallback(lambda (a, b): a + b)]. *)
Definition add (share_a share_b : future F) : future F :=
  p ← both share_a share_b; mret (f_add p.1 p.2).

(** [Runtime.sub]: [result.addCallback(lambda (a, b): a - b)]. *)
Definition sub (share_a share_b : future F) : future F :=
  p ← both share_a share_b; mret (f_sub p.1 p.2).

(** [Runtime.mul]: [result.addCallback(lambda (a, b): a * b)], then
    [self.callback(result, self._shamir_share)], which returns one share
    for every player, and
    [self.callback(result, self._recombine, threshold=2*self.threshold)],
    which starts with [assert len(shares) > threshold].  When the
    assertion holds the share resolves to a share of the product. *)
Definition mul (share_a share_b : future F) : future F :=
  p ← both share_a share_b;
  let product := f_mul p.1 p.2 in
  if 2 * Z.of_nat threshold <? players then Resolved product else Failed.

(** [Runtime.open(sharing, threshold=None)]:
    [result = sharing.clone()] and [self.callback(result, broadcast)].
    The clone is fired by a callback of [sharing], which a failed
    [sharing] passes over; [broadcast] collects one share from every
    player and returns [self._recombine(deferreds, threshold)].  The
    runtime passes its own threshold or twice that, at least the degree
    of the sharing. *)
Definition open (sharing : future F) (threshold' : option Z) : future F :=
  let threshold' := default (Z.of_nat threshold) threshold' in
  match sharing with
  | Resolved share =>
      if threshold' <? players then Resolved share else Failed
  | Failed | Pending => Pending
  end.

(** [Runtime.xor_int]:
    [share_c = self.mul(share_a, share_b)],
    [result = gather_shares([share_a, share_b, share_c])] and then
    [lambda (a, b, c): a + b - 2*c]. *)
Definition xor_int (share_a share_b : future F) : future F :=
  let share_c := mul share_a share_b in
  p ← both (both share_a share_b) share_c;
  mret (f_sub (f_add p.1.1 p.1.2) (f_mul (field 2) p.2)).

(** [xor_bit = add] in the class body. *)
Definition xor_bit : future F -> future F -> future F := add.
End Arithmetic.

(** ** Pseudo-random secret sharing *)

Section PRSS.
Context {F : Type} `{FieldElement F}.

(** [Runtime.prss_share_random(field, binary)].  [draws n] is the
    element the PRSS evaluation of the [n]-th attempt opens to (each
    attempt runs under a new program counter, hence a new key; the PRF
    modulus, [2] for binary draws in [GF256], only selects the keys);
    [sqrt] is [FieldElement.sqrt]; [fuel] bounds the retries.  [finish]
    is a callback of the opened square: it runs when the square
    resolves. *)
Fixpoint prss_share_random (sqrt : F → F) (fuel : nat) (draws : nat → F)
    (binary : bool) : option (future F) :=
  match fuel with
  | O => None
  | S fuel' =>
      let share := draws O in
      if is_GF256 || negb binary then Some (Resolved share)
      else
        let result :=
          open (mul (Resolved share) (Resolved share))
            (Some (2 * Z.of_nat threshold)) in
        (* self.callback(result, finish, share, binary) *)
        match result with
        | Resolved square =>
            if value square =? 0
            then prss_share_random sqrt fuel' (λ n, draws (S n)) binary
            else
              let root := sqrt square in
              let two := field 2 in
              Some (Resolved (f_div (f_add (f_div share root) (field 1)) two))
        | Failed => Some Failed
        | Pending => Some Pending
        end
  end.
End PRSS.

(** ** Bit conversion between fields *)

Section Convert.
Context {Src Dst : Type} `{FieldElement Src} `{FieldElement Dst}.

(** [Runtime.convert_bit_share(share, src_field, dst_field)].
    [bits] lists the bit [rand.randint(0, 1)] of every player, which
    [prss_share] shares in both fields. *)
Definition convert_bit_share (share : future Src) (bits : list Z)
  : future Dst :=
  let dst_shares : list (future Dst) := (λ b, Resolved (field b)) <$> bits in
  let src_shares : list (future Src) := (λ b, Resolved (field b)) <$> bits in
  let xor_src : future Src → future Src → future Src :=
    if is_GF256 (F := Src) then xor_bit else xor_int in
  let tmp := open (foldl xor_src share src_shares) None in
  (* tmp.addCallback(lambda i: dst_field(i.value)) *)
  let tmp : future Dst := i ← tmp; mret (field (value i)) in
  let xor_dst : future Dst → future Dst → future Dst :=
    if is_GF256 (F := Dst) then xor_bit else xor_int in
  foldl xor_dst tmp dst_shares.

(** [Runtime.convert_bit_share_II(share, src_field, dst_field, k)].
    [masks] lists [this_mask] of every player; [reduce] without an
    initial value fails on an empty list. *)
Definition convert_bit_share_II (share : future Src) (masks : list Z)
  : result (future Dst) :=
  let src_shares : list (future Src) := (λ m, Resolved (field m)) <$> masks in
  let dst_shares : list (future Dst) := (λ m, Resolved (field m)) <$> masks in
  let tmp := foldl add share src_shares in
  let tmp := open tmp None in
  (* tmp.addCallback(lambda i: dst_field(i.value)) *)
  let tmp : future Dst := i ← tmp; mret (field (value i)) in
  (* full_mask = reduce(self.add, dst_shares) *)
  full_mask ←
    match dst_shares with
    | [] => Err TypeError
    | m :: ms => Ok (foldl add m ms)
    end;
  mret (sub tmp full_mask).
End Convert.

(** ** Comparison, variant A *)

(** [bits_to_int]: [sum([2**i * b for i, b in enumerate(bits)])] *)
Definition bits_to_int {F : Type} `{FieldElement F} (bits : list F) : F :=
  foldl f_add (field 0) (imap (λ i b, f_mul (field (2 ^ Z.of_nat i)) b) bits).

(** [Runtime._diamond] *)
Definition _diamond (a b : future GF256 * future GF256)
  : future GF256 * future GF256 :=
  let '(top_a, bot_a) := a in
  let '(top_b, bot_b) := b in
  let top := mul top_a top_b in
  let bot := xor_bit (mul top_b (xor_bit bot_a bot_b)) bot_b in
  (top, bot).

(** The inner loop of the reduction: neighbours are combined in pairs,
    a last odd element is carried over. *)
Fixpoint diamond_round (vec : list (future GF256 * future GF256))
  : list (future GF256 * future GF256) :=
  match vec with
  | a :: b :: vec' => _diamond a b :: diamond_round vec'
  | _ => vec
  end.

(** The outer loop, [while len(vec) > 1]. *)
Fixpoint diamond_reduce (fuel : nat)
    (vec : list (future GF256 * future GF256))
  : list (future GF256 * future GF256) :=
  match fuel with
  | O => vec
  | S fuel' =>
      if (1 <? length vec)%nat then diamond_reduce fuel' (diamond_round vec)
      else vec
  end.

Section GreaterThan.
Context {F : Type} `{FieldElement F}.

(** [Runtime._finish_greater_than(results, l)], the callback of
    [gather_shares([T] + bit_bits)]: [T] is [results[0]] and [bit_bits]
    is [results[1:]].  The entry of a share that has failed is its
    [Failure]: [T.bit] does not exist on it, and [xor_bit] wraps it
    into a share that has failed. *)
Definition _finish_greater_than (T : future F)
    (bit_bits : list (future GF256)) (l : Z) : future GF256 :=
  match T with
  | Resolved T =>
      let vec :=
        (Resolved (field 0), Resolved (field 0)) ::
        imap (λ i bi, let Ti : GF256 := field (bit T (Z.of_nat i)) in
                      let ci := xor_bit bi (Resolved Ti) in
                      (ci, Resolved Ti))
             (slice_to bit_bits l) in
      let vec := diamond_reduce (length vec) vec in
      match bit_bits !! Z.to_nat l, vec with
      | Some bl, v0 :: _ =>
          xor_bit (Resolved (field (bit T l))) (xor_bit bl v0.2)
      | _, _ => Failed
      end
  | _ => Failed
  end.

(** [Runtime.greater_than(share_a, share_b, field)].  [int_bits] are
    the [m] shared random bits [prss_share_random(field, True)],
    [player_bits i] the players' bits in the [i]-th
    [convert_bit_share]. *)
Definition greater_than (share_a share_b : future F)
    (int_bits : list (future F)) (player_bits : nat → list Z)
  : result (future GF256) :=
  let l := 32 in
  let m := l + 2 in
  let t := m + 1 in
  _ ← py_assert (2 ^ (l + 1) + 2 ^ t <? modulus (F := F))
        "2^(l+1) + 2^t < p must hold";
  _ ← py_assert (players + 2 <? 2 ^ l) "";
  let int_bits := take (Z.to_nat m) int_bits in
  (* int_b = gather_shares(int_bits); int_b.addCallback(bits_to_int) *)
  let int_b := bits ← gather int_bits; mret (bits_to_int bits) in
  let bit_bits : list (future GF256) :=
    imap (λ i b, convert_bit_share b (player_bits i)) int_bits in
  let a := add (sub share_a share_b) (Resolved (field (2 ^ l))) in
  let T := open (add (sub (Resolved (field (2 ^ t))) int_b) a) None in
  (* result = gather_shares([T] + bit_bits)
     self.callback(result, self._finish_greater_than, l) *)
  mret (if is_pending T || existsb is_pending bit_bits then Pending
        else _finish_greater_than T bit_bits l).
End GreaterThan.

(** ** Comparison, variant B *)

(** The two assertions of [greater_thanII_preproc], after [l += 1]. *)
Definition preproc_asserts (field_modulus smallField_modulus l k : Z)
  : result unit :=
  _ ← py_assert (2 ^ (l + 2) + 2 ^ (l + k) <? field_modulus) "Field too small";
  py_assert (3 + 3 * l <? smallField_modulus) "smallField too small".

Section GreaterThanII.
Context {F : Type} `{FieldElement F}.

(** [r = field(0); for i, b in enumerate(bits): r = add(r, mul(b, field(2**i)))] *)
Definition weighted_sum (bits : list (future F)) : future F :=
  foldl add (Resolved (field 0))
    (imap (λ i b, mul b (Resolved (field (2 ^ Z.of_nat i)))) bits).

(** [Runtime.greater_thanII_preproc(field, smallField=None, l, k)]
    called without [smallField], so that [smallField = field] and the
    random bits are used as they are. *)
Definition greater_thanII_preproc (l k : option Z) (draws : preproc_draws F)
  : result (preproc_result F) :=
  let smallField_modulus := modulus (F := F) in
  let l := default 32 l in
  let k := default 30 k in
  (* l++ for technical reasons *)
  let l := l + 1 in
  _ ← preproc_asserts (modulus (F := F)) smallField_modulus l k;
  let r_bitsField := take (Z.to_nat (l + k)) (draw_bits draws) in
  let r_full := weighted_sum r_bitsField in
  let r_bitsField := slice_to r_bitsField l in
  let r_modl := weighted_sum r_bitsField in
  let r_bits := r_bitsField in
  let s_bit := draw_s_bit draws in
  s_bitSmallField ← convert_bit_share_II s_bit (draw_conv_masks draws);
  let s_sign :=
    add (Resolved (field 1)) (mul s_bitSmallField (Resolved (field (-2)))) in
  let mask := Resolved (draw_mask draws) in
  let mask_2 := Resolved (draw_mask_2 draws) in
  let mask_OK := open (mul mask mask_2) None in
  mret (mk_preproc_result s_bit s_sign mask r_full r_modl r_bits).

(** [sumXORs[i] = add(sumXORs[i+1], xor_int(r_bits[i+1], c_bits[i+1]))],
    filled from the last index down; the last entry stays [0]. *)
Fixpoint sumXORs (rs : list (future F)) (cs : list F) : list (future F) :=
  match rs, cs with
  | _ :: rs', _ :: cs' =>
      let rest := sumXORs rs' cs' in
      match rs', cs', rest with
      | r1 :: _, c1 :: _, s1 :: _ =>
          add s1 (xor_int r1 (Resolved c1)) :: rest
      | _, _, _ => Resolved (field 0) :: rest
      end
  | _, _ => []
  end.

(** [while len(E_tilde) > 1:
       E_tilde.append(self.mul(E_tilde.pop(0), E_tilde.pop(0)))] *)
Fixpoint mul_queue (fuel : nat) (E_tilde : list (future F))
  : list (future F) :=
  match fuel with
  | O => E_tilde
  | S fuel' =>
      match E_tilde with
      | e0 :: e1 :: rest => mul_queue fuel' (rest ++ [mul e0 e1])
      | _ => E_tilde
      end
  end.

(** [Runtime._finish_greater_thanII], the callback of the opened [c]. *)
Definition _finish_greater_thanII (c : F) (l : Z) (pre : preproc_result F)
    (z : future F) : future F :=
  let c_bits : list F :=
    (λ i, field (bit c (Z.of_nat i))) <$> seq 0 (Z.to_nat l) in
  let sums := sumXORs (r_bits pre) c_bits in
  let E_tilde :=
    imap (λ i ri,
            let ci := Resolved (default (field 0) (c_bits !! i)) in
            let e_i := add (s_sign pre) (sub ri ci) in
            add e_i (mul (Resolved (field 3))
                       (default (Resolved (field 0)) (sums !! i))))
         (r_bits pre) in
  let E_tilde := E_tilde ++ [mask pre] in
  let E_tilde := mul_queue (length E_tilde) E_tilde in
  match E_tilde with
  | e0 :: _ =>
      let e0 := open e0 None in
      (* E_tilde[0].addCallback(lambda bit: field(bit.value != 0)) *)
      let non_zero : future F :=
        b ← e0; mret (field (Z.b2z (negb (value b =? 0)))) in
      let UF := xor_int non_zero (s_bit pre) in
      let c_mod2l : F := field (value c mod 2 ^ l) in
      let result :=
        add (sub (Resolved c_mod2l) (r_modl pre))
          (mul UF (Resolved (field (2 ^ l)))) in
      let result := sub z result in
      let result := mul result (Resolved (f_inv (field (2 ^ l)))) in
      result
  | [] => Failed
  end.

(** [Runtime.greater_thanII_online] *)
Definition greater_thanII_online (share_a share_b : future F)
    (preproc : preproc_result F) (l : option Z) : result (future F) :=
  let l := default 32 l in
  let l := l + 1 in
  let share_a :=
    add (mul (Resolved (field 2)) share_a) (Resolved (field 1)) in
  let share_b := mul (Resolved (field 2)) share_b in
  _ ← py_assert (l =? Z.of_nat (length (r_bits preproc)))
        "preprocessing does not match online parameters";
  let z := add (sub share_a share_b) (Resolved (field (2 ^ l))) in
  let c := open (add (r_full preproc) z) None in
  (* self.callback(c, self._finish_greater_thanII, ...) *)
  mret (c ← c; _finish_greater_thanII c l preproc z).

(** [Runtime.greater_thanII(share_a, share_b, field, l=None)] *)
Definition greater_thanII (share_a share_b : future F) (l : option Z)
    (draws : preproc_draws F) : result (future F) :=
  let k := 30 in
  let l := default 32 l in
  preproc ← greater_thanII_preproc (Some l) (Some k) draws;
  greater_thanII_online share_a share_b preproc (Some l).
End GreaterThanII.
End Protocols.

(** The reading of [prss_share_random(field, binary=True)] that squares
    in every field: in a runtime with more than twice as many players as
    the threshold, a zero square retries the draw and any other square
    gives [(share/root + 1)/2]. *)
Definition binary_draw_by_squaring (F : Type) `{FieldElement F}
    (sqrt : F → F) : Prop :=
  ∀ (players : Z) (threshold : nat) (fuel : nat) (draws : nat → F),
    2 * Z.of_nat threshold < players →
    let share := draws O in
    let square := f_mul share share in
    (value square = 0 →
     prss_share_random players threshold sqrt (S fuel) draws true
     = prss_share_random players threshold sqrt fuel (λ n, draws (S n)) true) ∧
    (value square ≠ 0 →
     prss_share_random players threshold sqrt (S fuel) draws true
     = Some (Resolved
               (f_div (f_add (f_div share (sqrt square)) (field 1))
                  (field 2)))).

(** Square root in [GF256]: the inverse of the Frobenius map, [x^128]. *)
Definition gf256_sqrt (x : GF256) : GF256 :=
  mkGF256 (gf256_pow 128 (gf256_value x)).

(** The bits of [n], least significant first, as shares of field
    elements. *)
Definition bits_of {F : Type} `{FieldElement F} (n : Z) (len : nat)
  : list (future F) :=
  (λ i, Resolved (field (Z.b2z (Z.testbit n (Z.of_nat i))))) <$> seq 0 len.

(** The assertions as C7 words them, with the caller's [l]: the call
    fails an assertion exactly when one of them is violated. *)
Definition asserts_callers_l (F : Type) `{FieldElement F} : Prop :=
  ∀ (players : Z) (threshold : nat) (share_a share_b : future F) (l : Z)
    (draws : preproc_draws F),
    0 <= l →
    (2 ^ (l + 2) + 2 ^ (l + 30) < modulus (F := F) ∧
     3 + 3 * l < modulus (F := F)) ↔
    ¬ ∃ msg, greater_thanII players threshold share_a share_b (Some l) draws
             = Err (AssertionError msg).

(** ** Bits and carries, for the statements about the comparisons *)

(** The field element of a bit. *)
Definition bitF {F : Type} `{FieldElement F} (x : bool) : F :=
  field (Z.b2z x).

(** The diamond operator on plain bits:
    [(x, X) ⋄ (0, Y) = (0, Y)] and [(x, X) ⋄ (1, Y) = (x, X)]. *)
Definition diamond_b (a b : bool * bool) : bool * bool :=
  (a.1 && b.1, if b.1 then a.2 else b.2).

(** The integer with the given bits, least significant first. *)
Fixpoint bits_value (bs : list bool) : Z :=
  match bs with
  | [] => 0
  | b :: bs' => Z.b2z b + 2 * bits_value bs'
  end.

(** The pair of resolved shares of a pair of bits. *)
Definition bit_pair (a : bool * bool) : future GF256 * future GF256 :=
  (Resolved (bitF a.1), Resolved (bitF a.2)).

(** The ordered product of a non-empty vector. *)
Definition diamond_prod (v : bool * bool) (vs : list (bool * bool))
  : bool * bool :=
  foldl diamond_b v vs.

(** [diamond_round] on plain bits. *)
Fixpoint round_b (vec : list (bool * bool)) : list (bool * bool) :=
  match vec with
  | a :: b :: vec' => diamond_b a b :: round_b vec'
  | _ => vec
  end.

(** Number of positions where two bit lists differ. *)
Fixpoint xor_count (rs cs : list bool) : Z :=
  match rs, cs with
  | r :: rs', c :: cs' => Z.b2z (xorb r c) + xor_count rs' cs'
  | _, _ => 0
  end.

(** The evidence terms of variant B as integers:
    [s_sign + r_i - c_i + 3 * sumXORs[i]]. *)
Fixpoint evidence (s : bool) (rs cs : list bool) : list Z :=
  match rs, cs with
  | r :: rs', c :: cs' =>
      (1 - 2 * Z.b2z s + (Z.b2z r - Z.b2z c) + 3 * xor_count rs' cs')
      :: evidence s rs' cs'
  | _, _ => []
  end.

(** [sumXORs] as integers. *)
Fixpoint suffix_counts (rs cs : list bool) : list Z :=
  match rs, cs with
  | _ :: rs', _ :: cs' => xor_count rs' cs' :: suffix_counts rs' cs'
  | _, _ => []
  end.

(** Product of a list of integers. *)
Definition product (xs : list Z) : Z := foldr Z.mul 1 xs.

(** The bits [0 .. n-1] of an integer. *)
Definition low_bits (x : Z) (n : nat) : list bool :=
  (λ i, Z.testbit x (Z.of_nat i)) <$> seq 0 n.

(** Primality by trial division: no [d], [d + 1], ... divides [p]. *)
Fixpoint no_divisor (p d : Z) (fuel : nat) : bool :=
  match fuel with
  | O => true
  | S fuel' => if p mod d =? 0 then false else no_divisor p (d + 1) fuel'
  end.

Definition prime_check (p : Z) : bool :=
  (1 <? p) && no_divisor p 2 (Z.to_nat (Z.sqrt p - 1)).

(** ** Share lists with a threshold *)

(** The input shares that have fired when the list is built, in list
    order: [ShareList.__init__] runs their callbacks in that order. *)
Definition fired_inputs {V : Type} (shares : list (option (bool * V)))
  : list (nat * (bool * V)) :=
  omap (λ e, (λ x, (e.1, x)) <$> e.2) (imap pair shares).

(** The list [results] after the given firings, starting from
    [[None] * n]. *)
Definition settle {V : Type} (n : nat) (arrivals : list (nat * (bool * V)))
  : list (option (bool * V)) :=
  foldl (λ cur e, <[e.1 := Some e.2]> cur) (replicate n None) arrivals.

(** ** Shares as deferreds: [Share.__init__] and [Share.clone]

    A [Share] is a Twisted [Deferred]: it holds a result once it has
    been fired and a queue of callbacks, each of which receives the
    current result and returns the next one.  Share objects refer to one
    another (a clone is fired from a callback of its original), so they
    live in a store and are named by their address. *)

Module Deferreds.
Section Deferreds.
Context {V : Type}.

(** The result a fired deferred holds: a value, or the failure that
    wraps what a callback raised. *)
Inductive state : Type :=
| Success (v : V)
| Failure (e : exn).

(** The callbacks [addCallback] is given here: a function that returns
    its value, and the closure [split_result] of [Share.clone], which
    refers to the clone. *)
Inductive cb : Type :=
| Function (f : V → V)
| split_result (clone : nat).

Record Share : Type := mkShare {
  d_called : bool;
  d_result : option state;
  d_callbacks : list cb
}.

(** [Share.__init__(runtime, value=None)]: a new deferred, fired at
    once [if value is not None]. *)
Definition Share_init (value : option V) (store : list Share)
  : nat * list Share :=
  (length store,
   store ++ [match value with
             | None => mkShare false None []
             | Some v => mkShare true (Some (Success v)) []
             end]).

(** [Deferred._runCallbacks] of the deferred at [a]: the queued
    callbacks run in order on the current result; once the result is a
    failure the callbacks that follow are passed over.  [split_result]
    is [clone.callback(result); return result]: firing the clone runs
    the clone's own callbacks, and a clone that has been fired already
    raises [AlreadyCalledError], which becomes the result.  [None]: the
    budget of [fuel] steps ran out. *)
Fixpoint _runCallbacks (fuel : nat) (a : nat) (store : list Share)
  : option (list Share) :=
  match fuel with
  | O => None
  | S fuel' =>
      match store !! a with
      | None => Some store
      | Some d =>
          match d_callbacks d, d_result d with
          | [], _ => Some store
          | _ :: rest, None => Some store
          | _ :: rest, Some (Failure e) =>
              _runCallbacks fuel' a
                (<[a := mkShare (d_called d) (Some (Failure e)) rest]> store)
          | Function f :: rest, Some (Success v) =>
              _runCallbacks fuel' a
                (<[a := mkShare (d_called d) (Some (Success (f v))) rest]>
                   store)
          | split_result clone :: rest, Some (Success v) =>
              let store1 :=
                <[a := mkShare (d_called d) (Some (Success v)) rest]> store in
              match store1 !! clone with
              | Some c =>
                  if d_called c then
                    _runCallbacks fuel' a
                      (<[a := mkShare (d_called d)
                                (Some (Failure AlreadyCalledError)) rest]>
                         store)
                  else
                    match _runCallbacks fuel' clone
                            (<[clone := mkShare true (Some (Success v))
                                          (d_callbacks c)]> store1) with
                    | None => None
                    | Some store2 => _runCallbacks fuel' a store2
                    end
              | None => Some store1
              end
          end
      end
  end.

(** [Deferred.callback(value)] *)
Definition callback (fuel : nat) (a : nat) (value : V) (store : list Share)
  : option (result (list Share)) :=
  match store !! a with
  | None => Some (Ok store)
  | Some d =>
      if d_called d then Some (Err AlreadyCalledError)
      else
        Ok <$> _runCallbacks fuel a
                 (<[a := mkShare true (Some (Success value))
                           (d_callbacks d)]> store)
  end.

(** [Deferred.addCallback(f)]: the callback is queued, and runs at once
    when the deferred has been fired. *)
Definition addCallback (fuel : nat) (a : nat) (f : cb) (store : list Share)
  : option (list Share) :=
  match store !! a with
  | None => Some store
  | Some d =>
      let store1 :=
        <[a := mkShare (d_called d) (d_result d) (d_callbacks d ++ [f])]>
          store in
      if d_called d then _runCallbacks fuel a store1 else Some store1
  end.

(** [Share.clone()]: the address of the clone and the new store. *)
Definition clone (fuel : nat) (a : nat) (store : list Share)
  : option (nat * list Share) :=
  let '(c, store1) := Share_init None store in
  match addCallback fuel a (split_result c) store1 with
  | None => None
  | Some store2 => Some (c, store2)
  end.
End Deferreds.
End Deferreds.

(** ** The mask length of [convert_bit_share_II] *)

(** The local function [log] of [convert_bit_share_II]:
    [result = 0; while x > 1: result += 1; x /= 2; return result+1]
    (on integers [/] is floor division).  [fuel] bounds the number of
    iterations. *)
Fixpoint log_loop (fuel : nat) (x result : Z) : option Z :=
  if 1 <? x then
    match fuel with
    | O => None
    | S fuel' => log_loop fuel' (x / 2) (result + 1)
    end
  else Some (result + 1).

Definition log (fuel : nat) (x : Z) : option Z := log_loop fuel x 0.

(** [if k is None: k = 30] and [l = k + log(dst_field.modulus)]; a
    player's mask is [rand.randint(0, (2**l) - 1)]. *)
Definition mask_length (fuel : nat) (k : option Z) (dst_modulus : Z)
  : option Z :=
  let k := default 30 k in
  match log fuel dst_modulus with
  | Some lg => Some (k + lg)
  | None => None
  end.

(** ** Connecting the players

    [Runtime.connect] and [ShareExchangerFactory.buildProtocol]: how a
    connection is attributed to a player.  The player configuration
    [players] is a dictionary from ids to [Player] objects, listed here
    in its iteration order; host names are resolved by
    [socket.gethostbyname]. *)

Section Network.
Context {Host Ip : Type} `{Countable Ip}.
Variable gethostbyname : Host → Ip.

Record Player : Type := mkPlayer { host : Host; port : Z }.

(** The address of the other end of a connection, [addr.host] and
    [addr.port]. *)
Record Address : Type := mkAddress { addr_host : Host; addr_port : Z }.

(** A call [reactor.connectTCP(host, port, factory, bindAddress)]. *)
Record Connection : Type := mkConnection {
  to_host : Host;
  to_port : Z;
  bind_host : Host;
  bind_port : Z
}.

(** [self.players[id]] *)
Fixpoint player_of (players : list (Z * Player)) (id : Z) : result Player :=
  match players with
  | [] => Err KeyError
  | (id', p) :: players' =>
      if decide (id' = id) then Ok p else player_of players' id
  end.

(** The key under which [connect] files a player: its resolved
    address and its port. *)
Definition address_key (e : Z * Player) : Ip * Z :=
  (gethostbyname (host e.2), port e.2).

(** [mapping] of [connect]:
    [for ip, (id, p) in zip(ip_addresses, self.players.iteritems()):
       mapping[(ip, p.port)] = id] *)
Definition port_player_mapping (players : list (Z * Player))
  : gmap (Ip * Z) Z :=
  let ip_addresses := (λ e, gethostbyname (host e.2)) <$> players in
  foldl (λ mapping e, <[(e.1, port e.2.2) := e.2.1]> mapping) ∅
    (zip ip_addresses players).

(** [ShareExchangerFactory.buildProtocol(addr)]: the id of the peer the
    new protocol is attributed to. *)
Definition buildProtocol (mapping : gmap (Ip * Z) Z) (addr : Address)
  : result Z :=
  let port := addr_port addr - addr_port addr mod 100 in
  let ip := gethostbyname (addr_host addr) in
  match mapping !! (ip, port) with
  | Some id => Ok id
  | None => Err KeyError
  end.

(** [Runtime.connect]: the mapping handed to the factory, the port the
    runtime listens on, and the connections it opens, one to every
    player with a larger id. *)
Definition connect (players : list (Z * Player)) (self_id : Z)
  : result (gmap (Ip * Z) Z * Z * list Connection) :=
  let mapping := port_player_mapping players in
  me ← player_of players self_id;
  let connections :=
    omap (λ e, if self_id <? e.1
               then Some (mkConnection (host e.2) (port e.2)
                            (host me) (port me + e.1))
               else None) players in
  mret (mapping, port me, connections).
End Network.

(** ** The application [apps/xor_all.py]

    The runtime is created with the threshold [1],
    [rt = Runtime(players, id, 1)].  Every player shares its input with
    [prss_share]; the list [shares] then holds one share per player.  In
    the opened-value view the list is the list of the players' inputs. *)

(** [while len(shares) > 1:
       a = shares.pop(0); b = shares.pop(0)
       shares.append(rt.xor_bit(a, b))] *)
Fixpoint xor_all_loop (fuel : nat) (shares : list (future GF256))
  : list (future GF256) :=
  match fuel with
  | O => shares
  | S fuel' =>
      match shares with
      | a :: b :: rest => xor_all_loop fuel' (rest ++ [xor_bit a b])
      | _ => shares
      end
  end.

(** [xor = shares[0]] after the loop, then [rt.open(xor)]; [inputs]
    lists the input of every player. *)
Definition xor_all (inputs : list GF256) : result (future GF256) :=
  let players := Z.of_nat (length inputs) in
  let shares := Resolved <$> inputs in
  match xor_all_loop (length shares) shares with
  | xor :: _ => Ok (open players 1 xor None)
  | [] => Err IndexError
  end.

(** ** The BeDOZa runtime ([viff/bedoza.py]): authentication codes

    A share in the BeDOZa runtime travels with message authentication
    codes, one for every player, and is checked against the receiver's
    keys when it is opened. *)

Module BeDOZa.

(** [raise BeDOZaException("Wrong commitment for value %s." % x)] *)
Definition BeDOZaException : exn := UserError 0.

(** [l[i]], where a negative index counts from the end. *)
Definition py_index {A : Type} (l : list A) (i : Z) : result A :=
  let j := if i <? 0 then Z.of_nat (length l) + i else i in
  if j <? 0 then Err IndexError
  else match l !! Z.to_nat j with
       | Some x => Ok x
       | None => Err IndexError
       end.

(** [map(f, l)] for a function that can raise. *)
Fixpoint map_result {A B : Type} (f : A → result B) (l : list A)
  : result (list B) :=
  match l with
  | [] => Ok []
  | a :: l' => b ← f a; bs ← map_result f l'; mret (b :: bs)
  end.

(** [d[key]] for a dictionary listed in iteration order. *)
Fixpoint dict_get {A : Type} (d : list (Z * A)) (key : Z) : result A :=
  match d with
  | [] => Err KeyError
  | (k, a) :: d' => if decide (k = key) then Ok a else dict_get d' key
  end.

Section Codes.
Context {F : Type} `{FieldElement F}.

(** [BeDOZaRuntime.MAC(alpha, beta, v)] *)
Definition MAC (alpha beta v : F) : F := f_add (f_mul alpha v) beta.

(** [RandomShareGenerator.authentication_codes(keys, v)] *)
Definition authentication_codes (keys : list (F * F)) (v : F) : list F :=
  (λ key, f_add (f_mul key.1 v) key.2) <$> keys.

(** [KeyLoader.load_keys(field)]: a dictionary with the keys [1], [2]
    and [3], which iterates in that order. *)
Definition load_keys : list (Z * (F * list F)) :=
  [(1, (field 2, [field 1; field 2; field 3]));
   (2, (field 3, [field 4; field 5; field 6]));
   (3, (field 4, [field 7; field 8; field 9]))].

(** [RandomShareGenerator.generate_auth_codes(playerId, value)] with
    [self.keys = keys]. *)
Definition generate_auth_codes (keys : list (Z * (F * list F)))
    (playerId : Z) (value : F) : result (list F) :=
  keys ← map_result (λ entry,
                       let '(alpha, akeys) := entry.2 in
                       beta ← py_index akeys (playerId - 1);
                       mret (alpha, beta)) keys;
  mret (authentication_codes keys value).

(** [BeDOZaRuntime.get_keys()] of the player [id]; [None] when no
    branch returns. *)
Definition get_keys (keys : list (Z * (F * list F))) (id : Z)
  : result (option (F * list F)) :=
  if id =? 1 then key ← dict_get keys 1; mret (Some key)
  else if id =? 2 then key ← dict_get keys 2; mret (Some key)
  else if id =? 3 then key ← dict_get keys 3; mret (Some key)
  else Ok None.

(** [RandomShareGenerator.generate_keys()]: the pair
    [(alpha, betas)] of the new [BeDOZaKeyList]; unpacking [None] is a
    [TypeError]. *)
Definition generate_keys (keys : list (Z * (F * list F))) (id : Z)
  : result (F * list F) :=
  r ← get_keys keys id;
  match r with
  | Some (alpha, betas) => Ok (alpha, betas)
  | None => Err TypeError
  end.

(** [recombine_value(shares_codes, keyList)] of [BeDOZaRuntime.open],
    in a runtime of [n] players; [x] starts as the integer [0], which
    the first addition turns into a field element. *)
Definition recombine_value (n : nat) (shares_codes : list F)
    (keyList : F * list F) : result F :=
  let alpha := keyList.1 in
  let keys := keyList.2 in
  let step (acc : result (F * bool)) (inx : nat) : result (F * bool) :=
    match acc with
    | Err e => Err e
    | Ok (x, isOK) =>
        xi ← py_index shares_codes (Z.of_nat inx);
        mi ← py_index shares_codes (Z.of_nat n + Z.of_nat inx);
        beta ← py_index keys (Z.of_nat inx);
        mret (f_add x xi, isOK && (value mi =? value (MAC alpha beta xi)))
    end in
  match foldl step (Ok (field 0, true)) (seq 0 n) with
  | Err e => Err e
  | Ok (x, true) => Ok x
  | Ok (x, false) => Err BeDOZaException
  end.

(** The test [mi == self.MAC(alpha, beta, xi)] of [recombine_value] for
    the share, the code and the key at position [inx]. *)
Definition code_ok (alpha : F) (keys xs ms : list F) (inx : nat) : bool :=
  match ms !! inx, keys !! inx, xs !! inx with
  | Some mi, Some beta, Some xi => value mi =? value (MAC alpha beta xi)
  | _, _, _ => true
  end.

(** What [gatherResults(values + codes)] of [exchange] delivers to the
    player [receiver]: every player, in the order of
    [self.players.keys()], sends its share [xi] and the code
    [codes[other_id - 1]] meant for the receiver.  [holders] lists the
    pairs [(xi, codes)] of the players. *)
Definition gathered_at (holders : list (F * list F)) (receiver : Z)
  : result (list F) :=
  let values := fst <$> holders in
  codes ← map_result (λ holder, py_index holder.2 (receiver - 1)) holders;
  mret (values ++ codes).
End Codes.
End BeDOZa.

(** ** The number-theoretic transform of [apps/fft.py] *)

Module FFT.

Inductive error : Type :=
| ValueError
| IndexError
| ZeroDivisionError
| AssertionError.

(** What a call does when it ends: it returns a value or raises. *)
Inductive outcome (A : Type) : Type :=
| Returns (a : A)
| Raises (e : error).
Arguments Returns {A} a.
Arguments Raises {A} e.

#[export] Instance outcome_ret : MRet outcome := fun A a => Returns a.
#[export] Instance outcome_bind : MBind outcome := fun A B k r =>
  match r with
  | Returns a => k a
  | Raises e => Raises e
  end.

(** The built-in [pow(x, e, p)].  A modulus of [0] is a [ValueError];
    the result has the sign of [p]; with a negative exponent the base is
    inverted modulo [p] first, which is a [ValueError] when it has no
    inverse. *)
Definition pow (x e p : Z) : outcome Z :=
  if p =? 0 then Raises ValueError
  else if e <? 0 then
    if Z.gcd x p =? 1
    then Returns ((Z.invmod x (Z.abs p)) ^ (- e) mod p)
    else Raises ValueError
  else Returns (x ^ e mod p).

(** [l[i]], where a negative index counts from the end. *)
Definition index {A : Type} (l : list A) (i : Z) : outcome A :=
  let j := if i <? 0 then Z.of_nat (length l) + i else i in
  if j <? 0 then Raises IndexError
  else match l !! Z.to_nat j with
       | Some x => Returns x
       | None => Raises IndexError
       end.

(** [A[0::2]] and [A[1::2]] *)
Fixpoint evens {A : Type} (l : list A) : list A :=
  match l with
  | [] => []
  | x :: l' => x :: match l' with
                    | [] => []
                    | _ :: l'' => evens l''
                    end
  end.

Definition odds {A : Type} (l : list A) : list A := evens (tail l).

(** A loop that fills a list entry by entry and stops at the first
    entry that raises. *)
Fixpoint fill {A B : Type} (f : A → outcome B) (l : list A)
  : outcome (list B) :=
  match l with
  | [] => Returns []
  | a :: l' => b ← f a; bs ← fill f l'; mret (b :: bs)
  end.

(** [range(n)] *)
Definition range (n : Z) : list Z := Z.of_nat <$> seq 0 (Z.to_nat n).

(** [fft(n, A, omega, p)].  The recursion is on [n // 2]; [None] says
    that it was still running after [fuel] nested calls. *)
Fixpoint fft (fuel : nat) (n : Z) (A : list Z) (omega p : Z)
  : option (outcome (list Z)) :=
  if n =? 1 then Some (Returns A)
  else
    match fuel with
    | O => None
    | S fuel' =>
        let B := evens A in
        let C := odds A in
        match pow omega 2 p with
        | Raises e => Some (Raises e)
        | Returns omega2 =>
            match fft fuel' (n / 2) B omega2 p with
            | None => None
            | Some (Raises e) => Some (Raises e)
            | Some (Returns B_bar) =>
                match fft fuel' (n / 2) C omega2 p with
                | None => None
                | Some (Raises e) => Some (Raises e)
                | Some (Returns C_bar) =>
                    Some (fill (λ j,
                                  let k := j mod (n / 2) in
                                  b ← index B_bar k;
                                  w ← pow omega j p;
                                  c ← index C_bar k;
                                  mret ((b + (w * c) mod p) mod p))
                            (range n))
                end
            end
        end
    end.

(** [get_omega(p, n)].  [xs] are the numbers [random.randint(0, p-1)]
    returns in the successive attempts; [randint] raises [ValueError]
    on an empty range and [//] raises [ZeroDivisionError] when [n] is
    [0]. *)
Fixpoint get_omega (fuel : nat) (xs : nat → Z) (p n : Z)
  : option (outcome Z) :=
  if p - 1 <? 0 then Some (Raises ValueError)
  else if n =? 0 then Some (Raises ZeroDivisionError)
  else
    match pow (xs O) ((p - 1) / n) p with
    | Raises e => Some (Raises e)
    | Returns y =>
        if y =? 1 then
          match fuel with
          | O => None
          | S fuel' => get_omega fuel' (λ i, xs (S i)) p n
          end
        else
          match pow y n p with
          | Raises e => Some (Raises e)
          | Returns one =>
              if one =? 1 then Some (Returns y)
              else Some (Raises AssertionError)
          end
    end.

(** The inner loop of [test_correctness]: the value of the polynomial
    at [omega^i], accumulated modulo [p] over the coefficients that are
    not zero. *)
Definition evaluate (coefficients : list Z) (omega p i : Z) (n : Z)
  : outcome Z :=
  foldl (λ (acc : outcome Z) (k : Z),
           y ← acc;
           ck ← index coefficients k;
           if ck =? 0 then Returns y
           else w ← pow omega (i * k) p;
                mret ((y + (ck * w) mod p) mod p))
        (Returns 0) (range n).

(** [test_correctness(coefficients, omega, fft_result, p)], where
    [points] are the numbers drawn with [random.randint(0, n)]. *)
Definition test_correctness (coefficients : list Z) (omega : Z)
    (fft_result : list Z) (p : Z) (points : list Z) : outcome unit :=
  if negb (length coefficients =? length fft_result)%nat
  then Raises AssertionError
  else
    let n := Z.of_nat (length fft_result) in
    foldl (λ (acc : outcome unit) (i : Z),
             _ ← acc;
             y ← evaluate coefficients omega p i n;
             r ← index fft_result i;
             if y =? r then Returns tt else Raises AssertionError)
          (Returns tt) points.

(** The value of the polynomial with the coefficients [A] at
    [omega^j], as an integer. *)
Definition dft_sum (A : list Z) (omega : Z) (j : Z) : Z :=
  foldr Z.add 0 (imap (λ k a, a * omega ^ (j * Z.of_nat k)) A).
End FFT.

Example run_method_twice :
  run_pc 10 (Method Return (Method (Method Return Return) Return))
  = Some (Returned, [2]).
Proof. vm_compute. reflexivity. Qed.

Example run_method_raising :
  run_pc 10 (Try (Method (Method (Raise (UserError 7)) Return) Return) Return)
  = Some (Returned, [1]).
Proof. vm_compute. reflexivity. Qed.

Example run_callback_drift :
  run_pc 20
    (Method (Callback 0 (Method Return Return) Return)
       (Method Return (Method (Fire 0 Return) Return)))
  = Some (Returned, [3]).
Proof. vm_compute. reflexivity. Qed.

Lemma incr_last_snoc (l : list Z) (x : Z) :
  incr_last (l ++ [x]) = Ok (l ++ [x + 1]).
Proof.
  unfold incr_last. rewrite reverse_snoc. by rewrite reverse_involutive.
Qed.

Lemma pop_last_snoc (l : list Z) (x : Z) : pop_last (l ++ [x]) = Ok l.
Proof.
  unfold pop_last. rewrite reverse_snoc. by rewrite reverse_involutive.
Qed.

Lemma nonempty_snoc (l : list Z) : l ≠ [] → ∃ l0 x, l = l0 ++ [x].
Proof.
  destruct (reverse l) as [|x r] eqn:E.
  - intros Hl. apply (f_equal reverse) in E.
    rewrite reverse_involutive in E. by destruct Hl.
  - intros _. exists (reverse r), x.
    apply (f_equal reverse) in E. rewrite reverse_involutive in E.
    by rewrite E, reverse_cons.
Qed.

Lemma same_frame_refl (l : list Z) : l ≠ [] → same_frame l l.
Proof.
  intros (l0 & x & ->)%nonempty_snoc. exists l0, x, 0.
  split; [lia|]. split; [done|]. by rewrite Z.add_0_r.
Qed.

Lemma same_frame_trans (l1 l2 l3 : list Z) :
  same_frame l1 l2 → same_frame l2 l3 → same_frame l1 l3.
Proof.
  intros (l0 & x & j & Hj & -> & ->) (l0' & x' & j' & Hj' & E & ->).
  apply app_inj_tail in E as [<- <-].
  exists l0, x, (j + j'). split; [lia|]. split; [done|].
  by rewrite Z.add_assoc.
Qed.

Lemma pc_value_nonempty (self : Runtime) : wf self → pc_value self ≠ [].
Proof.
  intros [Hpc Hne _ _ _]. unfold pc_value.
  destruct (lookup_lt_is_Some_2 _ _ Hpc) as [l Hl]. rewrite Hl. simpl.
  rewrite Forall_forall in Hne. apply Hne. by eapply list_elem_of_lookup_2.
Qed.

Lemma frame_refl (self : Runtime) : wf self → frame self self.
Proof.
  intros Hwf. split; auto using same_frame_refl, pc_value_nonempty.
Qed.

Lemma frame_trans (s1 s2 s3 : Runtime) :
  frame s1 s2 → frame s2 s3 → frame s1 s3.
Proof.
  intros [P1 G1 V1 O1 S1] [P2 G2 V2 O2 S2]. split.
  - congruence.
  - lia.
  - eauto using same_frame_trans.
  - intros a Ha Hpc Hs.
    assert (a ∈ saved s3 → a ∈ saved s2) as H32.
    { intros H3. destruct (S2 a H3) as [|]; [done|lia]. }
    assert (a ∉ saved s1 → a ∉ saved s2) as H12.
    { intros H1 H2. destruct (S1 a H2) as [|]; [done|lia]. }
    rewrite O2, O1; [done|done|done| | lia | congruence | ].
    + destruct Hs; auto.
    + destruct Hs; auto.
  - intros a H3. destruct (S2 a H3) as [H2|]; [|right; lia].
    apply S1 in H2. done.
Qed.
Lemma pc_update_ok (f : list Z → result (list Z)) (self : Runtime) (l : list Z) :
  f (pc_value self) = Ok l → pc_update f self = Ok (set_pc_list l self).
Proof. unfold pc_update. by intros ->. Qed.

Lemma pc_value_set_pc_list (l : list Z) (self : Runtime) :
  wf self → pc_value (set_pc_list l self) = l.
Proof.
  intros [Hpc _ _ _ _]. unfold pc_value, set_pc_list. simpl.
  by rewrite list_lookup_insert_eq.
Qed.

Lemma wf_set_pc_list (l : list Z) (self : Runtime) :
  wf self → l ≠ [] → wf (set_pc_list l self).
Proof.
  intros [Hpc Hne Hnd Hb Hf] Hl. split; simpl; rewrite ?length_insert; auto.
  rewrite Forall_forall in *. intros y Hy.
  apply list_elem_of_lookup in Hy as [i Hi].
  destruct (decide (i = program_counter self)) as [->|Hi'].
  - rewrite list_lookup_insert_eq in Hi by done. congruence.
  - rewrite list_lookup_insert_ne in Hi by done.
    apply Hne. by eapply list_elem_of_lookup_2.
Qed.

Lemma increment_pc_spec (method : Runtime → option (outcome * Runtime))
    (self self' : Runtime) (out : outcome) :
  respects method → wf self →
  increment_pc method self = Some (out, self') →
  ∃ l0 x self2 self3,
    pc_value self = l0 ++ [x] ∧
    pc_value self2 = (l0 ++ [x + 1]) ++ [0] ∧
    method self2 = Some (out, self3) ∧
    program_counter self' = program_counter self ∧
    pc_value self' = l0 ++ [x + 1] ∧
    wf self' ∧ frame self self'.
Proof.
  intros Hm Hwf. unfold increment_pc.
  destruct (nonempty_snoc _ (pc_value_nonempty _ Hwf)) as (l0 & x & Hp).
  rewrite (pc_update_ok _ _ (l0 ++ [x + 1])) by (rewrite Hp; apply incr_last_snoc).
  set (self1 := set_pc_list (l0 ++ [x + 1]) self).
  assert (wf self1) as Hwf1 by (apply wf_set_pc_list; [done|by destruct l0]).
  assert (pc_value self1 = l0 ++ [x + 1]) as Hp1
    by (by apply pc_value_set_pc_list).
  rewrite (pc_update_ok _ _ ((l0 ++ [x + 1]) ++ [0])) by (by rewrite Hp1).
  set (self2 := set_pc_list ((l0 ++ [x + 1]) ++ [0]) self1).
  assert (wf self2) as Hwf2
    by (apply wf_set_pc_list; [done|by destruct (l0 ++ [x + 1])]).
  assert (pc_value self2 = (l0 ++ [x + 1]) ++ [0]) as Hp2
    by (by apply pc_value_set_pc_list).
  destruct (method self2) as [[o self3]|] eqn:Hrun; [|done].
  destruct (Hm _ _ _ Hwf2 Hrun) as [Hwf3 [P3 G3 V3 O3 S3]].
  destruct V3 as (l1 & y & j & Hj & E1 & E3). rewrite Hp2 in E1.
  apply app_inj_tail in E1 as [<- <-].
  unfold finally_pop.
  rewrite (pc_update_ok _ _ (l0 ++ [x + 1])) by (rewrite E3; apply pop_last_snoc).
  intros [= <- <-].
  set (self4 := set_pc_list (l0 ++ [x + 1]) self3).
  assert (wf self4) as Hwf4 by (apply wf_set_pc_list; [done|by destruct l0]).
  assert (pc_value self4 = l0 ++ [x + 1]) as Hp4
    by (by apply pc_value_set_pc_list).
  exists l0, x, self2, self3. split_and!; try done.
  split.
  - exact P3.
  - simpl. rewrite length_insert. simpl in G3.
    rewrite !length_insert in G3. done.
  - rewrite Hp, Hp4. exists l0, x, 1. split_and!; [lia|done|done].
  - intros a Ha Hpc Hs. simpl.
    rewrite list_lookup_insert_ne by (rewrite P3; done).
    rewrite O3; simpl; rewrite ?length_insert; try done.
    by rewrite !list_lookup_insert_ne by done.
  - intros a Ha. apply S3 in Ha. simpl in Ha.
    rewrite !length_insert in Ha. done.
Qed.

Lemma take_first_saved (d : nat) (q rest : list (nat * (nat * body)))
    (s : nat) (f : body) :
  take_first d q = Some ((s, f), rest) →
  ∃ q1 q2, q = q1 ++ (d, (s, f)) :: q2 ∧ rest = q1 ++ q2.
Proof.
  revert rest. induction q as [|[d' w] q IH]; intros rest; simpl; [done|].
  destruct (decide (d' = d)) as [->|Hd].
  - intros [= -> <-]. by exists [], q.
  - destruct (take_first d q) as [[w' r]|]; [|done].
    intros [= -> <-]. destruct (IH r eq_refl) as (q1 & q2 & -> & ->).
    by exists ((d', w) :: q1), q2.
Qed.

Lemma callback_wrapper_spec (saved_pc : nat)
    (func : Runtime → option (outcome * Runtime))
    (self self' : Runtime) (out : outcome) :
  respects func → wf self →
  (saved_pc < length (heap self))%nat →
  saved_pc ∉ saved self →
  callback_wrapper saved_pc func self = Some (out, self') →
  ∃ self2,
    func (with_pc saved_pc self) = Some (out, self2) ∧
    self' = with_pc (program_counter self) self2 ∧
    wf self' ∧
    (length (heap self) <= length (heap self'))%nat ∧
    (saved_pc ≠ program_counter self →
     heap self' !! program_counter self = heap self !! program_counter self) ∧
    (∀ a, (a < length (heap self))%nat → a ≠ program_counter self →
          a ≠ saved_pc → a ∉ saved self ∨ a ∈ saved self' →
          heap self' !! a = heap self !! a) ∧
    (∀ a, a ∈ saved self' → a ∈ saved self ∨ (length (heap self) <= a)%nat).
Proof.
  intros Hf Hwf Hlt Hfresh. unfold callback_wrapper.
  destruct (func (with_pc saved_pc self)) as [[o self2]|] eqn:Hrun; [|done].
  intros [= <- <-].
  assert (wf (with_pc saved_pc self)) as Hwf1.
  { destruct Hwf as [Hpc Hne Hnd Hb Hfr]. by split. }
  destruct (Hf _ _ _ Hwf1 Hrun) as [Hwf2 [P2 G2 V2 O2 S2]].
  simpl in *. exists self2. split_and!; try done.
  - destruct Hwf as [Hpc Hne Hnd Hb Hfr].
    destruct Hwf2 as [Hpc2 Hne2 Hnd2 Hb2 Hfr2].
    split; simpl; try done; [lia|].
    intros Hin. apply S2 in Hin as [|]; [done|lia].
  - intros Hne. apply O2; [by destruct Hwf|done|].
    left. by destruct Hwf.
  - intros a Ha Hpc Hs Hor. by apply O2.
Qed.

Lemma wf_flags (self : Runtime) (c r f : list nat) :
  wf self →
  wf (mkRuntime (heap self) (program_counter self) (pending self) c r f).
Proof. intros [? ? ? ? ?]. by split. Qed.

Lemma frame_flags (s self : Runtime) (c r f : list nat) :
  frame s self →
  frame s (mkRuntime (heap self) (program_counter self) (pending self) c r f).
Proof. intros [? ? ? ? ?]. by split. Qed.

Lemma wf_absorb (d : nat) (r : outcome * Runtime) :
  wf r.2 → wf (absorb d r).
Proof. destruct r as [[|e] s]; simpl; [done|]. apply wf_flags. Qed.

Lemma frame_absorb (d : nat) (s : Runtime) (r : outcome * Runtime) :
  frame s r.2 → frame s (absorb d r).
Proof. destruct r as [[|e] s']; simpl; [done|]. apply frame_flags. Qed.

Lemma save_pc_spec (self : Runtime) :
  wf self →
  wf (save_pc self).2 ∧ frame self (save_pc self).2 ∧
  (save_pc self).1 = length (heap self) ∧
  saved (save_pc self).2 = saved self ∧
  heap (save_pc self).2 = heap self ++ [pc_value self] ∧
  program_counter (save_pc self).2 = program_counter self.
Proof.
  intros Hwf. pose proof (pc_value_nonempty _ Hwf) as Hne.
  destruct Hwf as [Hpc Hnes Hnd Hb Hfr]. simpl.
  assert (pc_value (with_heap (heap self ++ [pc_value self]) self)
          = pc_value self) as Hv.
  { unfold pc_value at 1. simpl. by rewrite lookup_app_l. }
  split_and!; try done.
  - split; simpl; rewrite ?length_app; simpl; try done; [lia| |].
    + apply Forall_app. split; [done|]. by apply Forall_singleton.
    + eapply Forall_impl; [exact Hb|]. simpl. lia.
  - split; simpl; rewrite ?length_app; simpl; try done; [lia| | |tauto].
    + rewrite Hv. by apply same_frame_refl.
    + intros a Ha _ _. by rewrite lookup_app_l.
Qed.

Lemma wf_take_first (d s : nat) (f : body) (rest : list (nat * (nat * body)))
    (self : Runtime) :
  wf self → take_first d (pending self) = Some ((s, f), rest) →
  wf (with_pending rest self) ∧ (s ∉ saved (with_pending rest self)) ∧
  s ∈ saved self ∧ (s < length (heap self))%nat ∧
  s ≠ program_counter self ∧
  (∀ a, a ∈ saved (with_pending rest self) → a ∈ saved self).
Proof.
  intros [Hpc Hne Hnd Hb Hfr] (q1 & q2 & Hq & ->)%take_first_saved.
  assert (saved self = saved (with_pending q1 self) ++
                       s :: saved (with_pending q2 self)) as E1.
  { unfold saved. simpl. by rewrite Hq, fmap_app. }
  assert (saved (with_pending (q1 ++ q2) self)
          = saved (with_pending q1 self) ++ saved (with_pending q2 self)) as E2.
  { unfold saved. simpl. by rewrite fmap_app. }
  rewrite E2. rewrite E1 in *.
  set (l1 := saved (with_pending q1 self)) in *.
  set (l2 := saved (with_pending q2 self)) in *. clearbody l1 l2.
  apply NoDup_app in Hnd as (N1 & N2 & N3).
  apply NoDup_cons in N3 as [N3 N4].
  apply Forall_app in Hb as [B1 B2]. apply Forall_cons in B2 as [B2 B3].
  split_and!.
  - split; simpl; try done.
    + rewrite E2. apply NoDup_app. split_and!; try done. intros x Hx Hx'.
      apply (N2 x Hx). by right.
    + rewrite E2. by apply Forall_app.
    + rewrite E2. intros [Hin|Hin]%elem_of_app; apply Hfr, elem_of_app;
        [by left|right; by right].
  - intros [H1|H2]%elem_of_app; [|done]. apply (N2 s H1). by left.
  - apply elem_of_app. right. by left.
  - done.
  - intros ->. apply Hfr, elem_of_app. right. by left.
  - intros a [Hin|Hin]%elem_of_app; apply elem_of_app;
      [by left|right; by right].
Qed.

Lemma frame_take_first (rest : list (nat * (nat * body))) (self : Runtime) :
  wf self → (∀ a, a ∈ saved (with_pending rest self) → a ∈ saved self) →
  frame self (with_pending rest self).
Proof.
  intros Hwf Hsub. split; simpl; auto.
  all: try (apply (same_frame_refl (pc_value self)); by apply pc_value_nonempty).
Qed.

(** Running a wrapper whose saved list is not reachable from [base]
    otherwise leaves a frame relative to [base]. *)
Lemma wrapper_frame (base self self' : Runtime) (saved_pc : nat)
    (func : Runtime → option (outcome * Runtime)) (out : outcome) :
  respects func → wf self →
  (saved_pc < length (heap self))%nat →
  saved_pc ∉ saved self →
  saved_pc ≠ program_counter self →
  frame base self →
  saved_pc ∈ saved base ∨ (length (heap base) <= saved_pc)%nat →
  callback_wrapper saved_pc func self = Some (out, self') →
  wf self' ∧ frame base self'.
Proof.
  intros Hf Hwf Hlt Hfresh Hne [P1 G1 V1 O1 S1] Hbase E.
  apply callback_wrapper_spec in E
    as (s2 & _ & -> & W2 & G2 & V2 & O2 & S2); auto.
  split; [done|]. simpl in *.
  assert (∀ a, a ∈ saved s2 → (a < length (heap base))%nat → a ∈ saved self)
    as Hback.
  { intros a Ha Hlen. destruct (S2 a Ha); [done|lia]. }
  split; simpl.
  - done.
  - lia.
  - unfold pc_value in *. simpl. by rewrite V2.
  - intros a Ha Hpc Hor.
    assert (a ≠ saved_pc) as Hns.
    { intros ->. destruct Hbase as [Hb|Hb]; [|lia].
      destruct Hor as [|Hor]; [done|]. apply Hfresh. by apply Hback. }
    rewrite O2; [|lia|congruence|done|].
    + apply O1; [done|done|]. destruct Hor; auto.
    + destruct Hor as [Hor|Hor]; [|by right]. left. intros Hin.
      destruct (S1 a Hin); [done|lia].
  - intros a Ha. destruct (S2 a Ha) as [Hin|]; [|right; lia].
    by apply S1.
Qed.

Lemma callback_respects (run_func : Runtime → option (outcome * Runtime))
    (d : nat) (func : body) (s s' : Runtime) :
  respects run_func → wf s →
  callback run_func d func s = Some s' → wf s' ∧ frame s s'.
Proof.
  intros Hf Hwf. unfold callback.
  destruct (save_pc_spec s Hwf) as (W1 & F1 & _ & Hs & Hh & Hp).
  simpl in W1, F1, Hs, Hh, Hp. simpl.
  set (s1 := with_heap (heap s ++ [pc_value s]) s) in *.
  assert (length (heap s) ∉ saved s) as Hfresh.
  { destruct Hwf as [_ _ _ Hb _]. rewrite Forall_forall in Hb.
    intros Hin%Hb. lia. }
  case_bool_decide.
  - case_bool_decide.
    + by intros [= <-].
    + destruct (callback_wrapper (length (heap s)) run_func s1)
        as [[o2 s2]|] eqn:E; [|done].
      eapply (wrapper_frame s) in E as [W2 F2]; auto.
      * intros [= <-].
        split; [by apply (wf_absorb d (o2, s2))|by apply (frame_absorb d s (o2, s2))].
      * unfold s1. simpl. rewrite length_app. simpl. lia.
      * simpl. destruct Hwf as [Hpc _ _ _ _]. lia.
  - intros [= <-].
    set (s2 := with_pending _ s1).
    assert (saved s2 = saved s ++ [length (heap s)]) as Hs2.
    { unfold saved. simpl. by rewrite fmap_app. }
    split.
    + destruct W1 as [Hpc1 Hne1 Hnd1 Hb1 Hfr1].
      destruct Hwf as [Hpc Hne Hnd Hb Hfr].
      split; simpl; try done; fold s2; rewrite ?Hs2.
      * apply NoDup_app. split_and!; [done| |apply NoDup_singleton].
        intros x Hx ->%list_elem_of_singleton. done.
      * apply Forall_app. split.
        -- eapply Forall_impl; [exact Hb|]. simpl. intros.
           rewrite length_app. simpl. lia.
        -- apply Forall_singleton. rewrite length_app. simpl. lia.
      * intros [Hin|Heq%list_elem_of_singleton]%elem_of_app; [done|lia].
    + destruct F1 as [P1 G1 V1 O1 S1]. split; simpl; try done.
      * intros a Ha Hpc Hor. by rewrite lookup_app_l.
      * fold s2. rewrite Hs2.
        intros a [Hin| ->%list_elem_of_singleton]%elem_of_app; auto.
Qed.

Lemma run_respects (fuel : nat) (b : body) : respects (run fuel b).
Proof.
  revert b. induction fuel as [|fuel IH]; intros b s o s' Hwf; [done|].
  destruct b as [|e|m k|b1 k|d func k|d k|d k]; simpl.
  - intros [= <- <-]. auto using frame_refl.
  - intros [= <- <-]. auto using frame_refl.
  - destruct (increment_pc (run fuel m) s) as [[[|e] s1]|] eqn:E; [| |done].
    + apply increment_pc_spec in E as (?&?&?&?&?&?&?&?&?&W1&F1); auto.
      intros Hk. destruct (IH _ _ _ _ W1 Hk) as [W2 F2].
      eauto using frame_trans.
    + apply increment_pc_spec in E as (?&?&?&?&?&?&?&?&?&W1&F1); auto.
      by intros [= <- <-].
  - destruct (run fuel b1 s) as [[o1 s1]|] eqn:E; [|done].
    destruct (IH _ _ _ _ Hwf E) as [W1 F1].
    intros Hk. destruct (IH _ _ _ _ W1 Hk) as [W2 F2].
    eauto using frame_trans.
  - destruct (callback (run fuel func) d func s) as [s1|] eqn:E; [|done].
    apply callback_respects in E as [W1 F1]; auto.
    intros Hk. destruct (IH _ _ _ _ W1 Hk) as [W2 F2].
    eauto using frame_trans.
  - case_bool_decide.
    + intros [= <- <-]. auto using frame_refl.
    + intros Hk.
      destruct (IH _ _ _ _ (wf_flags s _ _ _ Hwf) Hk) as [W1 F1].
      split; [done|]. eapply frame_trans; [|exact F1].
      apply frame_flags. by apply frame_refl.
  - destruct (take_first d (pending s)) as [[[saved_pc func] rest]|] eqn:Et.
    + destruct (wf_take_first _ _ _ _ _ Hwf Et)
        as (W1 & Hfresh & Hin & Hlt & Hne & Hsub).
      pose proof (frame_take_first rest s Hwf Hsub) as F1.
      case_bool_decide.
      * intros Hk. destruct (IH _ _ _ _ W1 Hk) as [W2 F2].
        eauto using frame_trans.
      * destruct (callback_wrapper saved_pc (run fuel func)
                    (with_pending rest s)) as [[o2 s2]|] eqn:E; [|done].
        eapply (wrapper_frame s) in E as [W2 F2]; auto.
        intros Hk.
        destruct (IH _ _ _ _ (wf_absorb d (o2, s2) W2) Hk) as [W3 F3].
        split; [done|]. eapply frame_trans; [|exact F3].
        by apply frame_absorb.
    + intros Hk.
      destruct (IH _ _ _ _ (wf_flags s _ _ _ Hwf) Hk) as [W1 F1].
      split; [done|]. eapply frame_trans; [|exact F1].
      apply frame_flags. by apply frame_refl.
Qed.

Lemma wf_init : wf Runtime_init.
Proof.
  split; simpl.
  - lia.
  - by apply Forall_singleton.
  - apply NoDup_nil_2.
  - apply Forall_nil_2.
  - apply not_elem_of_nil.
Qed.

(** *** [run] terminates *)

Lemma weight_app (q1 q2 : list (nat * (nat * body))) :
  weight (q1 ++ q2) = (weight q1 + weight q2)%nat.
Proof.
  induction q1 as [|[d [s f]] q1 IH]; simpl; [done|]. rewrite IH. lia.
Qed.

Lemma weight_take_first (d s : nat) (f : body)
    (q rest : list (nat * (nat * body))) :
  take_first d q = Some ((s, f), rest) →
  weight q = S (size f + weight rest).
Proof.
  intros (q1 & q2 & -> & ->)%take_first_saved.
  rewrite !weight_app. simpl. lia.
Qed.

Lemma size_pos (b : body) : (1 <= size b)%nat.
Proof. destruct b; simpl; lia. Qed.

Lemma finally_pop_pending (out : outcome) (self : Runtime) :
  pending (finally_pop out self).2 = pending self.
Proof.
  unfold finally_pop, pc_update.
  by destruct (pop_last (pc_value self)).
Qed.

Lemma increment_pc_weight (method : Runtime → option (outcome * Runtime))
    (n : nat) (self : Runtime) (r : outcome * Runtime) :
  (∀ s r', method s = Some r' →
           (weight (pending r'.2) <= weight (pending s) + n)%nat) →
  increment_pc method self = Some r →
  (weight (pending r.2) <= weight (pending self) + n)%nat.
Proof.
  intros Hm. unfold increment_pc, pc_update.
  destruct (incr_last (pc_value self)) as [l|e]; simpl.
  - destruct (method _) as [[o s3]|] eqn:E; [|done].
    intros [= <-]. rewrite finally_pop_pending.
    apply Hm in E. simpl in E. done.
  - intros [= <-]. rewrite finally_pop_pending. lia.
Qed.

Lemma callback_wrapper_weight (saved_pc : nat)
    (func : Runtime → option (outcome * Runtime)) (n : nat)
    (self : Runtime) (r : outcome * Runtime) :
  (∀ s r', func s = Some r' →
           (weight (pending r'.2) <= weight (pending s) + n)%nat) →
  callback_wrapper saved_pc func self = Some r →
  (weight (pending r.2) <= weight (pending self) + n)%nat.
Proof.
  intros Hf. unfold callback_wrapper.
  destruct (func _) as [[o s2]|] eqn:E; [|done].
  intros [= <-]. apply Hf in E. done.
Qed.

Lemma absorb_pending (d : nat) (r : outcome * Runtime) :
  pending (absorb d r) = pending r.2.
Proof. by destruct r as [[|e] s]. Qed.

Lemma callback_weight (run_func : Runtime → option (outcome * Runtime))
    (n d : nat) (func : body) (s s1 : Runtime) :
  (∀ s r', run_func s = Some r' →
           (weight (pending r'.2) <= weight (pending s) + n)%nat) →
  (n <= size func)%nat →
  callback run_func d func s = Some s1 →
  (weight (pending s1) <= weight (pending s) + S (size func))%nat.
Proof.
  intros Hf Hn. unfold callback. simpl. repeat case_bool_decide.
  - intros [= <-]. simpl. lia.
  - destruct (callback_wrapper _ _ _) as [r1|] eqn:E; [|done].
    apply (callback_wrapper_weight _ _ n) in E; [|done].
    intros [= <-]. rewrite absorb_pending. simpl in E. lia.
  - intros [= <-]. simpl. rewrite weight_app. simpl. lia.
Qed.

Lemma run_weight (fuel : nat) (b : body) (s : Runtime)
    (r : outcome * Runtime) :
  run fuel b s = Some r →
  (weight (pending r.2) <= weight (pending s) + size b)%nat.
Proof.
  revert b s r. induction fuel as [|fuel IH]; intros b s r; [done|].
  destruct b as [|e|m k|b1 k|d func k|d k|d k]; simpl.
  - intros [= <-]. simpl. lia.
  - intros [= <-]. simpl. lia.
  - destruct (increment_pc (run fuel m) s) as [[o s1]|] eqn:E; [|done].
    apply (increment_pc_weight _ (size m)) in E; [|by intros; apply IH].
    simpl in E. destruct o.
    + intros Hk%IH. lia.
    + intros [= <-]. simpl. lia.
  - destruct (run fuel b1 s) as [[o s1]|] eqn:E; [|done].
    apply IH in E. simpl in E. intros Hk%IH. lia.
  - destruct (callback (run fuel func) d func s) as [s1|] eqn:E; [|done].
    apply (callback_weight _ (size func)) in E;
      [|by intros; apply IH|done].
    intros Hk%IH. lia.
  - case_bool_decide.
    + intros [= <-]. simpl. lia.
    + intros Hk%IH. simpl in Hk. lia.
  - destruct (take_first d (pending s)) as [[[saved_pc func] rest]|] eqn:Et.
    + apply weight_take_first in Et. case_bool_decide.
      * intros Hk%IH. simpl in Hk. lia.
      * destruct (callback_wrapper _ _ _) as [r1|] eqn:E; [|done].
        apply (callback_wrapper_weight _ _ (size func)) in E;
          [|by intros; apply IH].
        simpl in E. intros Hk%IH. rewrite absorb_pending in Hk.
        simpl in Hk. lia.
    + intros Hk%IH. simpl in Hk. lia.
Qed.

(** A budget of the size of the body plus the weight of the waiting
    continuations is enough. *)
Lemma run_total (fuel : nat) (b : body) (s : Runtime) :
  (size b + weight (pending s) <= fuel)%nat →
  ∃ r, run fuel b s = Some r.
Proof.
  revert b s. induction fuel as [|fuel IH]; intros b s Hfuel.
  - pose proof (size_pos b). lia.
  - destruct b as [|e|m k|b1 k|d func k|d k|d k]; simpl in *.
    + by eexists.
    + by eexists.
    + unfold increment_pc, pc_update.
      destruct (incr_last (pc_value s)) as [l|e]; simpl.
      2:{ unfold finally_pop, pc_update.
          destruct (pop_last (pc_value s)); simpl; by eexists. }
      match goal with |- context [run fuel m ?s2] =>
        destruct (IH m s2) as [[o s3] E]; [simpl; lia|] end.
      rewrite E. pose proof (run_weight _ _ _ _ E) as Hw. simpl in Hw.
      destruct (finally_pop o s3) as [o' s4] eqn:Ef.
      assert (pending s4 = pending s3) as Hp
        by (by rewrite <- (finally_pop_pending o s3), Ef).
      destruct o'; [|by eexists]. apply IH. rewrite Hp. lia.
    + destruct (IH b1 s) as [[o s1] E]; [lia|]. rewrite E.
      pose proof (run_weight _ _ _ _ E) as Hw. simpl in Hw.
      apply IH. lia.
    + assert (∃ s1, callback (run fuel func) d func s = Some s1) as [s1 E].
      { unfold callback. simpl. repeat case_bool_decide; try by eexists.
        unfold callback_wrapper.
        match goal with |- context [run fuel func ?s2] =>
          destruct (IH func s2) as [[o s3] E]; [simpl; lia|] end.
        rewrite E. by eexists. }
      rewrite E. apply (callback_weight _ (size func)) in E;
        [|by intros; eapply run_weight|done].
      apply IH. lia.
    + case_bool_decide; [by eexists|]. apply IH. simpl. lia.
    + destruct (take_first d (pending s)) as [[[saved_pc func] rest]|] eqn:Et.
      * apply weight_take_first in Et. case_bool_decide.
        -- apply IH. simpl. lia.
        -- unfold callback_wrapper.
           match goal with |- context [run fuel func ?s2] =>
             destruct (IH func s2) as [[o s3] E]; [simpl; lia|] end.
           rewrite E. pose proof (run_weight _ _ _ _ E) as Hw. simpl in Hw.
           apply IH. rewrite absorb_pending. simpl. lia.
      * apply IH. simpl. lia.
Qed.

Lemma increment_pc_total (m : body) (self : Runtime) :
  ∃ fuel r, increment_pc (run fuel m) self = Some r.
Proof.
  unfold increment_pc, pc_update.
  destruct (incr_last (pc_value self)) as [l|e]; simpl.
  - match goal with |- context [run _ m ?s2] =>
      destruct (run_total _ m s2 (Nat.le_refl _)) as [[o s3] E] end.
    eexists _, _. by rewrite E.
  - by exists O, (finally_pop (Raised e) self).
Qed.

(** *** Drift keeps the snapshots *)

Lemma frame_keeps (s s' : Runtime) : wf s → frame s s' → keeps s s'.
Proof.
  intros [Hpc _ _ _ Hfr] [P G V O S]. split; [done|].
  intros a Ha Hlt. destruct (S a Ha) as [Hin|]; [|lia].
  split; [done|]. apply O; [done| |by right]. by intros ->.
Qed.

Lemma keeps_trans (s1 s2 s3 : Runtime) :
  keeps s1 s2 → keeps s2 s3 → keeps s1 s3.
Proof.
  intros [G1 K1] [G2 K2]. split; [lia|].
  intros a Ha Hlt. destruct (K2 a Ha ltac:(lia)) as [Hin2 E2].
  destruct (K1 a Hin2 Hlt) as [Hin1 E1]. split; [done|congruence].
Qed.

Lemma drifts_keeps (s s' : Runtime) :
  drifts s s' → wf s → wf s' ∧ keeps s s'.
Proof.
  induction 1 as [s|s s' s'' fuel b o Hrun _ IH|s s' s'' Hlen Hpop _ IH
                  |s s'' a Ha Hfresh _ IH|s s'' d _ IH]; intros Hwf.
  - split; [done|]. split; [done|]. by intros a Ha _.
  - destruct (run_respects _ _ _ _ _ Hwf Hrun) as [W1 F1].
    destruct (IH W1) as [W2 K2]. split; [done|].
    eapply keeps_trans; [|exact K2]. by apply frame_keeps.
  - unfold pc_update in Hpop.
    destruct (nonempty_snoc _ (pc_value_nonempty _ Hwf)) as (l0 & x & Hp).
    rewrite Hp, pop_last_snoc in Hpop. simpl in Hpop. injection Hpop as <-.
    rewrite Hp, length_app in Hlen. simpl in Hlen.
    assert (wf (set_pc_list l0 s)) as W1
      by (apply wf_set_pc_list; [done|destruct l0; [simpl in Hlen; lia|done]]).
    destruct (IH W1) as [W2 K2]. split; [done|].
    eapply keeps_trans; [|exact K2].
    split; [simpl; by rewrite length_insert|].
    intros a Hin Hlt. split; [done|]. simpl.
    apply list_lookup_insert_ne. intros <-. by destruct Hwf.
  - assert (wf (with_pc a s)) as W1 by (destruct Hwf; by split).
    destruct (IH W1) as [W2 K2]. split; [done|].
    eapply keeps_trans; [|exact K2]. split; [done|]. by intros b Hb _.
  - destruct (IH (wf_flags s _ _ _ Hwf)) as [W2 K2]. split; [done|].
    eapply keeps_trans; [|exact K2]. split; [done|]. by intros b Hb _.
Qed.

Lemma reachable_wf (fuel : nat) (b : body) (o : outcome) (s : Runtime) :
  run fuel b Runtime_init = Some (o, s) → wf s.
Proof.
  intros Hrun. by destruct (run_respects _ _ _ _ _ wf_init Hrun).
Qed.


Lemma take_first_elem (d s : nat) (f : body)
    (rest q : list (nat * (nat * body))) :
  take_first d q = Some ((s, f), rest) → (d, (s, f)) ∈ q.
Proof.
  intros (q1 & q2 & -> & _)%take_first_saved.
  apply elem_of_app. right. by left.
Qed.



Example gather_out_of_order :
  (self ← gather_shares [None; Some (true, 5); None];
   mret (gathered (foldl fire self [(2%nat, (true, 7)); (0%nat, (true, 3))])))
  = Ok (Some (Ok [3; 5; 7])).
Proof. vm_compute. reflexivity. Qed.

Example gather_not_yet :
  (self ← gather_shares [None; Some (true, 5); None];
   mret (gathered (foldl fire self [(2%nat, (true, 7))])))
  = Ok None.
Proof. vm_compute. reflexivity. Qed.

Section ShareListProofs.
Context {V : Type}.
Implicit Types (cur shares : list (option (bool * V))).
Implicit Types (evs : list (nat * (bool * V))).

Lemma unresolved_insert cur (i : nat) (x : bool * V) :
  cur !! i = Some None →
  S (unresolved (<[i := Some x]> cur)) = unresolved cur.
Proof.
  revert i. induction cur as [|[y|] cur IH]; intros [|i]; simpl; try done.
  - apply IH.
  - intros H. by rewrite IH.
Qed.

Lemma unresolved_replicate (k : nat) :
  unresolved (replicate k (@None (bool * V))) = k.
Proof. induction k; simpl; auto. Qed.

Lemma unresolved_app cur1 cur2 :
  unresolved (cur1 ++ cur2) = (unresolved cur1 + unresolved cur2)%nat.
Proof. induction cur1 as [|[y|] cur1 IH]; simpl; auto. Qed.

Lemma unresolved_zero cur :
  unresolved cur = O ↔ ∀ i, (i < length cur)%nat → ∃ x, cur !! i = Some (Some x).
Proof.
  induction cur as [|[y|] cur IH]; simpl.
  - split; [intros _ i Hi; lia|done].
  - rewrite IH. split.
    + intros H [|i] Hi; simpl; [by eexists|]. apply H. lia.
    + intros H i Hi. apply (H (S i)). lia.
  - split; [done|]. intros H. destruct (H O) as [x Hx]; [lia|done].
Qed.

Lemma tracks_fired (flt : bool) (self : ShareList V) cur (i : nat) (s : bool)
    (v : V) :
  tracks flt self cur → cur !! i = Some None →
  tracks flt (_callback_fired self v i s) (<[i := Some (s, v)]> cur).
Proof.
  intros (Hr & Hm & Hf & Hc & _) Hi.
  pose proof (unresolved_insert cur i (s, v) Hi) as Hu.
  destruct Hc as [Hc1 Hc2]; [lia|].
  unfold _callback_fired, tracks. rewrite Hc1, Hm, Hr, Hf. simpl.
  destruct (Z.eqb_spec (Z.of_nat (unresolved cur) - 1) 0) as [E|E]; simpl.
  - split_and!; [done|lia|done|lia|done].
  - split_and!; [done|lia|done|done|lia].
Qed.

Lemma tracks_init_loop (flt : bool) (self : ShareList V)
    (pre l : list (option (bool * V))) :
  tracks flt self (pre ++ replicate (length l) None) →
  tracks flt (foldl add_share self (imap (λ i, pair (length pre + i)%nat) l))
         (pre ++ l).
Proof.
  revert self pre. induction l as [|x l IH]; intros self pre H; simpl.
  - done.
  - simpl in H.
    assert (tracks flt (add_share self ((length pre + 0)%nat, x))
              (pre ++ x :: replicate (length l) None)) as H'.
    { destruct x as [[s v]|]; simpl; [|done].
      replace (pre ++ Some (s, v) :: replicate (length l) None)
        with (<[(length pre + 0)%nat := Some (s, v)]>
                (pre ++ None :: replicate (length l) None)).
      - apply tracks_fired; [done|].
        rewrite lookup_app_r by lia. by replace (_ - _)%nat with O by lia.
      - rewrite insert_app_r. done. }
    specialize (IH (add_share self ((length pre + 0)%nat, x)) (pre ++ [x])).
    rewrite <- !(assoc_L (++)) in IH. simpl in IH.
    specialize (IH H').
    erewrite imap_ext; [exact IH|].
    intros i y _. simpl. rewrite length_app. simpl. f_equal. lia.
Qed.

Lemma tracks_init_list shares (t : option Z) :
  shares ≠ [] →
  match t with None => True | Some t => t = Z.of_nat (length shares) end →
  ∃ self, ShareList_init shares t = Ok self ∧ tracks false self shares.
Proof.
  intros Hne Ht. unfold ShareList_init.
  assert ((0 <? Z.of_nat (length shares)) = true) as Hpos.
  { destruct shares; [done|]. simpl. apply Z.ltb_lt. lia. }
  rewrite Hpos. cbn [py_assert mbind result_bind].
  assert (match t with
          | None => true
          | Some t => (0 <? t) && (t <=? Z.of_nat (length shares))
          end = true) as ->.
  { destruct t as [t|]; [|done]. subst t. rewrite Hpos. simpl.
    apply Z.leb_le. lia. }
  cbn [py_assert mbind result_bind mret result_ret].
  eexists. split; [done|].
  apply (tracks_init_loop false _ [] shares). simpl.
  split_and!; simpl; try done.
  - rewrite unresolved_replicate. by destruct t as [t|]; [subst t|].
  - rewrite unresolved_replicate. destruct shares; simpl; [done|lia].
Qed.

Lemma tracks_init shares :
  shares ≠ [] →
  ∃ self, gather_shares shares = Ok self ∧ tracks true self shares.
Proof.
  intros Hne. unfold gather_shares.
  destruct (tracks_init_list shares None Hne I)
    as (self & -> & Hr & Hm & Hf & Hc1 & Hc2).
  cbn [mbind result_bind mret result_ret]. eexists. split; [done|].
  unfold tracks. simpl. split_and!; [done|done|done| |].
  - intros Hu. destruct (Hc1 Hu) as [-> _]. done.
  - intros Hu. destruct (Hc2 Hu) as [-> _]. by rewrite Hr.
Qed.

Lemma tracks_events (flt : bool) (self : ShareList V) cur evs :
  tracks flt self cur → NoDup evs.*1 →
  (∀ i x, (i, x) ∈ evs → cur !! i = Some None) →
  ∃ cur', tracks flt (foldl fire self evs) cur' ∧ length cur' = length cur ∧
    ∀ i, cur' !! i = match assoc i evs with
                     | Some x => Some (Some x)
                     | None => cur !! i
                     end.
Proof.
  revert self cur. induction evs as [|[j [s v]] evs IH]; intros self cur H Hnd Hp.
  - exists cur. by split_and!.
  - simpl in *. apply NoDup_cons in Hnd as [Hj Hnd].
    assert (cur !! j = Some None) as Hcj by (apply (Hp j (s, v)); by left).
    destruct (IH (fire self (j, (s, v))) (<[j := Some (s, v)]> cur))
      as (cur' & Ht & Hl & Hlook); [by apply tracks_fired|done| |].
    { intros i x Hin.
      assert (i ≠ j) as Hij.
      { intros ->. apply Hj. apply list_elem_of_fmap.
        by exists (j, x). }
      rewrite list_lookup_insert_ne by done. apply (Hp i x). by right. }
    exists cur'. split_and!; [done|by rewrite Hl, length_insert|].
    intros i. rewrite Hlook. destruct (decide (j = i)) as [->|Hij].
    + assert (assoc i evs = None) as ->.
      { clear -Hj. induction evs as [|[k y] evs IH]; simpl; [done|].
        destruct (decide (k = i)) as [->|]; [|apply IH].
        - exfalso. apply Hj. simpl. by left.
        - intros Hin. apply Hj. simpl. by right. }
      apply list_lookup_insert_eq. by eapply lookup_lt_Some.
    + destruct (assoc i evs); [done|]. by apply list_lookup_insert_ne.
Qed.

Lemma filter_results_resolved cur :
  unresolved cur = O →
  ∃ vs, filter_results cur = Ok vs ∧ length vs = length cur ∧
    ∀ i, vs !! i = (λ r, snd <$> r) (mjoin (cur !! i)).
Proof.
  induction cur as [|[[s v]|] cur IH]; simpl; intros Hu.
  - exists []. by split_and!.
  - destruct (IH Hu) as (vs & -> & Hl & Hlook). exists (v :: vs).
    split_and!; [done|simpl; by rewrite Hl|]. intros [|i]; simpl; [done|].
    apply Hlook.
  - done.
Qed.

Lemma assoc_Permutation evs evs' (i : nat) :
  NoDup evs.*1 → evs ≡ₚ evs' → assoc i evs = assoc i evs'.
Proof.
  intros Hnd Hperm. induction Hperm as [|[j x] l l' Hp IH|[j x] [k y] l|l1 l2 l3 H12 IH12 H23 IH23].
  - done.
  - simpl. apply NoDup_cons in Hnd as [_ Hnd]. rewrite IH; done.
  - simpl in *. apply NoDup_cons in Hnd as [Hk _].
    destruct (decide (j = i)) as [->|], (decide (k = i)) as [->|]; try done.
    exfalso. apply Hk. by left.
  - rewrite IH12 by done. apply IH23. by rewrite <- H12.
Qed.
End ShareListProofs.

Lemma tracks_result {V : Type} (self : ShareList V)
    (cur : list (option (bool * V))) :
  tracks true self cur →
  gathered self
  = if decide (unresolved cur = O) then Some (filter_results cur) else None.
Proof.
  intros (_ & _ & _ & H1 & H2). unfold gathered.
  case_decide; [by apply H2|by apply H1].
Qed.

(** C10.  [gather_shares] on a non-empty list: whatever the order in
    which the pending shares fire, the gathered share has resolved
    exactly when every input share has, and its value lists the results
    of the inputs in input-list order; [ShareList] rejects an empty list
    and a threshold outside [1..k] with an assertion failure. *)
Theorem gather_shares_in_order {V : Type}
    (shares : list (option (bool * V))) (evs : list (nat * (bool * V))) :
  shares ≠ [] → NoDup evs.*1 →
  (∀ i x, (i, x) ∈ evs → shares !! i = Some None) →
  ∃ self0, gather_shares shares = Ok self0 ∧
    (sl_called (foldl fire self0 evs) = true ↔
     ∀ i, (i < length shares)%nat → is_Some (resolution shares evs i)) ∧
    ((∃ i, (i < length shares)%nat ∧ resolution shares evs i = None) →
     gathered (foldl fire self0 evs) = None) ∧
    ((∀ i, (i < length shares)%nat → is_Some (resolution shares evs i)) →
     ∃ vs, gathered (foldl fire self0 evs) = Some (Ok vs) ∧
       length vs = length shares ∧
       ∀ i, (i < length shares)%nat →
            vs !! i = snd <$> resolution shares evs i) ∧
    (∀ evs', evs ≡ₚ evs' →
       gathered (foldl fire self0 evs') = gathered (foldl fire self0 evs)) ∧
    (∀ threshold,
       ShareList_init (@nil (option (bool * V))) threshold
       = Err (AssertionError "Cannot create empty ShareList")) ∧
    (∀ t, t <= 0 ∨ Z.of_nat (length shares) < t →
       ShareList_init shares (Some t)
       = Err (AssertionError "Threshold out of range")).
Proof.
  intros Hne Hnd Hp.
  destruct (tracks_init shares Hne) as (self0 & Hg & Ht0).
  exists self0. split; [done|].
  destruct (tracks_events true self0 shares evs Ht0 Hnd Hp)
    as (cur & Ht & Hlen & Hlook).
  assert (∀ i, (i < length shares)%nat →
               cur !! i = Some (resolution shares evs i)) as Hres.
  { intros i Hi. rewrite Hlook. unfold resolution.
    destruct (assoc i evs) as [x|] eqn:Ea.
    - assert ((i, x) ∈ evs) as Hin.
      { clear -Ea. induction evs as [|[j y] evs IH]; simpl in *; [done|].
        destruct (decide (j = i)) as [->|].
        - injection Ea as ->. by left.
        - right. by apply IH. }
      by rewrite (Hp i x Hin).
    - destruct (lookup_lt_is_Some_2 _ _ Hi) as [[y|] ->]; done. }
  assert (unresolved cur = O ↔
          ∀ i, (i < length shares)%nat → is_Some (resolution shares evs i))
    as Hall.
  { rewrite unresolved_zero, Hlen. split.
    - intros H i Hi. destruct (H i Hi) as [x Hx].
      rewrite Hres in Hx by done. injection Hx as ->. by eexists.
    - intros H i Hi. destruct (H i Hi) as [x Hx].
      exists x. by rewrite Hres, Hx. }
  pose proof (tracks_result _ _ Ht) as Hr.
  destruct Ht as (_ & _ & _ & Hc1 & Hc2).
  split_and!.
  - rewrite <- Hall. split.
    + intros Hc. destruct (decide (unresolved cur = O)) as [|Hn]; [done|].
      destruct (Hc1 Hn) as [Hf _]. congruence.
    + intros Hu. by apply Hc2.
  - intros (i & Hi & Hnone). rewrite Hr.
    case_decide as Hu; [|done].
    rewrite Hall in Hu. destruct (Hu i Hi) as [x Hx]. congruence.
  - intros Hu. apply Hall in Hu. rewrite Hr.
    rewrite decide_True by done.
    destruct (filter_results_resolved cur Hu) as (vs & -> & Hl & Hv).
    exists vs. split_and!; [done|congruence|].
    intros i Hi. by rewrite Hv, Hres.
  - intros evs' Hperm.
    assert (NoDup evs'.*1) as Hnd' by (by rewrite <- Hperm).
    assert (∀ i x, (i, x) ∈ evs' → shares !! i = Some None) as Hp'.
    { intros i x Hin. apply (Hp i x). by rewrite Hperm. }
    destruct (tracks_events true self0 shares evs' Ht0 Hnd' Hp')
      as (cur2 & Ht2 & Hlen2 & Hlook2).
    assert (cur2 = cur) as ->.
    { apply list_eq. intros i. rewrite Hlook, Hlook2.
      by rewrite (assoc_Permutation evs evs' i Hnd Hperm). }
    by rewrite Hr, (tracks_result _ _ Ht2).
  - done.
  - intros t Ht. unfold ShareList_init.
    assert ((0 <? Z.of_nat (length shares)) = true) as ->.
    { destruct shares; [done|]. simpl. apply Z.ltb_lt. lia. }
    simpl.
    assert (((0 <? t) && (t <=? Z.of_nat (length shares))) = false) as ->; [|done].
    apply andb_false_iff. destruct Ht; [left; lia|right; lia].
Qed.

Lemma gather_shares_in_order_witness :
  ∃ self0, gather_shares [None; Some (true, 5); None] = Ok self0 ∧
    ∃ vs, gathered (foldl fire self0 [(2%nat, (true, 7)); (0%nat, (true, 3))])
          = Some (Ok vs) ∧ vs = [3; 5; 7].
Proof.
  destruct (gather_shares_in_order [None; Some (true, 5); None]
              [(2%nat, (true, 7)); (0%nat, (true, 3))])
    as (self0 & Hg & _ & _ & Hall & _).
  - done.
  - simpl. apply NoDup_cons. split; [|apply NoDup_singleton].
    apply not_elem_of_cons. split; [lia|apply not_elem_of_nil].
  - intros i x Hin. apply elem_of_cons in Hin as [[= -> _]|Hin]; [done|].
    apply list_elem_of_singleton in Hin as [= -> _]. done.
  - exists self0. split; [done|].
    destruct Hall as (vs & Hv & Hl & Hlook).
    + intros [|[|[|i]]] Hi; simpl in *; try lia; by eexists.
    + exists vs. split; [done|].
      destruct vs as [|a [|b [|c [|? ?]]]]; try done.
      pose proof (Hlook 0%nat ltac:(simpl; lia)) as H0.
      pose proof (Hlook 1%nat ltac:(simpl; lia)) as H1.
      pose proof (Hlook 2%nat ltac:(simpl; lia)) as H2.
      vm_compute in H0, H1, H2. congruence.
Defined.

Example recombine_42 :
  _recombine (F := GFp 2039) shamir_recombine
    [Some (field 1, field 49); Some (field 2, field 56); None] 1
  = Ok (Some (field 42)).
Proof. vm_compute. reflexivity. Qed.

Lemma slice_to_nonneg {A : Type} (l : list A) (stop : Z) :
  0 <= stop → slice_to l stop = take (Z.to_nat stop) l.
Proof.
  intros Hs. unfold slice_to.
  by destruct (Z.ltb_spec stop 0); [lia|].
Qed.

Lemma gatherResults_fired {A : Type} (points : list A) :
  gatherResults (Some <$> points) = Some points.
Proof.
  induction points as [|x points IH]; [done|].
  rewrite fmap_cons. cbn [gatherResults]. by rewrite IH.
Qed.

Lemma gatherResults_pending {A : Type} (ds : list (option A)) :
  None ∈ ds → gatherResults ds = None.
Proof.
  induction ds as [|[x|] ds IH]; intros Hin.
  - by apply elem_of_nil in Hin.
  - apply elem_of_cons in Hin as [|Hin]; [done|]. simpl. by rewrite IH.
  - done.
Qed.

(** What [_recombine] does with the slice [shares[:threshold+1]] once
    the assertion has passed. *)
Lemma recombine_slice {F : Type} `{FieldElement F}
    (recombine : list (F * F) → F) (shares : list (option (F * F)))
    (threshold : Z) :
  threshold < Z.of_nat (length shares) →
  (∀ points, slice_to shares (threshold + 1) = Some <$> points →
     _recombine recombine shares threshold = Ok (Some (recombine points))) ∧
  (None ∈ slice_to shares (threshold + 1) →
   _recombine recombine shares threshold = Ok None).
Proof.
  intros Hlen. unfold _recombine.
  destruct (Z.ltb_spec threshold (Z.of_nat (length shares))); [|lia].
  cbn [py_assert mbind result_bind mret result_ret]. split.
  - intros points ->. by rewrite gatherResults_fired.
  - intros Hin. by rewrite gatherResults_pending.
Qed.

(** C6.  [_recombine(shares, threshold)] is a function of its
    arguments.  Given [threshold] pairs or fewer it fails its assertion.
    Given more, it hands the first [threshold + 1] pairs, and no other,
    to the reconstruction: when these have fired with [points] the
    result is [recombine points], while one of them is pending so is the
    result, and replacing the pairs after them by any others -- fired or
    not, consistent or not -- changes nothing.  [threshold + 1] is a
    number of pairs from [-1] on; below, the slice [shares[:threshold+1]]
    counts from the end of the list and leaves out its last
    [-(threshold + 1)] pairs. *)
Theorem recombine_first_points {F : Type} `{FieldElement F}
    (recombine : list (F * F) → F) (shares : list (option (F * F)))
    (threshold : Z) :
  (Z.of_nat (length shares) <= threshold →
   _recombine recombine shares threshold = Err (AssertionError "")) ∧
  (-1 <= threshold < Z.of_nat (length shares) →
   let first := take (Z.to_nat (threshold + 1)) shares in
   (∀ points, first = Some <$> points →
      _recombine recombine shares threshold = Ok (Some (recombine points))) ∧
   (None ∈ first → _recombine recombine shares threshold = Ok None) ∧
   (∀ later,
      _recombine recombine (first ++ later) threshold
      = _recombine recombine shares threshold)) ∧
  (threshold < -1 →
   let kept :=
     take (length shares - Z.to_nat (- (threshold + 1))) shares in
   (∀ points, kept = Some <$> points →
      _recombine recombine shares threshold = Ok (Some (recombine points))) ∧
   (None ∈ kept → _recombine recombine shares threshold = Ok None)).
Proof.
  split_and!.
  - intros Hlen. unfold _recombine.
    by destruct (Z.ltb_spec threshold (Z.of_nat (length shares))); [lia|].
  - intros [Hlo Hlen] first.
    destruct (recombine_slice recombine shares threshold Hlen) as [Hp Hn].
    rewrite slice_to_nonneg in Hp, Hn by lia. split_and!; [done|done|].
    intros later. unfold _recombine.
    destruct (Z.ltb_spec threshold (Z.of_nat (length shares))); [|lia].
    destruct (Z.ltb_spec threshold (Z.of_nat (length (first ++ later))))
      as [_|Hshort].
    + cbn [py_assert mbind result_bind mret result_ret].
      rewrite !slice_to_nonneg by lia. do 3 f_equal. unfold first.
      rewrite take_app_le by (rewrite length_take; lia).
      by rewrite take_take, Nat.min_id.
    + rewrite length_app in Hshort. unfold first in Hshort.
      rewrite length_take in Hshort. lia.
  - intros Hneg kept.
    destruct (recombine_slice recombine shares threshold ltac:(lia))
      as [Hp Hn].
    assert (slice_to shares (threshold + 1) = kept) as Hs.
    { unfold slice_to, kept. destruct (Z.ltb_spec (threshold + 1) 0); [|lia].
      f_equal. lia. }
    rewrite Hs in Hp, Hn. by split.
Qed.

Lemma recombine_first_points_witness :
  let shares : list (option (GFp 2039 * GFp 2039)) :=
    [Some (field 1, field 49); Some (field 2, field 56); None] in
  _recombine shamir_recombine shares 3 = Err (AssertionError "") ∧
  _recombine shamir_recombine shares 1 = Ok (Some (field 42)) ∧
  _recombine shamir_recombine shares 2 = Ok None ∧
  _recombine shamir_recombine
    [Some (field 1, field 49); Some (field 2, field 56);
     Some (field 3, field 0); Some (field 4, field 7)] 1
  = _recombine shamir_recombine shares 1 ∧
  _recombine shamir_recombine shares (-3) = Ok (Some (field 49)).
Proof.
  intros shares.
  destruct (recombine_first_points shamir_recombine shares 3) as (H3 & _ & _).
  destruct (recombine_first_points shamir_recombine shares 1)
    as (_ & H1 & _).
  destruct (recombine_first_points shamir_recombine shares 2)
    as (_ & H2 & _).
  destruct (recombine_first_points shamir_recombine shares (-3))
    as (_ & _ & Hm).
  destruct (H1 ltac:(simpl; lia)) as (H1p & _ & H1l).
  destruct (H2 ltac:(simpl; lia)) as (_ & H2n & _).
  destruct (Hm ltac:(lia)) as (Hmp & _).
  split_and!.
  - apply H3. simpl. lia.
  - rewrite (H1p [(field 1, field 49); (field 2, field 56)] eq_refl).
    vm_compute. reflexivity.
  - apply H2n. simpl. apply list_elem_of_lookup. by exists 2%nat.
  - exact (H1l [Some (field 3, field 0); Some (field 4, field 7)]).
  - rewrite (Hmp [(field 1, field 49)] eq_refl). vm_compute. reflexivity.
Defined.

(** Receive first: [_exchange_shares] creates the pending entry, the
    message removes it and the reactor then fires the share. *)
Lemma exchange_then_message (self_id id : Z) (pc : list Z) (mine theirs : Z)
    (net : Exchange) :
  id ≠ self_id → incoming_shares net !! (pc, id) = None →
  delayed_calls net = [] →
  ∃ a net1 net3,
    _exchange_shares self_id pc id mine net = (a, net1) ∧
    incoming_shares net1 !! (pc, id) = Some a ∧
    share_store net1 !! a = Some None ∧
    incoming_shares (stringReceived id pc theirs net1) !! (pc, id) = None ∧
    reactor_step (stringReceived id pc theirs net1) = Ok net3 ∧
    share_store net3 !! a = Some (Some theirs) ∧
    incoming_shares net3 !! (pc, id) = None.
Proof.
  intros Hid Hnone Hq. unfold _exchange_shares.
  rewrite decide_False by done. rewrite Hnone. simpl.
  rewrite lookup_insert_eq. simpl.
  exists (length (share_store net)).
  eexists.
  exists (mkExchange
            (<[length (share_store net) := Some theirs]>
               (share_store net ++ [None]))
            (delete (pc, id)
               (<[(pc, id) := length (share_store net)]> (incoming_shares net)))
            [] (outbox net ++ [(id, pc, mine)])).
  split; [reflexivity|]. simpl.
  rewrite lookup_insert_eq.
  assert ((share_store net ++ [None]) !! length (share_store net)
          = Some (@None Z)) as Hl.
  { rewrite lookup_app_r by lia. by rewrite Nat.sub_diag. }
  split_and!; try done.
  - unfold stringReceived. simpl. rewrite lookup_insert_eq. simpl.
    by rewrite lookup_delete_eq.
  - unfold stringReceived, reactor_step. simpl. rewrite lookup_insert_eq.
    simpl. rewrite Hq. simpl. by rewrite Hl.
  - simpl. apply list_lookup_insert_eq. rewrite length_app. simpl. lia.
  - simpl. by rewrite lookup_delete_eq.
Qed.

(** Message first: [stringReceived] creates a fired entry, and the
    later [_exchange_shares] returns that share but leaves the entry in
    the table. *)
Lemma message_then_exchange (self_id id : Z) (pc : list Z) (mine theirs : Z)
    (net : Exchange) :
  id ≠ self_id → incoming_shares net !! (pc, id) = None →
  ∃ a net2,
    _exchange_shares self_id pc id mine (stringReceived id pc theirs net)
    = (a, net2) ∧
    share_store net2 !! a = Some (Some theirs) ∧
    incoming_shares net2 !! (pc, id) = Some a ∧
    delayed_calls net2 = delayed_calls net.
Proof.
  intros Hid Hnone. unfold stringReceived. rewrite Hnone. simpl.
  unfold _exchange_shares. rewrite decide_False by done. simpl.
  rewrite !lookup_insert_eq. simpl. rewrite !lookup_insert_eq. simpl.
  exists (length (share_store net)). eexists. split; [reflexivity|]. simpl.
  rewrite ?lookup_insert_eq. split_and!; try done.
  rewrite lookup_app_r by lia. by rewrite Nat.sub_diag.
Qed.

(** C5 at a concrete run of player 1: the share of peer 2 for program
    counter [1, 0] arrives before player 1 reaches its own
    [_exchange_shares]; afterwards the share has fired, nothing is left
    for the reactor to do, and the entry is still in the table. *)
Theorem incoming_shares_message_first_kept :
  let net1 := stringReceived 2 [1; 0] 42 Exchange_init in
  let r := _exchange_shares 1 [1; 0] 2 7 net1 in
  incoming_shares Exchange_init !! ([1; 0], 2) = None ∧
  share_store r.2 !! r.1 = Some (Some 42) ∧
  delayed_calls r.2 = [] ∧
  reactor_step r.2 = Ok r.2 ∧
  incoming_shares r.2 !! ([1; 0], 2) = Some r.1.
Proof.
  intros net1 r.
  destruct (message_then_exchange 1 2 [1; 0] 7 42 Exchange_init)
    as (a & net2 & E & Hs & Hi & Hd); [lia|apply lookup_empty|].
  fold net1 in E. fold r in E. rewrite E. simpl in *.
  split_and!; try done. unfold reactor_step. by rewrite Hd.
Qed.

Example greater_than_10_20 :
  greater_than (F := GFp 30916444023318367583) 3 1 (Resolved (field 10))
    (Resolved (field 20)) (bits_of 11223344556 34)
    (λ i, [Z.of_nat i mod 2; 1; 0])
  = Ok (Resolved (field 0)).
Proof. vm_compute. reflexivity. Qed.

Example greater_than_30_20 :
  greater_than (F := GFp 30916444023318367583) 3 1 (Resolved (field 30))
    (Resolved (field 20)) (bits_of 9988776655 34)
    (λ i, [Z.of_nat i mod 2; 1; 1])
  = Ok (Resolved (field 1)).
Proof. vm_compute. reflexivity. Qed.

Example greater_than_equal :
  greater_than (F := GFp 30916444023318367583) 3 1
    (Resolved (field 4294967295)) (Resolved (field 4294967295))
    (bits_of 17179869183 34) (λ i, [0; 1; 1])
  = Ok (Resolved (field 1)).
Proof. vm_compute. reflexivity. Qed.

(** Two players with threshold 1: the products of the conversions fail
    the assertion of [_recombine], the opening of a share that has
    failed never fires, and the comparison stays pending. *)
Example greater_than_two_players :
  greater_than (F := GFp 30916444023318367583) 2 1 (Resolved (field 30))
    (Resolved (field 20)) (bits_of 9988776655 34)
    (λ i, [Z.of_nat i mod 2; 1])
  = Ok Pending.
Proof. vm_compute. reflexivity. Qed.

Example greater_thanII_10_20 :
  greater_thanII (F := GFp 30916444023318367583) 3 1 (Resolved (field 10))
    (Resolved (field 20)) None
    (mk_preproc_draws (bits_of 6917529027641081856123 63) (Resolved (field 1))
       [5; 77; 1234] (field 99) (field 1234567))
  = Ok (Resolved (field 0)).
Proof. vm_compute. reflexivity. Qed.

Example greater_thanII_30_20 :
  greater_thanII (F := GFp 30916444023318367583) 3 1 (Resolved (field 30))
    (Resolved (field 20)) None
    (mk_preproc_draws (bits_of 1234567890123456789 63) (Resolved (field 0))
       [5; 77; 1234] (field 99) (field 1234567))
  = Ok (Resolved (field 1)).
Proof. vm_compute. reflexivity. Qed.

Example greater_thanII_equal :
  greater_thanII (F := GFp 30916444023318367583) 3 1 (Resolved (field 77))
    (Resolved (field 77)) None
    (mk_preproc_draws (bits_of 987654321987654321 63) (Resolved (field 1))
       [5; 77; 1234] (field 3) (field 4))
  = Ok (Resolved (field 1)).
Proof. vm_compute. reflexivity. Qed.

(** Two players with threshold 1: the first product fails, and with it
    everything that is computed from it. *)
Example greater_thanII_two_players :
  greater_thanII (F := GFp 30916444023318367583) 2 1 (Resolved (field 30))
    (Resolved (field 20)) None
    (mk_preproc_draws (bits_of 1234567890123456789 63) (Resolved (field 0))
       [5; 77] (field 99) (field 1234567))
  = Ok Pending.
Proof. vm_compute. reflexivity. Qed.

(** *** Shares that resolve, and shares that do not *)

Lemma add_resolved {F : Type} `{FieldElement F} (a b : F) :
  add (Resolved a) (Resolved b) = Resolved (f_add a b).
Proof. reflexivity. Qed.

Lemma sub_resolved {F : Type} `{FieldElement F} (a b : F) :
  sub (Resolved a) (Resolved b) = Resolved (f_sub a b).
Proof. reflexivity. Qed.

Lemma both_resolved {A B : Type} (a : future A) (b : future B) (p : A * B) :
  both a b = Resolved p ↔ a = Resolved p.1 ∧ b = Resolved p.2.
Proof.
  destruct p as [x y]. destruct a as [a| |], b as [b| |]; simpl;
    (split; [intros [=]|intros [[=] [=]]]); by subst.
Qed.

Section Enough.
Context {F : Type} `{FieldElement F}.
Variable players : Z.
Variable threshold : nat.
Hypothesis enough : 2 * Z.of_nat threshold < players.

Lemma mul_resolved (a b : F) :
  mul players threshold (Resolved a) (Resolved b) = Resolved (f_mul a b).
Proof.
  unfold mul. cbn [both mbind future_bind fst snd].
  by destruct (Z.ltb_spec (2 * Z.of_nat threshold) players); [|lia].
Qed.

Lemma open_resolved (a : F) :
  open players threshold (Resolved a) None = Resolved a.
Proof.
  unfold open. cbn [default from_option id].
  by destruct (Z.ltb_spec (Z.of_nat threshold) players); [|lia].
Qed.

Lemma open_twice_resolved (a : F) :
  open players threshold (Resolved a) (Some (2 * Z.of_nat threshold))
  = Resolved a.
Proof.
  unfold open. cbn [default from_option id].
  by destruct (Z.ltb_spec (2 * Z.of_nat threshold) players); [|lia].
Qed.

Lemma xor_int_resolved (a b : F) :
  xor_int players threshold (Resolved a) (Resolved b)
  = Resolved (f_sub (f_add a b) (f_mul (field 2) (f_mul a b))).
Proof. unfold xor_int. by rewrite mul_resolved. Qed.
End Enough.

Section TooFew.
Context {F : Type} `{FieldElement F}.
Variable players : Z.
Variable threshold : nat.
Hypothesis too_few : players <= 2 * Z.of_nat threshold.

(** With no more players than twice the threshold a product never
    resolves: it fails when both operands resolve, and is as its
    operands are otherwise. *)
Lemma mul_too_few (share_a share_b : future F) :
  mul players threshold share_a share_b
  = match both share_a share_b with
    | Pending => Pending
    | _ => Failed
    end.
Proof.
  unfold mul. destruct (both share_a share_b) as [p| |]; try done.
  cbn [mbind future_bind].
  by destruct (Z.ltb_spec (2 * Z.of_nat threshold) players); [lia|].
Qed.

Lemma xor_int_too_few (share_a share_b : future F) :
  xor_int players threshold share_a share_b
  = match both share_a share_b with
    | Pending => Pending
    | _ => Failed
    end.
Proof.
  unfold xor_int. rewrite mul_too_few.
  by destruct share_a, share_b.
Qed.
End TooFew.

(** *** Exclusive-or *)

Lemma xor_int_value (p : Z) (a b : GFp p) :
  f_sub (f_add a b) (f_mul (field 2) (f_mul a b))
  = field (value a + value b - 2 * (value a * value b)).
Proof.
  simpl. f_equal.
  rewrite Zminus_mod_idemp_l, Zmult_mod_idemp_l, Zmult_mod_idemp_r.
  by rewrite Zminus_mod_idemp_r.
Qed.

Lemma xor_value_bits (p : Z) (x y : bool) :
  (field (Z.b2z x + Z.b2z y - 2 * (Z.b2z x * Z.b2z y)) : GFp p)
  = field (Z.b2z (xorb x y)).
Proof. by destruct x, y. Qed.

Lemma xor_int_bits (p players : Z) (threshold : nat) (x y : bool) :
  2 * Z.of_nat threshold < players →
  xor_int (F := GFp p) players threshold (Resolved (field (Z.b2z x)))
    (Resolved (field (Z.b2z y)))
  = Resolved (field (Z.b2z (xorb x y))).
Proof.
  intros Hn. rewrite xor_int_resolved by done. f_equal.
  rewrite xor_int_value, <- xor_value_bits. simpl. f_equal.
  rewrite Zminus_mod, <- Zplus_mod.
  rewrite <- (Zmult_mod_idemp_r (_ * _)), <- Zmult_mod, Zmult_mod_idemp_r.
  by rewrite <- Zminus_mod.
Qed.

Lemma xor_bit_bits (x y : bool) :
  xor_bit (F := GF256) (Resolved (field (Z.b2z x))) (Resolved (field (Z.b2z y)))
  = Resolved (field (Z.b2z (xorb x y))).
Proof. by destruct x, y. Qed.


Example xor_truth_table :
  (λ '(a, b), xor_int (F := GFp 2039) 3 1 (Resolved (field a))
                (Resolved (field b)))
    <$> [(0, 0); (0, 1); (1, 0); (1, 1)]
  = Resolved <$> (field <$> [0; 1; 1; 0]) ∧
  (λ '(a, b), xor_bit (F := GF256) (Resolved (field a)) (Resolved (field b)))
    <$> [(0, 0); (0, 1); (1, 0); (1, 1)]
  = Resolved <$> (field <$> [0; 1; 1; 0]) ∧
  xor_int (F := GFp 2039) 2 1 (Resolved (field 1)) (Resolved (field 0))
  = Failed.
Proof. by vm_compute. Qed.

(** *** Field-size assertions of [greater_thanII] *)

Lemma preproc_asserts_spec (fm sm l k : Z) :
  preproc_asserts fm sm l k =
  if 2 ^ (l + 2) + 2 ^ (l + k) <? fm
  then if 3 + 3 * l <? sm then Ok tt
       else Err (AssertionError "smallField too small")
  else Err (AssertionError "Field too small").
Proof.
  unfold preproc_asserts, py_assert.
  by destruct (2 ^ (l + 2) + 2 ^ (l + k) <? fm), (3 + 3 * l <? sm).
Qed.

(** C7, as the code has it.  [greater_thanII] first runs the assertions
    of its preprocessing, which are stated for the incremented
    bit-length and, [smallField] being left out, both about [field]:
    [field.modulus > 2^(l+3) + 2^(l+31)] and [field.modulus > 6 + 3l]
    for the caller's [l].  When one of them fails the call raises the
    assertion failure and no online step runs; otherwise the call is
    the online phase on the preprocessed tuple.  This holds whatever
    the players, the threshold and the state of the operands are. *)
Theorem greater_thanII_asserts {F : Type} `{FieldElement F}
    (players : Z) (threshold : nat) (share_a share_b : future F)
    (l : option Z) (draws : preproc_draws F) :
  let l' := default 32 l in
  let field_ok := 2 ^ (l' + 3) + 2 ^ (l' + 31) < modulus (F := F) in
  let small_ok := 6 + 3 * l' < modulus (F := F) in
  (¬ field_ok →
   greater_thanII players threshold share_a share_b l draws
   = Err (AssertionError "Field too small")) ∧
  (field_ok → ¬ small_ok →
   greater_thanII players threshold share_a share_b l draws
   = Err (AssertionError "smallField too small")) ∧
  (field_ok → small_ok → draw_conv_masks draws ≠ [] →
   ∃ preproc,
     greater_thanII_preproc players threshold (Some l') (Some 30) draws
     = Ok preproc ∧
     greater_thanII players threshold share_a share_b l draws
     = greater_thanII_online players threshold share_a share_b preproc
         (Some l')).
Proof.
  intros l' field_ok small_ok. unfold greater_thanII, greater_thanII_preproc.
  fold l'. simpl default. rewrite preproc_asserts_spec.
  replace (l' + 1 + 2) with (l' + 3) by lia.
  replace (l' + 1 + 30) with (l' + 31) by lia.
  replace (3 + 3 * (l' + 1)) with (6 + 3 * l') by lia.
  unfold field_ok, small_ok.
  destruct (Z.ltb_spec (2 ^ (l' + 3) + 2 ^ (l' + 31)) (modulus (F := F)));
    destruct (Z.ltb_spec (6 + 3 * l') (modulus (F := F)));
    split_and!; intros; try lia; try done.
  unfold convert_bit_share_II.
  destruct (draw_conv_masks draws) as [|m ms]; [done|].
  eexists. split; reflexivity.
Qed.

(** With bit-length 1 in the field of 4294967291 = 2^32 - 5 elements the
    worded bounds hold and the call still fails "Field too small". *)
Lemma greater_thanII_asserts_counterexample :
  ¬ asserts_callers_l (GFp 4294967291).
Proof.
  intros Hc.
  destruct (Hc 3 1%nat (Resolved (field 1)) (Resolved (field 0)) 1
              (mk_preproc_draws (bits_of 0 32) (Resolved (field 1))
                 [5; 77; 1234] (field 7) (field 5)))
    as [Hfail _]; [lia|].
  apply Hfail.
  - simpl. lia.
  - by eexists.
Qed.

Lemma greater_thanII_asserts_witness :
  let P := 30916444023318367583 in
  let draws :=
    mk_preproc_draws (bits_of 1234567890123456789 63) (Resolved (field 0))
      [5; 77; 1234] (field 99) (field 1234567) in
  ∃ preproc,
    greater_thanII_preproc (F := GFp P) 3 1 (Some 32) (Some 30) draws
    = Ok preproc ∧
    greater_thanII 3 1 (Resolved (field 30)) (Resolved (field 20)) None draws
    = greater_thanII_online 3 1 (Resolved (field 30)) (Resolved (field 20))
        preproc (Some 32).
Proof.
  intros P draws.
  destruct (greater_thanII_asserts (F := GFp P) 3 1 (Resolved (field 30))
              (Resolved (field 20)) None draws)
    as (_ & _ & Hok).
  apply Hok; simpl; [lia|lia|done].
Defined.

(** *** The mask of the preprocessing *)

(** Whatever the two masks are, once the assertions hold the
    preprocessing completes with the first one: the opened product
    [mask_OK] is never inspected. *)
Lemma greater_thanII_preproc_no_retry {F : Type} `{FieldElement F}
    (players : Z) (threshold : nat) (l k : option Z)
    (draws : preproc_draws F) :
  preproc_asserts (modulus (F := F)) (modulus (F := F))
    (default 32 l + 1) (default 30 k) = Ok tt →
  draw_conv_masks draws ≠ [] →
  ∃ preproc,
    greater_thanII_preproc players threshold l k draws = Ok preproc ∧
    mask preproc = Resolved (draw_mask draws).
Proof.
  intros Ha Hm. unfold greater_thanII_preproc. rewrite Ha.
  unfold convert_bit_share_II.
  destruct (draw_conv_masks draws) as [|m ms]; [done|].
  eexists. split; reflexivity.
Qed.

(** C4 at a failing draw: three players with threshold 1, in the 65-bit
    prime field of the test suite.  With the first mask drawn as [0]
    the product of the masks opens to [0], and the preprocessing returns
    normally, with the zero mask in its tuple. *)
Theorem greater_thanII_preproc_zero_mask :
  let P := 30916444023318367583 in
  let draws : preproc_draws (GFp P) :=
    mk_preproc_draws (bits_of 0 63) (Resolved (field 1)) [5; 77; 1234]
      (field 0) (field 5) in
  open 3 1
    (mul 3 1 (Resolved (draw_mask draws)) (Resolved (draw_mask_2 draws))) None
  = Resolved (field 0) ∧
  ∃ preproc,
    greater_thanII_preproc 3 1 None None draws = Ok preproc ∧
    mask preproc = Resolved (field 0).
Proof.
  intros P draws. split; [reflexivity|].
  destruct (greater_thanII_preproc_no_retry (F := GFp P) 3 1 None None draws)
    as (pre & Hpre & Hm); [reflexivity|done|].
  exists pre. split; [done|]. by rewrite Hm.
Qed.

(** C1 at a failing draw: three players with threshold 1, same field,
    inputs [30] and [20] of the default bit-length, all random bits [0],
    sign bit [1] and the first mask [0]: the preconditions hold,
    [30 >= 20], and [greater_thanII] opens to [0].  With the mask [1]
    instead it opens to [1]. *)
Theorem greater_thanII_zero_mask_wrong :
  let P := 30916444023318367583 in
  let draws (m : Z) : preproc_draws (GFp P) :=
    mk_preproc_draws (bits_of 0 63) (Resolved (field 1)) [5; 77; 1234]
      (field m) (field 5) in
  2 ^ (32 + 3) + 2 ^ (32 + 31) < P ∧
  (30 >=? 20) = true ∧
  greater_thanII 3 1 (Resolved (field 30)) (Resolved (field 20)) None (draws 0)
  = Ok (Resolved (field 0)) ∧
  greater_thanII 3 1 (Resolved (field 30)) (Resolved (field 20)) None (draws 1)
  = Ok (Resolved (field 1)).
Proof. intros P draws. split_and!; [lia|done|by vm_compute|by vm_compute]. Qed.

(** *** Random shared bits *)

(** In [GF256] the draw is returned as it is: a draw of [1] comes back
    as [1], where squaring would give [(1/1 + 1)/2 = 0]. *)
Lemma prss_share_random_GF256_counterexample :
  ¬ binary_draw_by_squaring GF256 gf256_sqrt.
Proof.
  intros Hc. destruct (Hc 3 1%nat 1%nat (λ _, field 1)) as [_ Hsq]; [lia|].
  assert (value (f_mul (field 1 : GF256) (field 1)) ≠ 0) as Hne
    by (by vm_compute).
  specialize (Hsq Hne). vm_compute in Hsq. discriminate Hsq.
Qed.

Lemma unit_square_roots (p u : Z) :
  Z.prime p → 0 <= u < p → (u * u) mod p = 1 mod p → u = 1 ∨ u = p - 1.
Proof.
  intros Hp Hu Hsq.
  assert (2 <= p) as Hp2 by (by apply Z.prime_ge_2).
  assert ((p | (u - 1) * (u + 1))) as Hd.
  { apply Z.mod_divide; [lia|].
    replace ((u - 1) * (u + 1)) with (u * u - 1) by ring.
    rewrite Zminus_mod, Hsq, <- Zminus_mod. by rewrite Z.sub_diag. }
  apply (proj1 (Z.divide_prime_mul _ _ _ Hp)) in Hd as [[k Hk]|[k Hk]].
  - left. assert (k = 0) by nia. lia.
  - right. assert (k = 1) by nia. lia.
Qed.

(** One attempt of the binary draw, by the state of the opened
    square. *)
Lemma prss_share_random_step {F : Type} `{FieldElement F} (players : Z)
    (threshold : nat) (sqrt : F → F) (fuel : nat) (draws : nat → F)
    (binary : bool) :
  prss_share_random players threshold sqrt (S fuel) draws binary =
  if is_GF256 (F := F) || negb binary then Some (Resolved (draws O))
  else
    match open players threshold
            (mul players threshold (Resolved (draws O)) (Resolved (draws O)))
            (Some (2 * Z.of_nat threshold)) with
    | Resolved square =>
        if value square =? 0
        then prss_share_random players threshold sqrt fuel
               (λ n, draws (S n)) binary
        else Some (Resolved (f_div (f_add (f_div (draws O) (sqrt square))
                                      (field 1)) (field 2)))
    | Failed => Some Failed
    | Pending => Some Pending
    end.
Proof. reflexivity. Qed.

(** The square of a draw opens when there are enough players, and stays
    pending when there are not: the product fails, and the opening of a
    share that has failed never fires. *)
Lemma opened_square {F : Type} `{FieldElement F} (players : Z)
    (threshold : nat) (share : F) :
  open players threshold
    (mul players threshold (Resolved share) (Resolved share))
    (Some (2 * Z.of_nat threshold))
  = if 2 * Z.of_nat threshold <? players
    then Resolved (f_mul share share)
    else Pending.
Proof.
  unfold mul, open. cbn [both mbind future_bind fst snd default from_option id].
  destruct (Z.ltb_spec (2 * Z.of_nat threshold) players) as [Hn|Hn]; [|done].
  by destruct (Z.ltb_spec (2 * Z.of_nat threshold) players); [|lia].
Qed.

Section BinaryDraw.
Variable p : Z.
Hypothesis p_prime : Z.prime p.
Hypothesis p_odd : 2 < p.

Lemma ratio_is_unit_root (r t : Z) :
  (t * t) mod p = (r * r) mod p → (r * r) mod p ≠ 0 →
  let u := (r * Z.invmod t p) mod p in
  u = 1 ∨ u = p - 1.
Proof.
  intros Hsq Hne u.
  assert (t mod p ≠ 0) as Ht.
  { intros Ht. apply Hne. rewrite <- Hsq.
    by rewrite Zmult_mod, Ht. }
  pose proof (Z.invmod_prime t p p_prime Ht) as Hinv.
  assert ((u * t) mod p = r mod p) as Hut.
  { unfold u. rewrite Zmult_mod_idemp_l.
    rewrite <- Z.mul_assoc, <- Zmult_mod_idemp_r, Hinv.
    by rewrite Z.mul_1_r. }
  apply unit_square_roots; [done|apply Z.mod_pos_bound; lia|].
  assert ((p | (u * u - 1) * (t * t))) as Hd.
  { apply Z.mod_divide; [lia|].
    replace ((u * u - 1) * (t * t)) with (u * t * (u * t) - t * t) by ring.
    rewrite Zminus_mod, (Zmult_mod (u * t)), Hut, <- Zmult_mod, Hsq.
    by rewrite <- Zminus_mod, Z.sub_diag. }
  apply (proj1 (Z.divide_prime_mul _ _ _ p_prime)) in Hd as [Hd|Hd].
  - apply Z.mod_divide in Hd; [|lia].
    rewrite Zminus_mod in Hd.
    rewrite (Z.mod_small 1) by lia.
    assert (0 <= (u * u) mod p < p) as Hb by (apply Z.mod_pos_bound; lia).
    rewrite (Z.mod_small 1) in Hd by lia.
    destruct (decide ((u * u) mod p = 0)) as [E|E].
    + rewrite E in Hd. simpl in Hd.
      rewrite <- (Z_mod_plus_full _ 1), Z.mod_small in Hd; lia.
    + rewrite Z.mod_small in Hd; lia.
  - apply (proj1 (Z.divide_prime_mul _ _ _ p_prime)) in Hd as [Hd|Hd];
      apply Z.mod_divide in Hd; lia.
Qed.

(** C9 for a prime field with an odd modulus.  The draw is squared and
    the square opened with the threshold [2 * threshold].  In a runtime
    with more players than that, a zero square retries the whole draw
    and any other square gives [(share/root + 1)/2], and when [root] is
    a square root of the opened square that element is [0] or [1].  With
    no more players than that the square never opens and the share that
    is returned stays pending.  In [GF256] there is no squaring: the
    draw itself is returned. *)
Theorem prss_share_random_binary (players : Z) (threshold : nat)
    (sqrt : GFp p → GFp p) (fuel : nat) (draws : nat → GFp p) :
  let share := draws O in
  let square := f_mul share share in
  (2 * Z.of_nat threshold < players → value square = 0 →
   prss_share_random players threshold sqrt (S fuel) draws true
   = prss_share_random players threshold sqrt fuel (λ n, draws (S n)) true) ∧
  (2 * Z.of_nat threshold < players → value square ≠ 0 →
   let root := sqrt square in
   let shared_bit := f_div (f_add (f_div share root) (field 1)) (field 2) in
   prss_share_random players threshold sqrt (S fuel) draws true
   = Some (Resolved shared_bit) ∧
   (f_mul root root = square →
    value shared_bit = 0 ∨ value shared_bit = 1)) ∧
  (players <= 2 * Z.of_nat threshold →
   prss_share_random players threshold sqrt (S fuel) draws true
   = Some Pending) ∧
  (∀ (sqrt' : GF256 → GF256) (draws' : nat → GF256),
     prss_share_random players threshold sqrt' (S fuel) draws' true
     = Some (Resolved (draws' O))).
Proof.
  intros share square. split_and!.
  - intros Hn Hz. rewrite prss_share_random_step, opened_square.
    simpl orb. cbv iota.
    destruct (Z.ltb_spec (2 * Z.of_nat threshold) players); [|lia].
    fold share. fold square. by rewrite (proj2 (Z.eqb_eq _ _) Hz).
  - intros Hn Hnz root shared_bit. split.
    + rewrite prss_share_random_step, opened_square. simpl orb. cbv iota.
      destruct (Z.ltb_spec (2 * Z.of_nat threshold) players); [|lia].
      fold share. fold square. by rewrite (proj2 (Z.eqb_neq _ _) Hnz).
    + intros Hroot. unfold shared_bit, f_div. simpl.
      unfold square in *. simpl in *.
      injection Hroot as Hroot. fold root in Hroot.
      destruct (ratio_is_unit_root (gfp_value share) (gfp_value root))
        as [Hu|Hu]; [done|done| |]; rewrite Hu.
      * right. rewrite (Z.mod_small 1), (Z.mod_small 2) by lia.
        change (1 + 1) with 2. rewrite (Z.mod_small 2) by lia.
        rewrite Z.mul_comm. apply Z.invmod_prime; [done|].
        rewrite Z.mod_small; lia.
      * left. rewrite (Z.mod_small 1) by lia.
        replace (p - 1 + 1) with p by lia.
        by rewrite Z_mod_same_full.
  - intros Hn. rewrite prss_share_random_step, opened_square.
    simpl orb. cbv iota.
    by destruct (Z.ltb_spec (2 * Z.of_nat threshold) players); [lia|].
  - done.
Qed.
End BinaryDraw.

Lemma prime_7 : Z.prime 7.
Proof.
  split; [lia|]. intros n Hn [k Hk].
  assert (n = 2 ∨ n = 3 ∨ n = 4 ∨ n = 5 ∨ n = 6) as Hc by lia.
  destruct Hc as [->|[->|[->|[->| ->]]]]; lia.
Qed.

Lemma prss_share_random_binary_witness :
  let sqrt : GFp 7 → GFp 7 := λ x, f_mul x x in
  prss_share_random 3 1 sqrt 2 (λ _, field 3) true
  = Some (Resolved (field 0)) ∧
  prss_share_random 3 1 sqrt 2 (λ _, field 4) true
  = Some (Resolved (field 1)) ∧
  prss_share_random 3 1 sqrt 2 (λ n, field (Z.of_nat n)) true
  = Some (Resolved (field 1)) ∧
  prss_share_random 2 1 sqrt 2 (λ _, field 3) true = Some Pending.
Proof.
  intros sqrt.
  assert (2 < 7) as H27 by lia.
  destruct (prss_share_random_binary 7 prime_7 H27 3 1 sqrt 1 (λ _, field 3))
    as (_ & H3 & _).
  destruct (prss_share_random_binary 7 prime_7 H27 3 1 sqrt 1 (λ _, field 4))
    as (_ & H4 & _).
  destruct (prss_share_random_binary 7 prime_7 H27 3 1 sqrt 1
              (λ n, field (Z.of_nat n))) as (H0 & _ & _).
  destruct (prss_share_random_binary 7 prime_7 H27 2 1 sqrt 1 (λ _, field 3))
    as (_ & _ & Hp & _).
  split_and!.
  - rewrite (proj1 (H3 ltac:(simpl; lia) ltac:(by vm_compute))). reflexivity.
  - rewrite (proj1 (H4 ltac:(simpl; lia) ltac:(by vm_compute))). reflexivity.
  - rewrite (H0 ltac:(simpl; lia) ltac:(by vm_compute)). reflexivity.
  - apply Hp. simpl. lia.
Defined.

(** *** The diamond reduction *)

Lemma gf256_bit_mul (x y : bool) :
  f_mul (F := GF256) (bitF x) (bitF y) = bitF (x && y).
Proof. by destruct x, y. Qed.

Lemma gf256_bit_add (x y : bool) :
  f_add (F := GF256) (bitF x) (bitF y) = bitF (xorb x y).
Proof. by destruct x, y. Qed.

Lemma diamond_b_assoc (a b c : bool * bool) :
  diamond_b (diamond_b a b) c = diamond_b a (diamond_b b c).
Proof. by destruct a as [[|] [|]], b as [[|] [|]], c as [[|] [|]]. Qed.

Lemma diamond_prod_left (a v : bool * bool) (vs : list (bool * bool)) :
  diamond_b a (diamond_prod v vs) = diamond_prod (diamond_b a v) vs.
Proof.
  revert v. induction vs as [|w vs IH]; intros v; simpl; [done|].
  unfold diamond_prod in *. simpl. by rewrite IH, diamond_b_assoc.
Qed.

Lemma round_b_length (vec : list (bool * bool)) :
  (2 <= length vec)%nat →
  (1 <= length (round_b vec) < length vec)%nat.
Proof.
  induction vec as [vec IH] using (induction_ltof1 _ length).
  destruct vec as [|a [|b vec]]; simpl; try lia. intros _.
  destruct vec as [|c [|d vec]]; simpl; try lia.
  assert (1 <= length (round_b (c :: d :: vec)) < length (c :: d :: vec))%nat
    as H by (apply IH; [unfold ltof|]; simpl; lia).
  simpl in H. lia.
Qed.

Lemma round_b_prod (v : bool * bool) (vs : list (bool * bool)) :
  ∃ v' vs', round_b (v :: vs) = v' :: vs' ∧
            diamond_prod v' vs' = diamond_prod v vs.
Proof.
  remember (v :: vs) as vec eqn:E. revert v vs E.
  induction vec as [vec IH] using (induction_ltof1 _ length).
  intros v vs ->. destruct vs as [|b [|c vs]].
  - by exists v, [].
  - by exists (diamond_b v b), [].
  - destruct (IH (c :: vs)) with (v := c) (vs := vs)
      as (v' & vs' & Hr & Hp); [unfold ltof; simpl; lia|done|].
    exists (diamond_b v b), (v' :: vs'). simpl in *. rewrite Hr.
    split; [done|]. unfold diamond_prod in *. simpl.
    change (foldl diamond_b (diamond_b (diamond_b v b) v') vs')
      with (diamond_prod (diamond_b (diamond_b v b) v') vs').
    rewrite <- diamond_prod_left. unfold diamond_prod. rewrite Hp.
    change (foldl diamond_b c vs) with (diamond_prod c vs).
    by rewrite diamond_prod_left.
Qed.

(** *** Prime-field arithmetic on representatives *)

Lemma gfp_add_field (p x y : Z) :
  f_add (F := GFp p) (field x) (field y) = field (x + y).
Proof. simpl. by rewrite <- Zplus_mod. Qed.

Lemma gfp_sub_field (p x y : Z) :
  f_sub (F := GFp p) (field x) (field y) = field (x - y).
Proof. simpl. by rewrite <- Zminus_mod. Qed.

Lemma gfp_mul_field (p x y : Z) :
  f_mul (F := GFp p) (field x) (field y) = field (x * y).
Proof. simpl. by rewrite <- Zmult_mod. Qed.

Lemma gfp_value_field (p x : Z) :
  0 <= x < p → value (field x : GFp p) = x.
Proof. intros Hx. simpl. by apply Z.mod_small. Qed.

(** *** Bits of an integer *)

Lemma bits_value_bound (bs : list bool) :
  0 <= bits_value bs < 2 ^ Z.of_nat (length bs).
Proof.
  induction bs as [|b bs IH]; simpl bits_value; [simpl; lia|].
  rewrite length_cons, Nat2Z.inj_succ, Z.pow_succ_r by lia.
  destruct b; simpl Z.b2z; lia.
Qed.

Lemma bits_value_testbit (bs : list bool) (i : nat) :
  Z.testbit (bits_value bs) (Z.of_nat i) = default false (bs !! i).
Proof.
  revert i. induction bs as [|b bs IH]; intros i; simpl bits_value.
  - by rewrite Z.testbit_0_l.
  - rewrite Z.add_comm. destruct i as [|i].
    + change (Z.of_nat 0) with 0. by rewrite Z.testbit_0_r.
    + rewrite Nat2Z.inj_succ, Z.testbit_succ_r by lia. apply IH.
Qed.

Lemma bits_to_int_loop (p : Z) (bs : list bool) (k : nat) (acc : Z) :
  foldl f_add (field acc : GFp p)
    (imap (λ i b, f_mul (field (2 ^ Z.of_nat (k + i))) b) (bitF <$> bs))
  = field (acc + 2 ^ Z.of_nat k * bits_value bs).
Proof.
  revert k acc. induction bs as [|b bs IH]; intros k acc.
  - simpl. f_equal. f_equal. lia.
  - rewrite fmap_cons. cbn [imap foldl]. unfold bitF at 1.
    rewrite gfp_mul_field, gfp_add_field.
    erewrite imap_ext; [rewrite (IH (S k))|].
    + f_equal. simpl bits_value. rewrite Nat.add_0_r.
      rewrite Nat2Z.inj_succ, Z.pow_succ_r by lia. ring.
    + intros i x _. unfold compose.
      by replace (k + S i)%nat with (S k + i)%nat by lia.
Qed.

Lemma bits_to_int_bits (p : Z) (bs : list bool) :
  bits_to_int (F := GFp p) (bitF <$> bs) = field (bits_value bs).
Proof.
  unfold bits_to_int.
  transitivity (field (0 + 2 ^ Z.of_nat 0 * bits_value bs) : GFp p).
  - exact (bits_to_int_loop p bs 0 0).
  - f_equal. change (2 ^ Z.of_nat 0) with 1. lia.
Qed.

(** *** Carries of an addition *)

(** The carry into position [n] of [t + r] is the second component of
    the diamond product of [(0, 0)] and the pairs
    [(r_i xor t_i, t_i)], [i < n]. *)
Lemma carry_diamond (t r c : Z) (n : nat) :
  c / 2 = Z.lor (Z.land t r) (Z.land c (Z.lor t r)) →
  Z.testbit c 0 = false →
  Z.testbit c (Z.of_nat n)
  = (diamond_prod (false, false)
       ((λ i, (xorb (Z.testbit r (Z.of_nat i)) (Z.testbit t (Z.of_nat i)),
               Z.testbit t (Z.of_nat i))) <$> seq 0 n)).2.
Proof.
  intros Hc H0. induction n as [|n IH]; [done|].
  rewrite seq_S, fmap_app. unfold diamond_prod in *.
  rewrite foldl_app. simpl foldl. simpl plus.
  rewrite Nat2Z.inj_succ. rewrite <- (Z.div2_bits c (Z.of_nat n)) by lia.
  rewrite Hc.
  rewrite Z.lor_spec, !Z.land_spec, Z.lor_spec, IH.
  unfold diamond_b. simpl.
  by destruct (Z.testbit t (Z.of_nat n)), (Z.testbit r (Z.of_nat n)),
       (foldl _ _ _).2.
Qed.

Lemma add_bit_by_carry (t r : Z) (n : nat) :
  Z.testbit (t + r) (Z.of_nat n)
  = xorb (Z.testbit t (Z.of_nat n))
      (xorb (Z.testbit r (Z.of_nat n))
         (diamond_prod (false, false)
            ((λ i, (xorb (Z.testbit r (Z.of_nat i)) (Z.testbit t (Z.of_nat i)),
                    Z.testbit t (Z.of_nat i))) <$> seq 0 n)).2).
Proof.
  destruct (Z.add_carry_bits t r false) as (c & Hsum & Hc & H0).
  simpl in Hsum. rewrite Z.add_0_r in Hsum.
  rewrite Hsum, !Z.lxor_spec, (carry_diamond t r c n Hc H0).
  by rewrite xorb_assoc.
Qed.

(** *** Bit conversion *)

Lemma foldl_xorb_acc (acc : bool) (l : list bool) :
  foldl xorb acc l = xorb acc (foldl xorb false l).
Proof.
  revert acc. induction l as [|x l IH]; intros acc; simpl.
  - by rewrite xorb_false_r.
  - rewrite IH, (IH x). by rewrite xorb_assoc.
Qed.

(** A list of resolved shares of bits. *)
Lemma gather_resolved {A : Type} (l : list A) :
  gather (Resolved <$> l) = Resolved l.
Proof.
  induction l as [|x l IH]; [done|].
  rewrite fmap_cons. cbn [gather]. by rewrite IH.
Qed.

Lemma existsb_pending_resolved {A : Type} (l : list A) :
  existsb is_pending (Resolved <$> l) = false.
Proof. induction l as [|x l IH]; [done|]. by rewrite fmap_cons. Qed.

Lemma foldl_xor_bit_bits (x : bool) (l : list bool) :
  foldl xor_bit (Resolved (bitF x : GF256))
    ((λ b, Resolved (field b)) <$> (Z.b2z <$> l))
  = Resolved (bitF (foldl xorb x l)).
Proof.
  revert x. induction l as [|y l IH]; intros x; [done|].
  rewrite !fmap_cons. cbn [foldl]. unfold bitF at 1.
  rewrite xor_bit_bits. exact (IH _).
Qed.

Lemma imap_fmap_const {A B C : Type} (f : nat → B → C) (g : A → B)
    (h : A → C) (l : list A) :
  (∀ i x, f i (g x) = h x) → imap f (g <$> l) = h <$> l.
Proof.
  intros Hf. revert f Hf. induction l as [|x l IH]; intros f Hf; simpl; [done|].
  rewrite Hf. f_equal. apply IH. intros i y. apply Hf.
Qed.

(** The vector [_finish_greater_than] builds from bits. *)
Lemma finish_vector (t : Z → bool) (rs : list bool) :
  imap (λ (i : nat) (bi : future GF256),
          (xor_bit bi (Resolved (field (Z.b2z (t (Z.of_nat i))))),
           Resolved (field (Z.b2z (t (Z.of_nat i))) : GF256)))
       (Resolved ∘ bitF <$> rs)
  = bit_pair <$>
      ((λ i, (xorb (default false (rs !! i)) (t (Z.of_nat i)),
              t (Z.of_nat i))) <$> seq 0 (length rs)).
Proof.
  apply list_eq. intros i.
  rewrite list_lookup_imap, !list_lookup_fmap.
  destruct (decide (i < length rs)%nat) as [Hi|Hi].
  - destruct (lookup_lt_is_Some_2 rs i Hi) as [x Hx].
    rewrite Hx, lookup_seq_lt by done. simpl. rewrite Hx. simpl.
    by destruct x, (t (Z.of_nat i)).
  - rewrite lookup_ge_None_2 by lia.
    by rewrite lookup_seq_ge by lia.
Qed.

Lemma testbit_32_of_difference (a b : Z) :
  0 <= a < 2 ^ 32 → 0 <= b < 2 ^ 32 →
  Z.testbit (2 ^ 35 + 2 ^ 32 + a - b) 32 = (b <=? a).
Proof.
  intros Ha Hb. rewrite Z.testbit_odd, Z.shiftr_div_pow2 by lia.
  destruct (Z.leb_spec b a).
  - replace ((2 ^ 35 + 2 ^ 32 + a - b) / 2 ^ 32) with 9; [done|].
    apply (Z.div_unique _ _ _ (a - b)); lia.
  - replace ((2 ^ 35 + 2 ^ 32 + a - b) / 2 ^ 32) with 8; [done|].
    apply (Z.div_unique _ _ _ (2 ^ 32 + a - b)); lia.
Qed.

Lemma assert_pass {A : Type} (cond : bool) (msg : string) (k : result A) :
  cond = true → (_ ← py_assert cond msg; k) = k.
Proof. by intros ->. Qed.

(** *** Variant A computes [a >= b] *)

Section VariantA.
Variable players : Z.
Variable threshold : nat.
Hypothesis enough : 2 * Z.of_nat threshold < players.

Lemma diamond_bit_pair (a b : bool * bool) :
  _diamond players threshold (bit_pair a) (bit_pair b)
  = bit_pair (diamond_b a b).
Proof.
  unfold _diamond, bit_pair, xor_bit. cbn [fst snd].
  rewrite add_resolved, !mul_resolved, add_resolved by done.
  by destruct a as [[|] [|]], b as [[|] [|]].
Qed.

Lemma diamond_round_bit_pair (vec : list (bool * bool)) :
  diamond_round players threshold (bit_pair <$> vec)
  = bit_pair <$> round_b vec.
Proof.
  induction vec as [vec IH] using (induction_ltof1 _ length).
  destruct vec as [|a [|b vec]]; try done.
  rewrite !fmap_cons. cbn [diamond_round round_b].
  rewrite diamond_bit_pair, fmap_cons. f_equal.
  apply IH. unfold ltof. simpl. lia.
Qed.

Lemma diamond_reduce_prod (fuel : nat) (v : bool * bool)
    (vs : list (bool * bool)) :
  (length (v :: vs) <= fuel)%nat →
  diamond_reduce players threshold fuel (bit_pair <$> (v :: vs))
  = [bit_pair (diamond_prod v vs)].
Proof.
  revert v vs. induction fuel as [|fuel IH]; intros v vs Hlen.
  - simpl in Hlen. lia.
  - cbn [diamond_reduce]. rewrite length_fmap.
    destruct vs as [|w vs].
    + done.
    + replace (1 <? length (v :: w :: vs))%nat with true
        by (symmetry; apply Nat.ltb_lt; simpl; lia).
      rewrite diamond_round_bit_pair.
      destruct (round_b_prod v (w :: vs)) as (v' & vs' & Hr & Hp).
      pose proof (round_b_length (v :: w :: vs) ltac:(simpl; lia)) as Hl.
      rewrite Hr in *. rewrite IH; [by rewrite Hp|].
      simpl in *. lia.
Qed.

Lemma foldl_xor_int_bits (p : Z) (x : bool) (l : list bool) :
  foldl (xor_int players threshold) (Resolved (bitF x : GFp p))
    ((λ b, Resolved (field b)) <$> (Z.b2z <$> l))
  = Resolved (bitF (foldl xorb x l)).
Proof.
  revert x. induction l as [|y l IH]; intros x; [done|].
  rewrite !fmap_cons. cbn [foldl]. unfold bitF at 1.
  rewrite xor_int_bits by done. exact (IH _).
Qed.

(** [convert_bit_share] from a prime field into [GF256] keeps a bit,
    whatever bits the players contribute. *)
Lemma convert_bit_share_bit (p : Z) (x : bool) (l : list bool) :
  1 < p →
  convert_bit_share players threshold (Src := GFp p) (Dst := GF256)
    (Resolved (bitF x)) (Z.b2z <$> l)
  = Resolved (bitF x).
Proof.
  intros Hp. unfold convert_bit_share.
  change (is_GF256 (F := GFp p)) with false.
  change (is_GF256 (F := GF256)) with true. cbv iota.
  rewrite foldl_xor_int_bits, open_resolved by done.
  cbn [mbind future_bind mret future_ret].
  assert (value (bitF (foldl xorb x l) : GFp p) = Z.b2z (foldl xorb x l)) as ->.
  { apply gfp_value_field. destruct (foldl xorb x l); simpl; lia. }
  change (field (Z.b2z (foldl xorb x l)) : GF256)
    with (bitF (foldl xorb x l) : GF256).
  rewrite foldl_xor_bit_bits. do 2 f_equal.
  rewrite (foldl_xorb_acc (foldl xorb x l)), (foldl_xorb_acc x).
  by rewrite xorb_assoc, xorb_nilpotent, xorb_false_r.
Qed.

(** X26.  In a runtime with more than twice as many players as the
    threshold, for inputs below [2^32] and random bits that resolve,
    whatever these bits and the players' conversion bits are,
    [greater_than] resolves to the [GF256] element of the truth value
    of [a >= b], provided its two assertions hold. *)
Theorem greater_than_correct (p a b : Z) (rs : list bool)
    (player_bits : nat → list bool) :
  2 ^ 33 + 2 ^ 35 < p → players + 2 < 2 ^ 32 →
  0 <= a < 2 ^ 32 → 0 <= b < 2 ^ 32 → (34 <= length rs)%nat →
  greater_than (F := GFp p) players threshold (Resolved (field a))
    (Resolved (field b)) (Resolved <$> (bitF <$> rs))
    (λ i, Z.b2z <$> player_bits i)
  = Ok (Resolved (bitF (b <=? a))).
Proof.
  intros Hp Hn Ha Hb Hlen. unfold greater_than.
  change (modulus (F := GFp p)) with p.
  rewrite assert_pass by (apply Z.ltb_lt; lia).
  rewrite assert_pass by (apply Z.ltb_lt; lia).
  change (Z.to_nat (32 + 2)) with 34%nat. rewrite <- !fmap_take.
  set (rs' := take 34 rs).
  assert (length rs' = 34%nat) as Hlen' by (unfold rs'; rewrite length_take; lia).
  rewrite gather_resolved. cbn [mbind future_bind mret future_ret].
  rewrite bits_to_int_bits.
  pose proof (bits_value_bound rs') as Hr. rewrite Hlen' in Hr.
  set (r := bits_value rs') in *.
  rewrite !sub_resolved, !add_resolved, open_resolved by done.
  rewrite !gfp_sub_field, !gfp_add_field.
  rewrite <- list_fmap_compose.
  rewrite (imap_fmap_const _ (Resolved ∘ bitF) (Resolved ∘ bitF))
    by (intros i x; apply convert_bit_share_bit; lia).
  set (Tz := 2 ^ (32 + 2 + 1) - r + (a - b + 2 ^ 32)).
  assert (value (field Tz : GFp p) = Tz) as HT
    by (apply gfp_value_field; unfold Tz; lia).
  rewrite list_fmap_compose, existsb_pending_resolved.
  cbn [is_pending orb mret result_ret]. f_equal.
  unfold _finish_greater_than.
  unfold bit. rewrite HT.
  rewrite slice_to_nonneg by lia. change (Z.to_nat 32) with 32%nat.
  rewrite <- list_fmap_compose, <- fmap_take.
  rewrite (finish_vector (Z.testbit Tz) (take 32 rs')).
  change (Resolved (field 0 : GF256), Resolved (field 0 : GF256))
    with (bit_pair (false, false)).
  rewrite <- fmap_cons, length_fmap, diamond_reduce_prod by done.
  rewrite length_take, Hlen'. change (32 `min` 34)%nat with 32%nat.
  destruct (lookup_lt_is_Some_2 rs' 32 ltac:(lia)) as [x32 Hx32].
  rewrite list_lookup_fmap, Hx32.
  cbn [fmap option_fmap option_map bit_pair snd compose].
  change (field (Z.b2z (Z.testbit Tz 32)) : GF256)
    with (bitF (Z.testbit Tz 32) : GF256).
  unfold xor_bit. rewrite !add_resolved, !gf256_bit_add. do 2 f_equal.
  rewrite <- (testbit_32_of_difference a b Ha Hb).
  replace (2 ^ 35 + 2 ^ 32 + a - b) with (Tz + r) by (unfold Tz; lia).
  pose proof (add_bit_by_carry Tz r 32) as Hc.
  change (Z.of_nat 32) with 32 in Hc. rewrite Hc. clear Hc.
  pose proof (bits_value_testbit rs' 32) as H32. rewrite Hx32 in H32.
  change (Z.of_nat 32) with 32 in H32. simpl default in H32. fold r in H32.
  rewrite H32. do 4 f_equal.
  apply list_fmap_ext. intros i j Hj.
  apply lookup_seq in Hj as [-> Hi]. simpl.
  rewrite lookup_take_lt by lia. by rewrite <- bits_value_testbit.
Qed.
End VariantA.

(** *** Variant B: arithmetic on bits *)

Lemma foldl_add_fields (p : Z) (x : Z) (ms : list Z) :
  foldl add (Resolved (field x : GFp p)) ((λ m, Resolved (field m)) <$> ms)
  = Resolved (field (x + foldr Z.add 0 ms)).
Proof.
  revert x. induction ms as [|m ms IH]; intros x.
  - simpl. do 3 f_equal. lia.
  - rewrite fmap_cons. cbn [foldl foldr]. rewrite add_resolved.
    rewrite gfp_add_field, IH. do 2 f_equal. lia.
Qed.

Lemma field_value_field (p x : Z) :
  (field (value (field x : GFp p)) : GFp p) = field x.
Proof. simpl. by rewrite Zmod_mod. Qed.

Lemma small_field_bound (l p : Z) :
  0 <= l → 2 ^ (l + 3) + 2 ^ (l + 31) < p → 6 + 3 * l < p.
Proof.
  intros Hl Hp.
  pose proof (Z.pow_gt_lin_r 2 (l + 3) ltac:(lia) ltac:(lia)).
  replace (l + 31) with (l + 3 + 28) in Hp by lia.
  rewrite (Z.pow_add_r 2 (l + 3) 28) in Hp by lia.
  change (2 ^ 28) with 268435456 in Hp. lia.
Qed.

Lemma product_app (xs ys : list Z) :
  product (xs ++ ys) = product xs * product ys.
Proof.
  unfold product. induction xs as [|x xs IH]; simpl; [lia|].
  rewrite IH. ring.
Qed.

Lemma xor_count_bound (rs cs : list bool) :
  0 <= xor_count rs cs <= Z.of_nat (length rs).
Proof.
  revert cs. induction rs as [|r rs IH]; intros [|c cs]; simpl xor_count;
    rewrite ?length_cons, ?Nat2Z.inj_succ; try lia.
  specialize (IH cs). destruct (xorb r c); simpl Z.b2z; lia.
Qed.

Lemma xor_count_zero (rs cs : list bool) :
  length rs = length cs → xor_count rs cs = 0 ↔ rs = cs.
Proof.
  revert cs. induction rs as [|r rs IH]; intros [|c cs] Hlen; try done.
  simpl xor_count. pose proof (xor_count_bound rs cs) as Hb.
  specialize (IH cs ltac:(simpl in Hlen; lia)).
  split.
  - intros Hz. destruct r, c; simpl in Hz; try lia; f_equal; apply IH; lia.
  - intros [= -> ->]. rewrite xorb_nilpotent. simpl. by apply IH.
Qed.

Lemma bits_value_inj (rs cs : list bool) :
  length rs = length cs → bits_value rs = bits_value cs → rs = cs.
Proof.
  revert cs. induction rs as [|r rs IH]; intros [|c cs] Hlen; try done.
  simpl bits_value. intros Hv.
  assert (bits_value rs = bits_value cs ∧ r = c) as [Hv' ->].
  { destruct r, c; simpl in Hv; split; try done; lia. }
  f_equal. apply IH; [simpl in Hlen; lia|done].
Qed.

Lemma evidence_bound (s : bool) (rs cs : list bool) :
  Forall (λ e, -2 <= e <= 3 * Z.of_nat (length rs)) (evidence s rs cs).
Proof.
  revert cs. induction rs as [|r rs IH]; intros [|c cs]; simpl evidence;
    try apply Forall_nil_2.
  apply Forall_cons. split.
  - pose proof (xor_count_bound rs cs). rewrite length_cons, Nat2Z.inj_succ.
    destruct s, r, c; simpl Z.b2z; lia.
  - eapply Forall_impl; [apply IH|]. simpl. intros e He.
    rewrite Nat2Z.inj_succ. lia.
Qed.

Lemma evidence_same (s : bool) (rs : list bool) :
  Forall (λ e, e ≠ 0) (evidence s rs rs).
Proof.
  induction rs as [|r rs IH]; simpl evidence; [apply Forall_nil_2|].
  apply Forall_cons. split; [|done].
  rewrite (proj2 (xor_count_zero rs rs eq_refl) eq_refl).
  destruct s; simpl; lia.
Qed.

(** Some evidence term is zero exactly when the sign bit points at the
    larger of the two numbers: with [s = 1] when [r > c], with [s = 0]
    when [r < c]. *)
Lemma evidence_zero (s : bool) (rs cs : list bool) :
  length rs = length cs → rs ≠ cs →
  Exists (λ e, e = 0) (evidence s rs cs) ↔
  if s then bits_value cs < bits_value rs
  else bits_value rs < bits_value cs.
Proof.
  revert cs. induction rs as [|r rs IH]; intros [|c cs] Hlen Hne; try done.
  simpl in Hlen. assert (length rs = length cs) as Hlen' by lia.
  simpl evidence. simpl bits_value. rewrite Exists_cons.
  pose proof (xor_count_bound rs cs) as Hb.
  destruct (decide (rs = cs)) as [->|Hne'].
  - rewrite (proj2 (xor_count_zero cs cs eq_refl) eq_refl).
    assert (r ≠ c) as Hrc by congruence.
    pose proof (evidence_same s cs) as Hs.
    rewrite Forall_forall in Hs.
    assert (¬ Exists (λ e, e = 0) (evidence s cs cs)) as Hno.
    { intros (e & Hin & He)%Exists_exists. by apply (Hs e). }
    destruct s, r, c; simpl Z.b2z; try done; split; try lia; try tauto.
    all: intros [|]; try lia; try done.
  - assert (xor_count rs cs ≠ 0) as Hx by (by rewrite xor_count_zero).
    assert (bits_value rs ≠ bits_value cs) as Hv
      by (intros Hv; by apply Hne', bits_value_inj).
    specialize (IH cs Hlen' Hne').
    split.
    + intros [He|He].
      * destruct s, r, c; simpl Z.b2z in He; lia.
      * apply IH in He. destruct s, r, c; simpl Z.b2z; lia.
    + intros Hlt. right. apply IH. destruct s, r, c; simpl Z.b2z in Hlt; lia.
Qed.

Lemma product_zero_mod (p : Z) (xs : list Z) :
  Z.prime p →
  product xs mod p = 0 ↔ Exists (λ x, x mod p = 0) xs.
Proof.
  intros Hp. pose proof (Z.prime_ge_2 p Hp) as Hp2.
  induction xs as [|x xs IH].
  - unfold product. simpl. rewrite Z.mod_small by lia.
    split; [lia|]. intros H. by apply Exists_nil in H.
  - rewrite Exists_cons, <- IH. unfold product. cbn [foldr].
    rewrite !Z.mod_divide by lia. by apply Z.divide_prime_mul.
Qed.

(** *** Variant B: low bits *)

Lemma bits_value_take_drop (bs : list bool) (n : nat) :
  (n <= length bs)%nat →
  bits_value bs
  = bits_value (take n bs) + 2 ^ Z.of_nat n * bits_value (drop n bs).
Proof.
  revert bs. induction n as [|n IH]; intros bs Hlen.
  - rewrite take_0, drop_0. simpl bits_value. change (2 ^ Z.of_nat 0) with 1.
    lia.
  - destruct bs as [|b bs]; [simpl in Hlen; lia|].
    rewrite firstn_cons, skipn_cons. simpl bits_value.
    rewrite (IH bs) at 1 by (simpl in Hlen; lia).
    rewrite Nat2Z.inj_succ, Z.pow_succ_r by lia. ring.
Qed.

Lemma low_bits_succ (x : Z) (n : nat) :
  0 <= x →
  low_bits x (S n) = Z.testbit x 0 :: low_bits (x / 2) n.
Proof.
  intros Hx. unfold low_bits. simpl seq. rewrite fmap_cons. f_equal.
  rewrite <- fmap_S_seq, <- list_fmap_compose.
  apply list_fmap_ext. intros i j _. unfold compose.
  rewrite Nat2Z.inj_succ. by rewrite <- Z.div2_bits by lia.
Qed.

Lemma bits_value_low_bits (x : Z) (n : nat) :
  0 <= x → bits_value (low_bits x n) = x mod 2 ^ Z.of_nat n.
Proof.
  revert x. induction n as [|n IH]; intros x Hx.
  - simpl. by rewrite Z.mod_1_r.
  - rewrite low_bits_succ by done. cbn [bits_value].
    rewrite IH by (apply Z.div_pos; lia).
    rewrite Nat2Z.inj_succ, Z.pow_succ_r by lia.
    rewrite Z.rem_mul_r by lia.
    by rewrite Z.bit0_mod.
Qed.

Lemma low_bits_length (x : Z) (n : nat) : length (low_bits x n) = n.
Proof. unfold low_bits. by rewrite length_fmap, length_seq. Qed.

(** The arithmetic at the end of variant B. *)
Lemma underflow_arithmetic (H a b rm hi cm : Z) :
  0 < H → 0 <= a < H → 0 <= b < H → 0 <= rm < 2 * H → 0 <= hi →
  let zz := 2 * a + 1 - 2 * b + 2 * H in
  cm = (rm + 2 * H * hi + zz) mod (2 * H) →
  cm ≠ rm ∧
  zz - (cm - rm + Z.b2z (cm <? rm) * (2 * H)) = Z.b2z (b <=? a) * (2 * H).
Proof.
  intros HH Ha Hb Hrm Hhi zz Hcm.
  pose proof (Z.mod_pos_bound (rm + 2 * H * hi + zz) (2 * H) ltac:(lia)) as Hb1.
  pose proof (Z.div_mod (rm + 2 * H * hi + zz) (2 * H) ltac:(lia)) as Hdm.
  rewrite <- Hcm in Hb1, Hdm.
  set (q := (rm + 2 * H * hi + zz) / (2 * H)) in *.
  assert (∃ d, q = hi + d) as [d ->] by (exists (q - hi); lia).
  assert (rm + zz = 2 * H * d + cm) as Hd by lia.
  assert (0 <= d <= 2) as Hdr by (unfold zz in *; nia).
  unfold zz in *. clear Hdm Hcm.
  assert (d = 0 ∨ d = 1 ∨ d = 2) as [->|[->| ->]] by lia;
    destruct (Z.ltb_spec cm rm), (Z.leb_spec b a); simpl Z.b2z;
    split; lia.
Qed.

Lemma finish_c_bits (p cz : Z) (n : nat) :
  0 <= cz < p →
  (λ i, field (bit (field cz : GFp p) (Z.of_nat i)) : GFp p) <$> seq 0 n
  = bitF <$> low_bits cz n.
Proof.
  intros Hc. unfold low_bits. rewrite <- list_fmap_compose.
  apply list_fmap_ext. intros i j _. unfold compose, bit, bitF.
  by rewrite gfp_value_field.
Qed.

(** *** Variant B computes [a >= b] unless the mask is zero *)

Section VariantB.
Variable players : Z.
Variable threshold : nat.
Hypothesis enough : 2 * Z.of_nat threshold < players.

Lemma weighted_sum_loop (p : Z) (bs : list bool) (k : nat) (acc : Z) :
  foldl add (Resolved (field acc : GFp p))
    (imap (λ i b, mul players threshold b
                    (Resolved (field (2 ^ Z.of_nat (k + i)))))
       (Resolved ∘ bitF <$> bs))
  = Resolved (field (acc + 2 ^ Z.of_nat k * bits_value bs)).
Proof.
  revert k acc. induction bs as [|b bs IH]; intros k acc.
  - simpl. do 3 f_equal. lia.
  - rewrite fmap_cons. cbn [imap foldl compose].
    rewrite mul_resolved, add_resolved by done. unfold bitF at 1.
    rewrite gfp_mul_field, gfp_add_field.
    erewrite imap_ext; [rewrite (IH (S k))|].
    + do 2 f_equal. simpl bits_value. rewrite Nat.add_0_r.
      rewrite Nat2Z.inj_succ, Z.pow_succ_r by lia. ring.
    + intros i x _. unfold compose.
      by replace (k + S i)%nat with (S k + i)%nat by lia.
Qed.

Lemma weighted_sum_bits (p : Z) (bs : list bool) :
  weighted_sum (F := GFp p) players threshold (Resolved ∘ bitF <$> bs)
  = Resolved (field (bits_value bs)).
Proof.
  unfold weighted_sum.
  transitivity (Resolved (field (0 + 2 ^ Z.of_nat 0 * bits_value bs) : GFp p)).
  - exact (weighted_sum_loop p bs 0 0).
  - do 2 f_equal. change (2 ^ Z.of_nat 0) with 1. lia.
Qed.

(** Converting within one field gives the share back. *)
Lemma convert_bit_share_II_same (p x : Z) (masks : list Z) :
  masks ≠ [] →
  convert_bit_share_II players threshold (Src := GFp p) (Dst := GFp p)
    (Resolved (field x)) masks
  = Ok (Resolved (field x)).
Proof.
  intros Hne. unfold convert_bit_share_II.
  rewrite foldl_add_fields, open_resolved by done.
  cbn [mbind future_bind mret future_ret]. rewrite field_value_field.
  destruct masks as [|m ms]; [done|].
  rewrite fmap_cons, foldl_add_fields. cbn [mbind result_bind mret result_ret].
  rewrite sub_resolved, gfp_sub_field. do 3 f_equal. cbn [foldr]. lia.
Qed.

Lemma greater_thanII_preproc_bits (p l : Z) (rs : list bool) (s : bool)
    (masks : list Z) (m m2 : Z) :
  0 <= l → 2 ^ (l + 3) + 2 ^ (l + 31) < p → masks ≠ [] →
  greater_thanII_preproc (F := GFp p) players threshold (Some l) (Some 30)
    (mk_preproc_draws (Resolved ∘ bitF <$> rs) (Resolved (bitF s)) masks
       (field m) (field m2))
  = Ok (mk_preproc_result (Resolved (bitF s))
          (Resolved (field (1 - 2 * Z.b2z s))) (Resolved (field m))
          (Resolved (field (bits_value (take (Z.to_nat (l + 1 + 30)) rs))))
          (Resolved (field (bits_value (take (Z.to_nat (l + 1)) rs))))
          (Resolved ∘ bitF <$> take (Z.to_nat (l + 1)) rs)).
Proof.
  intros Hl Hp Hmasks. pose proof (small_field_bound l p Hl Hp) as Hs.
  unfold greater_thanII_preproc. simpl default.
  change (modulus (F := GFp p)) with p.
  rewrite preproc_asserts_spec.
  replace (2 ^ (l + 1 + 2) + 2 ^ (l + 1 + 30) <? p) with true
    by (symmetry; apply Z.ltb_lt;
        replace (l + 1 + 2) with (l + 3) by lia;
        replace (l + 1 + 30) with (l + 31) by lia; done).
  replace (3 + 3 * (l + 1) <? p) with true by (symmetry; apply Z.ltb_lt; lia).
  cbn [mbind result_bind mret result_ret draw_bits draw_s_bit draw_conv_masks
         draw_mask draw_mask_2].
  rewrite <- fmap_take, slice_to_nonneg by lia.
  rewrite <- fmap_take, take_take.
  replace (Z.to_nat (l + 1) `min` Z.to_nat (l + 1 + 30))%nat
    with (Z.to_nat (l + 1)) by lia.
  rewrite !weighted_sum_bits.
  pose proof (convert_bit_share_II_same p (Z.b2z s) masks Hmasks) as Hconv.
  fold (bitF s : GFp p) in Hconv. rewrite Hconv.
  cbn [mbind result_bind mret result_ret].
  rewrite mul_resolved, add_resolved by done. unfold bitF at 2.
  rewrite gfp_mul_field, gfp_add_field.
  replace (1 + Z.b2z s * -2) with (1 - 2 * Z.b2z s) by lia.
  reflexivity.
Qed.

Lemma sumXORs_bits (p : Z) (rs cs : list bool) :
  sumXORs (F := GFp p) players threshold (Resolved ∘ bitF <$> rs)
    (bitF <$> cs)
  = Resolved ∘ field <$> suffix_counts rs cs.
Proof.
  revert cs. induction rs as [|r rs IH]; intros [|c cs]; try done.
  rewrite !fmap_cons. cbn [sumXORs suffix_counts]. rewrite IH.
  destruct rs as [|r1 rs], cs as [|c1 cs]; try done.
  rewrite !fmap_cons. cbn [suffix_counts fmap list_fmap xor_count compose].
  unfold bitF. rewrite xor_int_bits, add_resolved, gfp_add_field by done.
  do 3 f_equal. lia.
Qed.

Lemma evidence_bits (p : Z) (s : bool) (rs cs : list bool)
    (sgn : future (GFp p)) :
  sgn = Resolved (field (1 - 2 * Z.b2z s)) → length rs = length cs →
  imap (λ (i : nat) (ri : future (GFp p)),
          add (add sgn
                 (sub ri (Resolved
                            (default (field 0) ((bitF <$> cs) !! i)))))
            (mul players threshold (Resolved (field 3))
               (default (Resolved (field 0))
                  ((Resolved ∘ field <$> suffix_counts rs cs) !! i))))
       (Resolved ∘ bitF <$> rs)
  = Resolved ∘ field <$> evidence s rs cs.
Proof.
  intros ->. revert cs.
  induction rs as [|r rs IH]; intros [|c cs] Hlen; try done.
  cbn [suffix_counts evidence]. rewrite !fmap_cons. cbn [imap]. f_equal.
  - cbv zeta. cbn [lookup list_lookup default from_option id compose].
    rewrite sub_resolved, add_resolved, mul_resolved, add_resolved by done.
    unfold bitF.
    by rewrite gfp_sub_field, gfp_add_field, gfp_mul_field, gfp_add_field.
  - rewrite <- IH by (simpl in Hlen; lia).
    apply imap_ext. intros i x _. done.
Qed.

Lemma mul_queue_product (p : Z) (fuel : nat) (x : Z) (xs : list Z) :
  (length (x :: xs) <= fuel)%nat →
  mul_queue (F := GFp p) players threshold fuel
    (Resolved ∘ field <$> (x :: xs))
  = [Resolved (field (product (x :: xs)))].
Proof.
  revert x xs. induction fuel as [|fuel IH]; intros x xs Hlen.
  - simpl in Hlen. lia.
  - destruct xs as [|y xs].
    + unfold product. cbn [foldr]. by rewrite Z.mul_1_r.
    + rewrite !fmap_cons. cbn [mul_queue compose].
      rewrite mul_resolved by done.
      rewrite gfp_mul_field.
      change [Resolved (field (x * y) : GFp p)]
        with (Resolved ∘ field <$> [x * y] : list (future (GFp p))).
      rewrite <- fmap_app.
      destruct (xs ++ [x * y]) as [|z zs] eqn:E.
      { by destruct xs. }
      rewrite IH.
      * rewrite <- E, product_app. do 3 f_equal.
        unfold product. cbn [foldr]. ring.
      * rewrite <- E, length_app. simpl in *. lia.
Qed.

(** X27.  In a runtime with more than twice as many players as the
    threshold and a prime field that satisfies the assertions, for
    inputs below [2^l] and random bits that resolve, whatever these
    bits, the sign bit and the conversion masks are, [greater_thanII]
    resolves to the truth value of [a >= b] as soon as the first mask
    is not zero. *)
Theorem greater_thanII_correct (p l a b : Z) (rs : list bool) (s : bool)
    (masks : list Z) (m m2 : Z) :
  Z.prime p → 0 <= l → 2 ^ (l + 3) + 2 ^ (l + 31) < p →
  0 <= a < 2 ^ l → 0 <= b < 2 ^ l →
  (Z.to_nat (l + 31) <= length rs)%nat →
  masks ≠ [] → m mod p ≠ 0 →
  greater_thanII (F := GFp p) players threshold (Resolved (field a))
    (Resolved (field b)) (Some l)
    (mk_preproc_draws (Resolved <$> (bitF <$> rs)) (Resolved (bitF s)) masks
       (field m) (field m2))
  = Ok (Resolved (bitF (b <=? a))).
Proof.
  intros Hprime Hl Hp Ha Hb Hlen Hmasks Hm.
  unfold greater_thanII. simpl default.
  rewrite <- list_fmap_compose.
  rewrite greater_thanII_preproc_bits by done.
  cbn [mbind result_bind].
  unfold greater_thanII_online. simpl default.
  cbn [r_bits r_full].
  set (L := l + 1). set (n := Z.to_nat L).
  set (rsL := take n rs). set (rs1 := take (Z.to_nat (L + 30)) rs).
  assert (length rsL = n) as HlenL by (unfold rsL; rewrite length_take; lia).
  assert (length rs1 = Z.to_nat (L + 30)) as Hlen1
    by (unfold rs1; rewrite length_take; lia).
  rewrite assert_pass by (rewrite length_fmap, HlenL; apply Z.eqb_eq; lia).
  rewrite !mul_resolved, !add_resolved, !sub_resolved, !add_resolved,
    open_resolved by done.
  rewrite !gfp_mul_field, !gfp_add_field, !gfp_sub_field, !gfp_add_field.
  cbn [mret result_ret mbind future_bind]. f_equal.
  set (R := bits_value rs1). set (zz := 2 * a + 1 - 2 * b + 2 ^ L).
  assert (0 < 2 ^ l) as HX by (apply Z.pow_pos_nonneg; lia).
  assert (2 ^ L = 2 * 2 ^ l) as HL
    by (unfold L; rewrite Z.pow_add_r by lia; change (2 ^ 1) with 2; lia).
  assert (2 ^ (l + 3) = 8 * 2 ^ l) as H3
    by (rewrite Z.pow_add_r by lia; change (2 ^ 3) with 8; lia).
  assert (2 ^ (l + 31) = 2147483648 * 2 ^ l) as H31
    by (rewrite Z.pow_add_r by lia; change (2 ^ 31) with 2147483648; lia).
  pose proof (bits_value_bound rs1) as HR. rewrite Hlen1 in HR.
  rewrite Z2Nat.id in HR by lia.
  replace (L + 30) with (l + 31) in HR by (unfold L; lia). fold R in HR.
  set (cz := R + zz).
  assert (0 <= cz < p) as Hcz by (unfold cz, zz; lia).
  unfold _finish_greater_thanII. cbn [r_bits s_sign mask s_bit r_modl].
  fold n. rewrite (finish_c_bits p cz n Hcz).
  set (cbs := low_bits cz n).
  assert (length cbs = n) as Hlenc by apply low_bits_length.
  rewrite sumXORs_bits.
  rewrite (evidence_bits p s rsL cbs _ eq_refl) by congruence.
  change [Resolved (field m : GFp p)]
    with (Resolved ∘ field <$> [m] : list (future (GFp p))).
  rewrite <- fmap_app, length_fmap.
  destruct (evidence s rsL cbs ++ [m]) as [|e0 es] eqn:Eev.
  { by destruct (evidence s rsL cbs). }
  rewrite mul_queue_product by done. rewrite <- Eev. clear e0 es Eev.
  rewrite open_resolved by done. cbn [mbind future_bind mret future_ret].
  rewrite (gfp_value_field p cz Hcz).
  (* the low parts of [r] and [c] *)
  assert (Z.of_nat n = L) as HnL by (unfold n, L; lia).
  set (rm := bits_value rsL).
  assert (bits_value cbs = cz mod 2 ^ L) as Hcm
    by (unfold cbs; rewrite bits_value_low_bits, HnL; [done|lia]).
  set (cm := cz mod 2 ^ L) in *.
  pose proof (bits_value_bound rsL) as Hrm. rewrite HlenL, HnL in Hrm.
  fold rm in Hrm.
  pose proof (bits_value_take_drop rs1 n ltac:(rewrite Hlen1; unfold n; lia))
    as Hsplit.
  assert (take n rs1 = rsL) as Htt.
  { unfold rs1, rsL. rewrite take_take. f_equal. unfold n. lia. }
  rewrite Htt, HnL in Hsplit. fold R rm in Hsplit.
  pose proof (bits_value_bound (drop n rs1)) as [Hhi _].
  set (hi := bits_value (drop n rs1)) in *.
  destruct (underflow_arithmetic (2 ^ l) a b rm hi cm) as [Hne Harith];
    try lia.
  { unfold cm, cz, zz. rewrite Hsplit, HL. done. }
  (* the opened product is zero exactly when the sign bit points at the
     larger low part *)
  assert (rsL ≠ cbs) as Hlists by (intros Heq; apply Hne; by rewrite <- Hcm, <- Heq).
  assert (negb (value (field (product (evidence s rsL cbs ++ [m])) : GFp p) =? 0)
          = xorb (cm <? rm) s) as Hnz.
  { simpl value.
    assert (product (evidence s rsL cbs ++ [m]) mod p = 0 ↔
            if s then cm < rm else rm < cm) as Hz.
    { rewrite product_zero_mod, Exists_app, Exists_cons, Exists_nil by done.
      rewrite <- Hcm. unfold rm.
      rewrite <- (evidence_zero s rsL cbs) by congruence.
      pose proof (evidence_bound s rsL cbs) as Hbound.
      rewrite HlenL, HnL in Hbound.
      pose proof (small_field_bound l p Hl Hp) as Hsmall.
      split.
      - intros [Hex|[Hm'|[]]]; [|done].
        apply Exists_exists in Hex as (e & Hin & He).
        apply Exists_exists. exists e. split; [done|].
        rewrite Forall_forall in Hbound. specialize (Hbound e Hin).
        apply Z.mod_divide in He as [k Hk]; [|lia].
        assert (k = 0) by (unfold L in *; nia). lia.
      - intros Hex. left.
        apply Exists_exists in Hex as (e & Hin & ->).
        apply Exists_exists. exists 0. split; [done|].
        apply Z.mod_0_l. lia. }
    destruct s.
    - destruct (Z.ltb_spec cm rm) as [Hlt|Hge]; simpl.
      + rewrite (proj2 Hz Hlt). done.
      + destruct (Z.eqb_spec (product (evidence true rsL cbs ++ [m]) mod p) 0)
          as [E|E]; [apply Hz in E; lia|done].
    - destruct (Z.ltb_spec cm rm) as [Hlt|Hge]; simpl.
      + destruct (Z.eqb_spec (product (evidence false rsL cbs ++ [m]) mod p) 0)
          as [E|E]; [apply Hz in E; lia|done].
      + rewrite (proj2 Hz ltac:(lia)). done. }
  rewrite Hnz. unfold bitF at 1. rewrite xor_int_bits by done.
  replace (xorb (xorb (cm <? rm) s) s) with (cm <? rm)
    by (by destruct (cm <? rm), s).
  rewrite mul_resolved, sub_resolved, add_resolved, sub_resolved,
    mul_resolved by done.
  rewrite gfp_mul_field, gfp_sub_field, gfp_add_field, gfp_sub_field.
  unfold zz. rewrite HL, Harith. f_equal. simpl. unfold bitF. simpl. f_equal.
  assert (0 < 2 * 2 ^ l < p) as H2l by lia.
  rewrite (Z.mod_small (2 * 2 ^ l)) by lia.
  rewrite Zmult_mod_idemp_l, <- Z.mul_assoc, <- Zmult_mod_idemp_r.
  rewrite (Z.mul_comm (2 * 2 ^ l)), Z.invmod_prime; [|done|].
  - by rewrite Z.mul_1_r.
  - rewrite Z.mod_small; lia.
Qed.
End VariantB.

(** *** An instance of variant B *)

Lemma no_divisor_spec (p d : Z) (fuel : nat) :
  no_divisor p d fuel = true →
  ∀ x, d <= x < d + Z.of_nat fuel → p mod x ≠ 0.
Proof.
  revert d. induction fuel as [|fuel IH]; intros d Hc x Hx; [lia|].
  simpl in Hc. destruct (Z.eqb_spec (p mod d) 0) as [|Hd]; [done|].
  destruct (decide (x = d)) as [->|]; [done|].
  apply (IH (d + 1) Hc). lia.
Qed.

Lemma prime_check_sound (p : Z) : prime_check p = true → Z.prime p.
Proof.
  intros [Hp Hc]%andb_true_iff. apply Z.ltb_lt in Hp.
  split; [done|]. intros n Hn [k Hk].
  pose proof (no_divisor_spec _ _ _ Hc) as Hnd.
  rewrite Z2Nat.id in Hnd by (pose proof (Z.sqrt_pos p); lia).
  assert (1 < k < p) as Hk' by nia.
  assert (∀ x y, 1 < x → x <= y → p = y * x → False) as Hsmall.
  { intros x y Hx Hxy Hpxy. apply (Hnd x).
    - split; [lia|]. assert (x <= Z.sqrt p); [|lia].
      apply Z.sqrt_le_square; nia.
    - rewrite Hpxy. apply Z.mod_mul. lia. }
  destruct (Z.le_gt_cases n k).
  - apply (Hsmall n k); lia.
  - apply (Hsmall k n); lia.
Qed.

Lemma prime_8589934627 : Z.prime 8589934627.
Proof. apply prime_check_sound. vm_compute. reflexivity. Qed.

(** Bit-length 2 in the field of 8589934627 elements, three players
    with threshold 1: the inputs range over [0..3]; with the random bits
    of [2863311530], sign bit [1] and mask [77] the hypotheses of
    [greater_thanII_correct] hold. *)
Example greater_thanII_correct_instance :
  greater_thanII (F := GFp 8589934627) 3 1 (Resolved (field 3))
    (Resolved (field 2)) (Some 2)
    (mk_preproc_draws (Resolved <$> (bitF <$> low_bits 2863311530 33))
       (Resolved (bitF true)) [5; 77; 1234] (field 77) (field 9))
  = Ok (Resolved (bitF true)).
Proof.
  apply (greater_thanII_correct 3 1 ltac:(simpl; lia) 8589934627 2 3 2
           (low_bits 2863311530 33) true [5; 77; 1234] 77 9).
  - apply prime_8589934627.
  - lia.
  - vm_compute. reflexivity.
  - lia.
  - lia.
  - rewrite low_bits_length. lia.
  - done.
  - vm_compute. discriminate.
Defined.

(** ** Further properties of the runtime and its companions *)

(** *** More on the pending-share table *)

(** X1.  Request first, message second: for a peer other than the
    player itself and a key not yet in the table,
    [_exchange_shares] hands out a pending share and queues the
    player's own share for sending; the peer's message removes the
    table entry, and the reactor's next step fires that very share
    with the value received. *)
Theorem exchange_before_message_delivers (self_id id : Z) (pc : list Z)
    (mine theirs : Z) (net : Exchange) :
  id ≠ self_id → incoming_shares net !! (pc, id) = None →
  delayed_calls net = [] →
  ∃ a net1 net3,
    _exchange_shares self_id pc id mine net = (a, net1) ∧
    share_store net1 !! a = Some None ∧
    outbox net1 = outbox net ++ [(id, pc, mine)] ∧
    incoming_shares (stringReceived id pc theirs net1) !! (pc, id) = None ∧
    reactor_step (stringReceived id pc theirs net1) = Ok net3 ∧
    share_store net3 !! a = Some (Some theirs) ∧
    delayed_calls net3 = [] ∧
    outbox net3 = outbox net1.
Proof.
  intros Hid Hnone Hq.
  destruct (exchange_then_message self_id id pc mine theirs net Hid Hnone Hq)
    as (a & net1 & net3 & E & Hi & Hs & Hd & Hr & Hs3 & Hi3).
  exists a, net1, net3. split_and!; try done.
  - unfold _exchange_shares in E. rewrite decide_False in E by done.
    rewrite Hnone in E. simpl in E. by injection E as <- <-.
  - unfold stringReceived in Hr. rewrite Hi in Hr.
    unfold reactor_step in Hr. simpl in Hr.
    unfold _exchange_shares in E. rewrite decide_False in E by done.
    rewrite Hnone in E. simpl in E. injection E as <- <-. simpl in *.
    rewrite Hq in Hr. simpl in Hr. rewrite Hs in Hr. by injection Hr as <-.
  - unfold stringReceived in Hr. rewrite Hi in Hr.
    unfold reactor_step in Hr. simpl in Hr.
    unfold _exchange_shares in E. rewrite decide_False in E by done.
    rewrite Hnone in E. simpl in E. injection E as <- <-. simpl in *.
    rewrite Hq in Hr. simpl in Hr. rewrite Hs in Hr. by injection Hr as <-.
Qed.

Lemma exchange_before_message_delivers_witness :
  ∃ a net1 net3,
    _exchange_shares 1 [1; 0] 2 7 Exchange_init = (a, net1) ∧
    reactor_step (stringReceived 2 [1; 0] 42 net1) = Ok net3 ∧
    share_store net3 !! a = Some (Some 42).
Proof.
  destruct (exchange_before_message_delivers 1 2 [1; 0] 7 42 Exchange_init)
    as (a & net1 & net3 & E & _ & _ & _ & Hr & Hs & _).
  - lia.
  - apply lookup_empty.
  - reflexivity.
  - by exists a, net1, net3.
Defined.

(** X2.  A second message under a key nobody has asked for yet: the
    first message stored a fired share, the second one pops it and
    schedules another [callback] on it.  The table entry is gone, the
    reactor's call raises [AlreadyCalledError], and a later
    [_exchange_shares] for that key gets a new pending share: the value
    of the first message is no longer reachable through the table. *)
Theorem duplicate_message_drops_share (self_id id : Z) (pc : list Z)
    (first second mine : Z) (net : Exchange) :
  id ≠ self_id → incoming_shares net !! (pc, id) = None →
  delayed_calls net = [] →
  let net1 := stringReceived id pc first net in
  let net2 := stringReceived id pc second net1 in
  let stored := length (share_store net) in
  incoming_shares net1 !! (pc, id) = Some stored ∧
  share_store net1 !! stored = Some (Some first) ∧
  incoming_shares net2 !! (pc, id) = None ∧
  delayed_calls net2 = [(stored, second)] ∧
  reactor_step net2 = Err AlreadyCalledError ∧
  ∃ a net3,
    _exchange_shares self_id pc id mine net2 = (a, net3) ∧
    a ≠ stored ∧ share_store net3 !! a = Some None.
Proof.
  intros Hid Hnone Hq net1 net2 stored.
  assert (incoming_shares net1 !! (pc, id) = Some stored) as H1.
  { unfold net1, stringReceived. rewrite Hnone. simpl.
    by rewrite lookup_insert_eq. }
  assert (share_store net1 = share_store net ++ [Some first]) as Hs1.
  { unfold net1, stringReceived. by rewrite Hnone. }
  assert (delayed_calls net1 = []) as Hq1.
  { unfold net1, stringReceived. by rewrite Hnone. }
  assert (share_store net1 !! stored = Some (Some first)) as Hl1.
  { rewrite Hs1. unfold stored. rewrite lookup_app_r by lia.
    by rewrite Nat.sub_diag. }
  assert (net2 = mkExchange (share_store net1)
                   (delete (pc, id) (incoming_shares net1))
                   (delayed_calls net1 ++ [(stored, second)]) (outbox net1))
    as E2.
  { unfold net2, stringReceived at 1. by rewrite H1. }
  split_and!; try done.
  - rewrite E2. simpl. apply lookup_delete_eq.
  - rewrite E2. simpl. by rewrite Hq1.
  - rewrite E2. unfold reactor_step. simpl. rewrite Hq1. simpl.
    by rewrite Hl1.
  - unfold _exchange_shares. rewrite decide_False by done.
    assert (incoming_shares net2 !! (pc, id) = None) as ->
      by (rewrite E2; simpl; apply lookup_delete_eq).
    simpl. rewrite lookup_insert_eq. simpl.
    eexists _, _. split; [reflexivity|]. simpl. rewrite E2. simpl.
    rewrite Hs1. rewrite length_app. simpl. split; [unfold stored; lia|].
    rewrite lookup_app_r by (rewrite length_app; simpl; lia).
    rewrite length_app. simpl. by rewrite Nat.sub_diag.
Qed.

Lemma duplicate_message_drops_share_witness :
  reactor_step (stringReceived 2 [1; 0] 43 (stringReceived 2 [1; 0] 42 Exchange_init))
  = Err AlreadyCalledError.
Proof.
  destruct (duplicate_message_drops_share 1 2 [1; 0] 42 43 7 Exchange_init)
    as (_ & _ & _ & _ & H & _).
  - lia.
  - apply lookup_empty.
  - reflexivity.
  - exact H.
Defined.

(** X3.  Two requests under one key: when [_exchange_shares] is called
    twice for the same peer at the same program counter before the
    peer's message arrives, both calls return the same share object
    (only the first call creates it) and the player's share is sent
    twice. *)
Theorem exchange_same_key_aliases (self_id id : Z) (pc : list Z)
    (mine1 mine2 : Z) (net : Exchange) :
  id ≠ self_id → incoming_shares net !! (pc, id) = None →
  ∃ a net1 net2,
    _exchange_shares self_id pc id mine1 net = (a, net1) ∧
    _exchange_shares self_id pc id mine2 net1 = (a, net2) ∧
    share_store net2 = share_store net ++ [None] ∧
    a = length (share_store net) ∧
    outbox net2 = outbox net ++ [(id, pc, mine1); (id, pc, mine2)].
Proof.
  intros Hid Hnone.
  destruct (_exchange_shares self_id pc id mine1 net) as [a net1] eqn:E1.
  unfold _exchange_shares in E1. rewrite decide_False in E1 by done.
  rewrite Hnone in E1. simpl in E1. rewrite lookup_insert_eq in E1.
  simpl in E1. injection E1 as <- <-.
  eexists _, _, _. split; [reflexivity|].
  unfold _exchange_shares. rewrite decide_False by done. simpl.
  rewrite lookup_insert_eq. simpl. rewrite lookup_insert_eq. simpl.
  split_and!; try reflexivity.
  by rewrite <- (assoc_L (++)).
Qed.

Lemma exchange_same_key_aliases_witness :
  (_exchange_shares 1 [1; 0] 2 7 Exchange_init).1
  = (_exchange_shares 1 [1; 0] 2 8
       (_exchange_shares 1 [1; 0] 2 7 Exchange_init).2).1.
Proof.
  destruct (exchange_same_key_aliases 1 2 [1; 0] 7 8 Exchange_init)
    as (a & net1 & net2 & E1 & E2 & _).
  - lia.
  - apply lookup_empty.
  - rewrite E1. cbn [fst snd]. by rewrite E2.
Defined.

(** X4.  What the table operations leave alone.  Neither
    [_exchange_shares] nor [stringReceived] changes the entry of any
    other key or a share object that exists already;
    [_exchange_shares] never removes an entry and schedules nothing,
    [stringReceived] sends nothing, and an exchange with the player
    itself touches neither the table nor the network. *)
Theorem exchange_frame (self_id id : Z) (pc : list Z) (v : Z) (net : Exchange) :
  let ex := (_exchange_shares self_id pc id v net).2 in
  let rc := stringReceived id pc v net in
  (∀ key, key ≠ (pc, id) →
     incoming_shares ex !! key = incoming_shares net !! key ∧
     incoming_shares rc !! key = incoming_shares net !! key) ∧
  (∀ a, (a < length (share_store net))%nat →
     share_store ex !! a = share_store net !! a ∧
     share_store rc !! a = share_store net !! a) ∧
  (∀ key, is_Some (incoming_shares net !! key) →
     is_Some (incoming_shares ex !! key)) ∧
  delayed_calls ex = delayed_calls net ∧
  outbox rc = outbox net ∧
  (id = self_id →
     incoming_shares ex = incoming_shares net ∧ outbox ex = outbox net ∧
     share_store ex !! (_exchange_shares self_id pc id v net).1
     = Some (Some v)).
Proof.
  intros ex rc. unfold ex, rc, _exchange_shares, stringReceived.
  destruct (decide (id = self_id)) as [->|Hid];
    destruct (incoming_shares net !! (pc, self_id)) as [b|] eqn:E1;
    try destruct (incoming_shares net !! (pc, id)) as [c|] eqn:E2;
    simpl; split_and!; try done.
  all: try (intros key Hkey; split; try done;
            rewrite ?lookup_delete_ne, ?lookup_insert_ne by done; done).
  all: try (intros a Ha; split; try done;
            rewrite ?lookup_app_l by done; done).
  all: try (intros _; split_and!; try done;
            rewrite lookup_app_r by lia; by rewrite Nat.sub_diag).
  all: try (intros key [x Hx]; destruct (decide (key = (pc, id))) as [->|Hk];
            [rewrite lookup_insert_eq; by eexists
            |rewrite lookup_insert_ne by done; by eexists]).
Qed.

(** *** More on the program counter *)





(** *** Share lists with a threshold *)

Section ThresholdProofs.
Context {V : Type}.
Implicit Types (self : ShareList V) (arr : list (nat * (bool * V))).

Lemma fire_results self arr :
  results (foldl fire self arr)
  = foldl (λ cur e, <[e.1 := Some e.2]> cur) (results self) arr.
Proof.
  revert self. induction arr as [|[i [s v]] arr IH]; intros self; [done|].
  simpl. rewrite IH. f_equal. unfold fire, _callback_fired. simpl.
  by destruct (negb (sl_called self) && _).
Qed.

Lemma fire_missing self arr :
  missing_shares (foldl fire self arr)
  = missing_shares self - Z.of_nat (length arr).
Proof.
  revert self. induction arr as [|[i [s v]] arr IH]; intros self.
  - simpl. lia.
  - simpl foldl. rewrite IH. unfold fire, _callback_fired. simpl.
    destruct (negb (sl_called self) && _); simpl; lia.
Qed.

Lemma fire_called self (e : nat * (bool * V)) :
  sl_called self = true → sl_called (fire self e) = true.
Proof. intros Hc. unfold fire, _callback_fired. by rewrite Hc. Qed.

Lemma fire_pending self (e : nat * (bool * V)) :
  sl_called self = false →
  sl_called (fire self e) = (missing_shares self - 1 =? 0) ∧
  missing_shares (fire self e) = missing_shares self - 1.
Proof.
  intros Hc. unfold fire, _callback_fired. rewrite Hc.
  destruct e as [i [s v]]. simpl. by destruct (_ =? _).
Qed.

Lemma fire_after_called self arr :
  sl_called self = true → sl_called (foldl fire self arr) = true.
Proof.
  revert self. induction arr as [|e arr IH]; intros self Hc; [done|].
  simpl. apply IH. by apply fire_called.
Qed.

(** The list fires at the firing that brings [missing_shares] to
    zero. *)
Lemma fire_until_threshold self arr :
  sl_called self = false → 0 < missing_shares self →
  let m := Z.to_nat (missing_shares self) in
  sl_called (foldl fire self arr) = bool_decide (m <= length arr)%nat.
Proof.
  revert self. induction arr as [|e arr IH]; intros self Hc Hm m.
  - simpl. by rewrite bool_decide_eq_false_2 by lia.
  - simpl foldl. destruct (fire_pending self e Hc) as [H1 H2].
    destruct (Z.eqb_spec (missing_shares self - 1) 0) as [E|E].
    + rewrite fire_after_called by done.
      symmetry. apply bool_decide_eq_true. unfold m. simpl. lia.
    + rewrite IH by (done || lia). rewrite H2.
      apply bool_decide_ext. unfold m. simpl. lia.
Qed.

Lemma init_as_firings self (k : nat) (shares : list (option (bool * V))) :
  foldl add_share self (imap (λ i, pair (k + i)%nat) shares)
  = foldl fire self
      (omap (λ e, (λ x, (e.1, x)) <$> e.2)
         (imap (λ i, pair (k + i)%nat) shares)).
Proof.
  revert self k. induction shares as [|x shares IH]; intros self k; [done|].
  simpl.
  assert (∀ st : ShareList V,
            foldl add_share st (imap ((λ i, pair (k + i)%nat) ∘ S) shares)
            = foldl fire st
                (omap (λ e, (λ x, (e.1, x)) <$> e.2)
                   (imap ((λ i, pair (k + i)%nat) ∘ S) shares))) as IH'.
  { intros st. specialize (IH st (S k)).
    erewrite (imap_ext _ ((λ i, pair (k + i)%nat) ∘ S)) in IH; [exact IH|].
    intros i y _. simpl. f_equal. lia. }
  destruct x as [[s v]|]; simpl; apply IH'.
Qed.

Lemma settle_length (n : nat) arr : length (settle n arr) = n.
Proof.
  unfold settle.
  assert (∀ cur : list (option (bool * V)),
            length (foldl (λ cur e, <[e.1 := Some e.2]> cur) cur arr)
            = length cur) as H.
  { induction arr as [|e arr IH]; intros cur; simpl; [done|].
    by rewrite IH, length_insert. }
  by rewrite H, length_replicate.
Qed.

Lemma unresolved_settle cur arr :
  NoDup arr.*1 → (∀ i x, (i, x) ∈ arr → cur !! i = Some None) →
  (unresolved (foldl (λ cur e, <[e.1 := Some e.2]> cur) cur arr)
   + length arr)%nat = unresolved cur.
Proof.
  revert cur. induction arr as [|[i x] arr IH]; intros cur Hnd Hp; simpl.
  - lia.
  - apply NoDup_cons in Hnd as [Hi Hnd].
    rewrite <- (unresolved_insert cur i x) by (apply (Hp i x); by left).
    rewrite <- (IH (<[i := Some x]> cur)); [lia|done|].
    intros j y Hin. rewrite list_lookup_insert_ne; [apply (Hp j y); by right|].
    intros ->. apply Hi. apply list_elem_of_fmap. by exists (j, y).
Qed.

Lemma fired_inputs_spec (shares : list (option (bool * V))) (i : nat)
    (x : bool * V) :
  (i, x) ∈ fired_inputs shares ↔ shares !! i = Some (Some x).
Proof.
  unfold fired_inputs. rewrite list_elem_of_omap. split.
  - intros ([j y] & Hin & Hy). apply list_elem_of_lookup in Hin as [k Hk].
    rewrite list_lookup_imap in Hk.
    destruct (shares !! k) as [z|] eqn:Ez; [|done]. simpl in *.
    injection Hk as <- <-. destruct z; [|done]. simpl in Hy. by injection Hy as <- <-.
  - intros Hi. exists (i, Some x). split; [|done].
    apply list_elem_of_lookup. exists i. rewrite list_lookup_imap. by rewrite Hi.
Qed.

Lemma fired_inputs_NoDup (shares : list (option (bool * V))) :
  NoDup (fired_inputs shares).*1.
Proof.
  unfold fired_inputs.
  assert (∀ k, NoDup (omap (λ e : nat * option (bool * V),
                              (λ x, (e.1, x)) <$> e.2)
                        (imap (λ i, pair (k + i)%nat) shares)).*1 ∧
               ∀ j, j ∈ (omap (λ e : nat * option (bool * V),
                                 (λ x, (e.1, x)) <$> e.2)
                           (imap (λ i, pair (k + i)%nat) shares)).*1 →
                    (k <= j)%nat) as H.
  { induction shares as [|x shares IH]; intros k.
    - split; [constructor|]. intros j Hj. by apply elem_of_nil in Hj.
    - simpl.
      assert (imap ((λ i, pair (k + i)%nat) ∘ S) shares
              = imap (λ i, pair (S k + i)%nat) shares) as ->.
      { apply imap_ext. intros i y _. simpl. f_equal. lia. }
      destruct (IH (S k)) as [Hnd Hge].
      destruct x as [y|]; simpl.
      + split.
        * apply NoDup_cons. split; [|done]. intros Hin. apply Hge in Hin. lia.
        * intros j Hj. apply elem_of_cons in Hj as [->|Hj]; [lia|].
          apply Hge in Hj. lia.
      + split; [done|]. intros j Hj. apply Hge in Hj. lia. }
  apply (H O).
Qed.
End ThresholdProofs.

(** X7.  A share list with a threshold [t] fires at the [t]-th firing
    of its inputs.  With the firings in the order in which they reach
    the list -- the inputs that had fired already, in list order, then
    the later ones -- [missing_shares] is [t] minus their number (it
    goes negative after the threshold) and the list has fired exactly
    when there are [t] or more.  The value it fires with is the list
    object [self.results], not a copy: at the [t]-th firing [t] of its
    [n] entries are filled, and every later firing fills one more entry
    of the value the list already holds. *)
Theorem ShareList_threshold_fires {V : Type}
    (shares : list (option (bool * V))) (t : Z)
    (evs : list (nat * (bool * V))) :
  0 < t <= Z.of_nat (length shares) → NoDup evs.*1 →
  (∀ i x, (i, x) ∈ evs → shares !! i = Some None) →
  let n := length shares in
  let arrivals := fired_inputs shares ++ evs in
  ∃ self0, ShareList_init shares (Some t) = Ok self0 ∧
    let self := foldl fire self0 evs in
    results self = settle n arrivals ∧
    missing_shares self = t - Z.of_nat (length arrivals) ∧
    (sl_called self = true ↔ t <= Z.of_nat (length arrivals)) ∧
    (Z.of_nat (length arrivals) < t → fired_list self = None) ∧
    (t <= Z.of_nat (length arrivals) →
     fired_list self = Some (settle n arrivals)) ∧
    (unresolved (settle n arrivals) + length arrivals)%nat = n.
Proof.
  intros Ht Hnd Hp n arrivals.
  set (st0 := mkShareList (replicate (length shares) (@None (bool * V)))
                t false false None).
  exists (foldl fire st0 (fired_inputs shares)). split.
  { unfold ShareList_init.
    assert ((0 <? Z.of_nat (length shares)) = true) as ->
      by (apply Z.ltb_lt; lia).
    assert (((0 <? t) && (t <=? Z.of_nat (length shares))) = true) as ->.
    { apply andb_true_iff. split; [apply Z.ltb_lt|apply Z.leb_le]; lia. }
    simpl. f_equal. exact (init_as_firings st0 O shares). }
  cbv zeta. rewrite <- foldl_app. fold arrivals.
  pose proof (fire_until_threshold st0 arrivals eq_refl ltac:(simpl; lia))
    as Hc. simpl in Hc.
  assert (results (foldl fire st0 arrivals) = settle n arrivals) as Hres
    by (by rewrite fire_results).
  split_and!.
  - done.
  - by rewrite fire_missing.
  - rewrite Hc, bool_decide_eq_true. lia.
  - intros Hlt. unfold fired_list. rewrite Hc.
    by rewrite bool_decide_eq_false_2 by lia.
  - intros Hge. unfold fired_list. rewrite Hc.
    rewrite bool_decide_eq_true_2 by lia. by rewrite Hres.
  - unfold settle.
    pose proof (unresolved_settle (replicate n None) arrivals) as Hu.
    rewrite unresolved_replicate in Hu. apply Hu.
    + unfold arrivals.
      rewrite fmap_app. apply NoDup_app. split_and!.
      * apply fired_inputs_NoDup.
      * intros i Hi Hi'. apply list_elem_of_fmap in Hi as [[j x] [-> Hx]].
        apply list_elem_of_fmap in Hi' as [[j' y] [Hj Hy]]. simpl in *.
        subst j'. apply fired_inputs_spec in Hx. by rewrite (Hp j y Hy) in Hx.
      * done.
    + intros i x Hin'.
      apply lookup_replicate. split; [done|].
      unfold arrivals in Hin'. apply elem_of_app in Hin' as [Hf|He].
      * apply fired_inputs_spec in Hf. by eapply lookup_lt_Some.
      * eapply lookup_lt_Some. by apply (Hp i x).
Qed.

Lemma ShareList_threshold_fires_witness :
  ∃ self0, ShareList_init [None; Some (true, 5); None; None] (Some 2) = Ok self0 ∧
    fired_list (foldl fire self0 [(3%nat, (true, 9))])
    = Some [None; Some (true, 5); None; Some (true, 9)] ∧
    fired_list (foldl fire self0 [(3%nat, (true, 9)); (0%nat, (false, 1))])
    = Some [Some (false, 1); Some (true, 5); None; Some (true, 9)].
Proof.
  destruct (ShareList_threshold_fires [None; Some (true, 5); None; None] 2
              [(3%nat, (true, 9)); (0%nat, (false, 1))])
    as (self0 & Hi & _ & _ & _ & _ & Hr & _).
  - simpl. lia.
  - simpl. apply NoDup_cons. split; [|apply NoDup_singleton].
    rewrite list_elem_of_singleton. lia.
  - intros i x Hin. apply elem_of_cons in Hin as [[= -> _]|Hin]; [done|].
    apply list_elem_of_singleton in Hin as [= -> _]. done.
  - exists self0. split; [done|]. split.
    + vm_compute in Hi. injection Hi as <-. reflexivity.
    + rewrite Hr by (simpl; lia). reflexivity.
Defined.

(** *** Cloning a share *)

Section CloneProofs.
Context {V : Type}.

Lemma run_functions (fs : list (V → V)) (fuel a : nat) (store : list (Deferreds.Share (V := V)))
    (called : bool) (v : V) (rest : list Deferreds.cb) :
  store !! a
  = Some (Deferreds.mkShare called (Some (Deferreds.Success v))
            ((Deferreds.Function <$> fs) ++ rest)) →
  Deferreds._runCallbacks (length fs + fuel) a store
  = Deferreds._runCallbacks fuel a
      (<[a := Deferreds.mkShare called
                (Some (Deferreds.Success (foldl (λ x f, f x) v fs))) rest]>
         store).
Proof.
  revert store v. induction fs as [|f fs IH]; intros store v Ha.
  - simpl. by rewrite list_insert_id.
  - cbn [length Nat.add]. cbn [Deferreds._runCallbacks]. rewrite Ha.
    cbn [fmap list_fmap app Deferreds.d_callbacks Deferreds.d_result
         Deferreds.d_called].
    rewrite (IH _ (f v)).
    + by rewrite list_insert_insert_eq.
    + apply list_lookup_insert_eq. by eapply lookup_lt_Some.
Qed.

Lemma run_idle (fuel a : nat) (store : list (Deferreds.Share (V := V))) (d : Deferreds.Share (V := V)) :
  store !! a = Some d → Deferreds.d_callbacks d = [] →
  Deferreds._runCallbacks (S fuel) a store = Some store.
Proof. intros Ha Hd. simpl. by rewrite Ha, Hd. Qed.
End CloneProofs.

(** X28.  A clone follows its original and then goes its own way.
    For a share that has not fired and has the callbacks [fs] queued,
    [clone()] returns a new share; when the original fires with [v],
    both the original and the clone end with the value the callbacks
    [fs] make of [v].  A callback added afterwards to one of the two
    changes the result of that one only. *)
Theorem clone_follows_original {V : Type} (fs : list (V → V)) (g : V → V)
    (a : nat) (v : V) (store : list (Deferreds.Share (V := V))) :
  store !! a
  = Some (Deferreds.mkShare false None (Deferreds.Function <$> fs)) →
  let r := foldl (λ x f, f x) v fs in
  let fired x := Some (Deferreds.mkShare true (Some (Deferreds.Success x)) [])
  in
  ∃ c store1 store2 store3 store4,
    Deferreds.clone 0 a store = Some (c, store1) ∧ c ≠ a ∧
    store1 !! c = Some (Deferreds.mkShare false None []) ∧
    Deferreds.callback (length fs + 2) a v store1 = Some (Ok store2) ∧
    store2 !! a = fired r ∧ store2 !! c = fired r ∧
    Deferreds.addCallback 2 a (Deferreds.Function g) store2 = Some store3 ∧
    store3 !! a = fired (g r) ∧ store3 !! c = fired r ∧
    Deferreds.addCallback 2 c (Deferreds.Function g) store2 = Some store4 ∧
    store4 !! a = fired r ∧ store4 !! c = fired (g r).
Proof.
  intros Ha r fired.
  assert (a < length store)%nat as Hlt by (by eapply lookup_lt_Some).
  set (c := length store).
  set (pending := Deferreds.mkShare (V := V) false None []).
  set (store1 := <[a := Deferreds.mkShare false None
                          ((Deferreds.Function <$> fs)
                           ++ [Deferreds.split_result c])]>
                   (store ++ [pending])).
  set (store2 := <[c := Deferreds.mkShare true (Some (Deferreds.Success r)) []]>
                   (<[a := Deferreds.mkShare true
                             (Some (Deferreds.Success r)) []]> store1)).
  assert (length store1 = S c) as Hl1.
  { unfold store1. rewrite length_insert, length_app. simpl. unfold c. lia. }
  assert (store1 !! a
          = Some (Deferreds.mkShare false None
                    ((Deferreds.Function <$> fs)
                     ++ [Deferreds.split_result c]))) as H1a.
  { unfold store1. apply list_lookup_insert_eq. rewrite length_app. lia. }
  assert (store1 !! c = Some pending) as H1c.
  { unfold store1. rewrite list_lookup_insert_ne by (unfold c; lia).
    rewrite lookup_app_r by (unfold c; lia). unfold c.
    by rewrite Nat.sub_diag. }
  assert (store2 !! a = fired r) as H2a.
  { unfold store2. rewrite list_lookup_insert_ne by (unfold c; lia).
    apply list_lookup_insert_eq. lia. }
  assert (store2 !! c = fired r) as H2c.
  { unfold store2. apply list_lookup_insert_eq.
    rewrite length_insert. lia. }
  exists c, store1, store2,
    (<[a := Deferreds.mkShare true (Some (Deferreds.Success (g r))) []]>
       store2),
    (<[c := Deferreds.mkShare true (Some (Deferreds.Success (g r))) []]>
       store2).
  split_and!.
  - unfold Deferreds.clone, Deferreds.Share_init, Deferreds.addCallback.
    rewrite lookup_app_l by done. rewrite Ha. done.
  - unfold c. lia.
  - done.
  - unfold Deferreds.callback. rewrite H1a.
    cbn [Deferreds.d_called Deferreds.d_callbacks].
    rewrite (run_functions fs 2 a _ true v [Deferreds.split_result c])
      by (apply list_lookup_insert_eq; lia).
    rewrite list_insert_insert_eq. fold r.
    cbn [Deferreds._runCallbacks].
    rewrite list_lookup_insert_eq by lia.
    cbn [Deferreds.d_called Deferreds.d_callbacks Deferreds.d_result].
    rewrite list_insert_insert_eq.
    rewrite list_lookup_insert_ne by (unfold c; lia). rewrite H1c.
    cbn [Deferreds.d_called pending Deferreds.d_callbacks].
    rewrite list_lookup_insert_eq by (rewrite length_insert; lia).
    cbn [Deferreds.d_callbacks]. fold store2. by rewrite H2a.
  - done.
  - done.
  - unfold Deferreds.addCallback. rewrite H2a. unfold fired.
    cbn [Deferreds.d_called Deferreds.d_callbacks Deferreds.d_result app].
    cbn [Deferreds._runCallbacks].
    rewrite list_lookup_insert_eq
      by (unfold store2; rewrite !length_insert; lia).
    cbn [Deferreds.d_called Deferreds.d_callbacks Deferreds.d_result].
    rewrite list_insert_insert_eq.
    rewrite list_lookup_insert_eq
      by (unfold store2; rewrite !length_insert; lia).
    done.
  - apply list_lookup_insert_eq. unfold store2. rewrite !length_insert. lia.
  - by rewrite list_lookup_insert_ne by (unfold c; lia).
  - unfold Deferreds.addCallback. rewrite H2c. unfold fired.
    cbn [Deferreds.d_called Deferreds.d_callbacks Deferreds.d_result app].
    cbn [Deferreds._runCallbacks].
    rewrite list_lookup_insert_eq
      by (unfold store2; rewrite !length_insert; lia).
    cbn [Deferreds.d_called Deferreds.d_callbacks Deferreds.d_result].
    rewrite list_insert_insert_eq.
    rewrite list_lookup_insert_eq
      by (unfold store2; rewrite !length_insert; lia).
    done.
  - by rewrite list_lookup_insert_ne by (unfold c; lia).
  - apply list_lookup_insert_eq. unfold store2. rewrite !length_insert. lia.
Qed.

Lemma clone_follows_original_witness :
  ∃ c store1 store2,
    Deferreds.clone 0 0 [Deferreds.mkShare false None
                           [Deferreds.Function (Z.add 1);
                            Deferreds.Function (Z.mul 2)]]
    = Some (c, store1) ∧
    Deferreds.callback 4 0 20 store1 = Some (Ok store2) ∧
    store2 !! c
    = Some (Deferreds.mkShare true (Some (Deferreds.Success 42)) []).
Proof.
  destruct (clone_follows_original [Z.add 1; Z.mul 2] (λ x, x) 0 20
              [Deferreds.mkShare false None
                 [Deferreds.Function (Z.add 1); Deferreds.Function (Z.mul 2)]]
              eq_refl)
    as (c & store1 & store2 & _ & _ & Hc & _ & _ & Hf & _ & Hr & _).
  by exists c, store1, store2.
Defined.

Section CloneSteps.
Context {V : Type}.
Implicit Types (store : list (Deferreds.Share (V := V))).

Lemma run_split_fresh (fuel a c : nat) store (k : bool) (v : V)
    (rest cbs : list Deferreds.cb) :
  store !! a
  = Some (Deferreds.mkShare k (Some (Deferreds.Success v))
            (Deferreds.split_result c :: rest)) →
  store !! c = Some (Deferreds.mkShare false None cbs) → c ≠ a →
  Deferreds._runCallbacks (S fuel) a store
  = match Deferreds._runCallbacks fuel c
            (<[c := Deferreds.mkShare true (Some (Deferreds.Success v)) cbs]>
               (<[a := Deferreds.mkShare k (Some (Deferreds.Success v)) rest]>
                  store)) with
    | None => None
    | Some store2 => Deferreds._runCallbacks fuel a store2
    end.
Proof.
  intros Ha Hc Hne. cbn [Deferreds._runCallbacks]. rewrite Ha.
  cbn [Deferreds.d_callbacks Deferreds.d_result Deferreds.d_called].
  rewrite list_lookup_insert_ne by done. rewrite Hc. done.
Qed.

Lemma run_split_called (fuel a c : nat) store (k : bool) (v : V)
    (rest : list Deferreds.cb) (c0 : Deferreds.Share) :
  store !! a
  = Some (Deferreds.mkShare k (Some (Deferreds.Success v))
            (Deferreds.split_result c :: rest)) →
  store !! c = Some c0 → Deferreds.d_called c0 = true → c ≠ a →
  Deferreds._runCallbacks (S fuel) a store
  = Deferreds._runCallbacks fuel a
      (<[a := Deferreds.mkShare k
                (Some (Deferreds.Failure AlreadyCalledError)) rest]> store).
Proof.
  intros Ha Hc Hcalled Hne. cbn [Deferreds._runCallbacks]. rewrite Ha.
  cbn [Deferreds.d_callbacks Deferreds.d_result Deferreds.d_called].
  rewrite list_lookup_insert_ne by done. by rewrite Hc, Hcalled.
Qed.

Lemma run_failure (fuel a : nat) store (k : bool) (e : exn)
    (x : Deferreds.cb) (rest : list Deferreds.cb) :
  store !! a
  = Some (Deferreds.mkShare k (Some (Deferreds.Failure e)) (x :: rest)) →
  Deferreds._runCallbacks (S fuel) a store
  = Deferreds._runCallbacks fuel a
      (<[a := Deferreds.mkShare k (Some (Deferreds.Failure e)) rest]> store).
Proof.
  intros Ha. cbn [Deferreds._runCallbacks]. rewrite Ha.
  cbn [Deferreds.d_callbacks Deferreds.d_result Deferreds.d_called].
  by destruct x.
Qed.

Lemma callback_pending (fuel a : nat) (v : V) store
    (cbs : list Deferreds.cb) :
  store !! a = Some (Deferreds.mkShare false None cbs) →
  Deferreds.callback fuel a v store
  = Ok <$> Deferreds._runCallbacks fuel a
             (<[a := Deferreds.mkShare true (Some (Deferreds.Success v)) cbs]>
                store).
Proof. intros Ha. unfold Deferreds.callback. by rewrite Ha. Qed.

Lemma clone_spec (fuel a : nat) store (d : Deferreds.Share) :
  store !! a = Some d →
  let c := length store in
  let store1 :=
    <[a := Deferreds.mkShare (Deferreds.d_called d) (Deferreds.d_result d)
             (Deferreds.d_callbacks d ++ [Deferreds.split_result c])]>
      (store ++ [Deferreds.mkShare false None []]) in
  (a < c)%nat ∧
  store1 !! c = Some (Deferreds.mkShare false None []) ∧
  store1 !! a
  = Some (Deferreds.mkShare (Deferreds.d_called d) (Deferreds.d_result d)
            (Deferreds.d_callbacks d ++ [Deferreds.split_result c])) ∧
  Deferreds.clone fuel a store
  = if Deferreds.d_called d
    then match Deferreds._runCallbacks fuel a store1 with
         | None => None
         | Some store2 => Some (c, store2)
         end
    else Some (c, store1).
Proof.
  intros Ha c store1.
  assert (a < c)%nat as Hlt by (by eapply lookup_lt_Some).
  split_and!.
  - done.
  - unfold store1. rewrite list_lookup_insert_ne by lia.
    rewrite lookup_app_r by (unfold c; lia). unfold c.
    by rewrite Nat.sub_diag.
  - unfold store1. apply list_lookup_insert_eq. rewrite length_app. lia.
  - unfold Deferreds.clone, Deferreds.Share_init, Deferreds.addCallback.
    rewrite lookup_app_l by done. rewrite Ha. fold c. fold store1.
    by destruct (Deferreds.d_called d).
Qed.
End CloneSteps.

(** X29.  Where a clone does not follow.  The clone of a share that
    has already fired with a value fires at once with that value.  The
    clone of a share whose result is a failure stays pending:
    [split_result] is a callback, and callbacks are passed over on a
    failure.  And if the clone is fired by hand before its original,
    firing the original raises [AlreadyCalledError] inside
    [split_result], which turns the original's own result into a
    failure. *)
Theorem clone_off_the_path {V : Type} (a : nat) (v w : V) (e : exn)
    (store : list (Deferreds.Share (V := V))) :
  let c := length store in
  let fired x := Some (Deferreds.mkShare true (Some (Deferreds.Success x)) [])
  in
  let failed x := Some (Deferreds.mkShare (V := V) true
                          (Some (Deferreds.Failure x)) []) in
  (store !! a = fired v →
   ∃ store1, Deferreds.clone 2 a store = Some (c, store1) ∧
     store1 !! c = fired v ∧ store1 !! a = fired v) ∧
  (store !! a = failed e →
   ∃ store1, Deferreds.clone 2 a store = Some (c, store1) ∧
     store1 !! c = Some (Deferreds.mkShare false None []) ∧
     store1 !! a = failed e) ∧
  (store !! a = Some (Deferreds.mkShare false None []) →
   ∃ store1 store2 store3,
     Deferreds.clone 0 a store = Some (c, store1) ∧
     Deferreds.callback 1 c w store1 = Some (Ok store2) ∧
     Deferreds.callback 2 a v store2 = Some (Ok store3) ∧
     store3 !! a = failed AlreadyCalledError ∧ store3 !! c = fired w).
Proof.
  intros c fired failed.
  set (pending := Deferreds.mkShare (V := V) false None []).
  split_and!.
  - intros Ha.
    destruct (clone_spec 2 a store _ Ha) as (Hlt & Hc & Ha1 & ->).
    cbn [Deferreds.d_called Deferreds.d_result Deferreds.d_callbacks app]
      in *.
    fold c in Hc, Ha1 |- *. set (store1 := <[a := _]> (store ++ _)) in *.
    rewrite (run_split_fresh 1 a c store1 true v [] []) by (done || lia).
    set (store2 := <[c := _]> (<[a := _]> store1)).
    assert (length store1 = S c) as Hl1.
    { unfold store1. rewrite length_insert, length_app. simpl.
      unfold c. lia. }
    assert (store2 !! c = fired v) as H2c.
    { unfold store2. apply list_lookup_insert_eq.
      rewrite length_insert. lia. }
    assert (store2 !! a = fired v) as H2a.
    { unfold store2. rewrite list_lookup_insert_ne by lia.
      apply list_lookup_insert_eq. lia. }
    rewrite (run_idle 0 c store2 _ H2c) by done.
    rewrite (run_idle 0 a store2 _ H2a) by done.
    by exists store2.
  - intros Ha.
    destruct (clone_spec 2 a store _ Ha) as (Hlt & Hc & Ha1 & ->).
    cbn [Deferreds.d_called Deferreds.d_result Deferreds.d_callbacks app]
      in *.
    fold c in Hc, Ha1 |- *. set (store1 := <[a := _]> (store ++ _)) in *.
    rewrite (run_failure 1 a store1 true e _ []) by done.
    set (store2 := <[a := _]> store1).
    assert (length store1 = S c) as Hl1.
    { unfold store1. rewrite length_insert, length_app. simpl.
      unfold c. lia. }
    assert (store2 !! a = failed e) as H2a
      by (unfold store2; apply list_lookup_insert_eq; lia).
    rewrite (run_idle 0 a store2 _ H2a) by done.
    exists store2. split_and!; [done| |done].
    unfold store2. by rewrite list_lookup_insert_ne by lia.
  - intros Ha.
    destruct (clone_spec 0 a store _ Ha) as (Hlt & Hc & Ha1 & ->).
    cbn [Deferreds.d_called Deferreds.d_result Deferreds.d_callbacks app]
      in *.
    fold c in Hc, Ha1 |- *. set (store1 := <[a := _]> (store ++ _)) in *.
    assert (length store1 = S c) as Hl1.
    { unfold store1. rewrite length_insert, length_app. simpl.
      unfold c. lia. }
    set (store2 := <[c := Deferreds.mkShare true
                             (Some (Deferreds.Success w)) []]> store1).
    assert (store2 !! c = fired w) as H2c
      by (unfold store2; apply list_lookup_insert_eq; lia).
    assert (store2 !! a
            = Some (Deferreds.mkShare false None [Deferreds.split_result c]))
      as H2a by (unfold store2; by rewrite list_lookup_insert_ne by lia).
    set (store2' := <[a := Deferreds.mkShare true
                              (Some (Deferreds.Success v))
                              [Deferreds.split_result c]]> store2).
    set (store3 := <[a := Deferreds.mkShare true
                             (Some (Deferreds.Failure AlreadyCalledError))
                             []]> store2').
    assert (length store2 = S c) as Hl2
      by (unfold store2; by rewrite length_insert).
    assert (store3 !! a = failed AlreadyCalledError) as H3a.
    { unfold store3. apply list_lookup_insert_eq. unfold store2'.
      rewrite length_insert. lia. }
    exists store1, store2, store3. split_and!.
    + done.
    + rewrite (callback_pending 1 c w store1 []) by done.
      fold store2. by rewrite (run_idle 0 c store2 _ H2c).
    + rewrite (callback_pending 2 a v store2 _ H2a). fold store2'.
      rewrite (run_split_called 1 a c store2' true v []
                 (Deferreds.mkShare true (Some (Deferreds.Success w)) [])).
      * fold store3. by rewrite (run_idle 0 a store3 _ H3a).
      * unfold store2'. apply list_lookup_insert_eq. lia.
      * unfold store2'. by rewrite list_lookup_insert_ne by lia.
      * done.
      * lia.
    + done.
    + unfold store3, store2'. by rewrite !list_lookup_insert_ne by lia.
Qed.

(** *** More on the bit conversions *)

Lemma log_loop_spec (fuel : nat) (x result : Z) :
  1 <= x → (Z.to_nat (Z.log2 x) <= fuel)%nat →
  log_loop fuel x result = Some (result + Z.log2 x + 1).
Proof.
  revert x result. induction fuel as [|fuel IH]; intros x result Hx Hf.
  - assert (Z.log2 x = 0) as E by (pose proof (Z.log2_nonneg x); lia).
    assert (x = 1) as ->.
    { destruct (Z.log2_spec x ltac:(lia)) as [_ H]. rewrite E in H.
      simpl in H. lia. }
    simpl. f_equal. lia.
  - simpl. destruct (Z.ltb_spec 1 x) as [H1|H1].
    + assert (Z.log2 x = Z.log2 (x / 2) + 1) as E.
      { change 2 with (2 ^ 1) at 1. rewrite <- Z.shiftr_div_pow2 by lia.
        rewrite Z.log2_shiftr by lia.
        pose proof (Z.log2_pos x ltac:(lia)). lia. }
      rewrite IH.
      * f_equal. lia.
      * apply Z.div_le_lower_bound; lia.
      * lia.
    + assert (x = 1) as -> by lia. simpl. f_equal. lia.
Qed.

(** X8.  The [log] of [convert_bit_share_II] is the bit length: for
    [x >= 1] it returns [floor(log2 x) + 1] after that many iterations
    less one, so [x < 2^log(x) <= 2x] (for a power of two, one more than
    the exponent); for [x <= 1] it returns [1] at once.  The mask length
    [l = k + log(modulus)] therefore satisfies [2^k * modulus < 2^l]:
    a mask ranges over at least [2^k] times the target field. *)
Theorem log_is_bit_length (fuel : nat) (k x : Z) :
  1 <= x → 0 <= k → (Z.to_nat (Z.log2 x) <= fuel)%nat →
  log fuel x = Some (Z.log2 x + 1) ∧
  x < 2 ^ (Z.log2 x + 1) <= 2 * x ∧
  log fuel (2 ^ k) = (if decide (Z.to_nat k <= fuel)%nat
                      then Some (k + 1) else None) ∧
  (∀ y, y <= 1 → log O y = Some 1) ∧
  ∃ l, mask_length fuel (Some k) x = Some l ∧ 2 ^ k * x < 2 ^ l.
Proof.
  intros Hx Hk Hf.
  assert (log fuel x = Some (Z.log2 x + 1)) as Hlog.
  { unfold log. rewrite log_loop_spec by done. f_equal. }
  destruct (Z.log2_spec x ltac:(lia)) as [Hlo Hhi].
  rewrite <- Z.add_1_r in Hhi.
  split_and!.
  - done.
  - done.
  - rewrite Z.pow_add_r by (pose proof (Z.log2_nonneg x); lia). lia.
  - case_decide as Hd.
    + unfold log. rewrite log_loop_spec.
      * by rewrite Z.log2_pow2 by done.
      * pose proof (Z.pow_pos_nonneg 2 k ltac:(lia) Hk). lia.
      * by rewrite Z.log2_pow2 by done.
    + unfold log. clear Hlog Hf Hlo Hhi Hx x.
      assert (∀ (f : nat) (j r : Z), 0 <= j → (f < Z.to_nat j)%nat →
                log_loop f (2 ^ j) r = None) as H.
      { induction f as [|f IH]; intros j r Hj Hlt.
        - simpl. destruct (Z.ltb_spec 1 (2 ^ j)) as [|H1]; [done|].
          assert (2 ^ 1 <= 2 ^ j) by (apply Z.pow_le_mono_r; lia). lia.
        - simpl. destruct (Z.ltb_spec 1 (2 ^ j)) as [|H1].
          + replace (2 ^ j / 2) with (2 ^ (j - 1)).
            * apply IH; lia.
            * replace j with (j - 1 + 1) at 2 by lia.
              rewrite Z.pow_add_r by lia. simpl (2 ^ 1).
              by rewrite Z.div_mul by lia.
          + assert (2 ^ 1 <= 2 ^ j) by (apply Z.pow_le_mono_r; lia). lia. }
      apply H; lia.
  - intros y Hy. unfold log. simpl.
    destruct (Z.ltb_spec 1 y); [lia|done].
  - exists (k + (Z.log2 x + 1)). unfold mask_length. rewrite Hlog.
    split; [done|].
    rewrite Z.pow_add_r by (pose proof (Z.log2_nonneg x); lia).
    apply Z.mul_lt_mono_pos_l; [|done].
    apply Z.pow_pos_nonneg; lia.
Qed.

Lemma log_is_bit_length_witness :
  log 11 2039 = Some 11 ∧ log 8 256 = Some 9 ∧
  mask_length 11 (Some 30) 2039 = Some 41.
Proof.
  destruct (log_is_bit_length 11 30 2039) as (H1 & _ & _ & _ & l & H2 & _).
  - lia.
  - lia.
  - vm_compute. lia.
  - split_and!; [exact H1|reflexivity|reflexivity].
Defined.

(** X9.  [convert_bit_share] keeps a shared bit in both directions,
    from a prime field into [GF256] and from [GF256] into a prime field,
    whatever random bits the players contribute, in a runtime with more
    than twice as many players as the threshold: the exclusive-or in the
    prime field costs a [mul].  With fewer players, and at least one
    random bit to combine, the conversion delivers nothing: into
    [GF256] the masked bit is never opened, into the prime field the
    opened bit cannot be unmasked. *)
Theorem convert_bit_share_keeps_bit (players : Z) (threshold : nat) (p : Z)
    (x : bool) (l : list bool) :
  1 < p →
  (2 * Z.of_nat threshold < players →
   convert_bit_share players threshold (Src := GFp p) (Dst := GF256)
     (Resolved (bitF x)) (Z.b2z <$> l)
   = Resolved (bitF x) ∧
   convert_bit_share players threshold (Src := GF256) (Dst := GFp p)
     (Resolved (bitF x)) (Z.b2z <$> l)
   = Resolved (bitF x)) ∧
  (players <= 2 * Z.of_nat threshold → l ≠ [] →
   convert_bit_share players threshold (Src := GFp p) (Dst := GF256)
     (Resolved (bitF x)) (Z.b2z <$> l)
   = Pending ∧
   convert_bit_share players threshold (Src := GF256) (Dst := GFp p)
     (Resolved (bitF x)) (Z.b2z <$> l)
   = Failed).
Proof.
  intros Hp. split.
  - intros Hn. split; [by apply convert_bit_share_bit|].
    unfold convert_bit_share.
    change (is_GF256 (F := GFp p)) with false.
    change (is_GF256 (F := GF256)) with true. cbv iota.
    rewrite foldl_xor_bit_bits, open_resolved by done.
    cbn [mbind future_bind mret future_ret].
    assert (value (bitF (foldl xorb x l) : GF256) = Z.b2z (foldl xorb x l))
      as -> by (by destruct (foldl xorb x l)).
    change (field (Z.b2z (foldl xorb x l)) : GFp p)
      with (bitF (foldl xorb x l) : GFp p).
    rewrite foldl_xor_int_bits by done. do 2 f_equal.
    rewrite (foldl_xorb_acc (foldl xorb x l)), (foldl_xorb_acc x).
    by rewrite xorb_assoc, xorb_nilpotent, xorb_false_r.
  - intros Hn Hl.
    assert (∀ (F : Type) (FE : FieldElement F) (bs : list Z),
              foldl (xor_int players threshold) (@Failed F)
                ((λ b, Resolved (field b)) <$> bs) = Failed) as Hfailed.
    { intros F FE bs. induction bs as [|b bs IH]; [done|].
      rewrite fmap_cons. cbn [foldl]. by rewrite xor_int_too_few. }
    assert (∀ (F : Type) (FE : FieldElement F) (s : F) (bs : list Z),
              bs ≠ [] →
              foldl (xor_int players threshold) (Resolved s)
                ((λ b, Resolved (field b)) <$> bs) = Failed) as Hfold.
    { intros F FE s [|b bs] Hne; [done|].
      rewrite fmap_cons. cbn [foldl]. rewrite xor_int_too_few by done.
      apply Hfailed. }
    assert (Z.b2z <$> l ≠ []) as Hl' by (by destruct l).
    unfold convert_bit_share.
    change (is_GF256 (F := GFp p)) with false.
    change (is_GF256 (F := GF256)) with true. cbv iota. split.
    + rewrite Hfold by done. cbn [open mbind future_bind].
      clear. induction (Z.b2z <$> l) as [|b bs IH]; [done|].
      rewrite fmap_cons. cbn [foldl]. exact IH.
    + rewrite foldl_xor_bit_bits.
      destruct (open players threshold _ None) as [v| |] eqn:Eo.
      * cbn [mbind future_bind mret future_ret]. by apply Hfold.
      * cbn [mbind future_bind]. apply Hfailed.
      * unfold open in Eo. by destruct (_ <? _).
Qed.

Lemma convert_bit_share_keeps_bit_witness :
  convert_bit_share 3 1 (Src := GFp 2039) (Dst := GF256) (Resolved (field 1))
    [1; 0; 1]
  = Resolved (field 1) ∧
  convert_bit_share 3 1 (Src := GF256) (Dst := GFp 2039) (Resolved (field 1))
    [1; 0; 1]
  = Resolved (field 1).
Proof.
  destruct (convert_bit_share_keeps_bit 3 1 2039 true [true; false; true])
    as [Hok _]; [lia|].
  apply Hok. simpl. lia.
Defined.

(** X10.  [convert_bit_share_II] between two prime fields gives the
    same integer in the target field provided nothing wraps around in
    the source field: the share plus all the players' masks must stay
    below the source modulus (the check the source leaves as
    "TODO assert field sizes are OK").  The masked value is opened with
    the runtime's threshold, which needs more players than that; with
    no more the opening fails, and the converted share with it. *)
Theorem convert_bit_share_II_no_wrap (players : Z) (threshold : nat)
    (p q x : Z) (masks : list Z) :
  masks ≠ [] → 0 <= x → Forall (λ m, 0 <= m) masks →
  x + foldr Z.add 0 masks < p →
  convert_bit_share_II players threshold (Src := GFp p) (Dst := GFp q)
    (Resolved (field x)) masks
  = Ok (if Z.of_nat threshold <? players then Resolved (field x) else Failed).
Proof.
  intros Hne Hx Hm Hp. unfold convert_bit_share_II.
  rewrite foldl_add_fields.
  assert (0 <= foldr Z.add 0 masks) as Hs.
  { clear -Hm. induction Hm; simpl; lia. }
  destruct masks as [|m ms]; [done|].
  rewrite fmap_cons, foldl_add_fields. cbn [mbind result_bind mret result_ret].
  unfold open. cbn [default from_option id].
  destruct (Z.of_nat threshold <? players); [|done].
  cbn [mbind future_bind mret future_ret].
  rewrite gfp_value_field by lia.
  rewrite sub_resolved, gfp_sub_field. do 3 f_equal. cbn [foldr]. lia.
Qed.

Lemma convert_bit_share_II_no_wrap_witness :
  convert_bit_share_II 3 1 (Src := GFp 2039) (Dst := GFp 7)
    (Resolved (field 1)) [500; 600; 700]
  = Ok (Resolved (field 1)) ∧
  convert_bit_share_II 3 1 (Src := GFp 2039) (Dst := GFp 7)
    (Resolved (field 1)) [500; 600; 1000]
  ≠ Ok (Resolved (field 1)) ∧
  convert_bit_share_II 3 3 (Src := GFp 2039) (Dst := GFp 7)
    (Resolved (field 1)) [500; 600; 700]
  = Ok Failed.
Proof.
  split_and!.
  - apply (convert_bit_share_II_no_wrap 3 1 2039 7 1 [500; 600; 700]).
    + done.
    + lia.
    + repeat constructor; lia.
    + simpl. lia.
  - vm_compute. discriminate.
  - apply (convert_bit_share_II_no_wrap 3 3 2039 7 1 [500; 600; 700]).
    + done.
    + lia.
    + repeat constructor; lia.
    + simpl. lia.
Defined.

(** *** The diamond operator *)

Lemma gf256_mul_loop_zero_l (n : nat) (b : Z) : gf256_mul_loop n 0 b 0 = 0.
Proof.
  revert b. induction n as [|n IH]; intros b; cbn [gf256_mul_loop]; [done|].
  change (xtime 0) with 0. change (Z.lxor 0 0) with 0.
  destruct (Z.testbit b 0); apply IH.
Qed.

Lemma gf256_mul_loop_zero_r (n : nat) (a acc : Z) :
  gf256_mul_loop n a 0 acc = acc.
Proof.
  revert a acc. induction n as [|n IH]; intros a acc;
    cbn [gf256_mul_loop]; [done|].
  change (Z.shiftr 0 1) with 0. change (Z.testbit 0 0) with false.
  apply IH.
Qed.

Lemma gf256_mul_one_l (z : Z) : 0 <= z < 256 → gf256_mul 1 z = z.
Proof.
  intros Hz.
  assert (forallb (λ n, gf256_mul 1 (Z.of_nat n) =? Z.of_nat n) (seq 0 256)
          = true) as Hall by (vm_compute; reflexivity).
  rewrite forallb_forall in Hall.
  specialize (Hall (Z.to_nat z)). rewrite Z2Nat.id in Hall by lia.
  apply Z.eqb_eq, Hall. apply in_seq. lia.
Qed.

(** X11.  The diamond operator obeys the two equations of its
    docstring on arbitrary [GF256] elements, not only on bits:
    [(x, X) ⋄ (0, Y) = (0, Y)] and [(x, X) ⋄ (1, Y) = (x, X)], in a
    runtime with more than twice as many players as the threshold.  The
    operator costs two [mul]: with fewer players both components
    fail. *)
Theorem diamond_docstring (players : Z) (threshold : nat) (x X Y : GF256) :
  0 <= value X < 256 → 0 <= value Y < 256 →
  (2 * Z.of_nat threshold < players →
   _diamond players threshold (Resolved x, Resolved X)
     (Resolved (field 0), Resolved Y)
   = (Resolved (field 0), Resolved Y) ∧
   _diamond players threshold (Resolved x, Resolved X)
     (Resolved (field 1), Resolved Y)
   = (Resolved x, Resolved X)) ∧
  (players <= 2 * Z.of_nat threshold →
   ∀ y, _diamond players threshold (Resolved x, Resolved X)
          (Resolved y, Resolved Y)
        = (Failed, Failed)).
Proof.
  intros HX HY. split.
  - intros Hn. unfold _diamond, xor_bit.
    rewrite !add_resolved, !mul_resolved, !add_resolved by done.
    destruct x as [x], X as [X], Y as [Y]. simpl in *.
    change (Z.land 0 255) with 0. change (Z.land 1 255) with 1.
    assert (gf256_mul x 0 = 0) as -> by apply gf256_mul_loop_zero_r.
    assert (gf256_mul 0 (Z.lxor X Y) = 0) as -> by apply gf256_mul_loop_zero_l.
    assert (gf256_mul x 1 = x) as ->.
    { unfold gf256_mul.
      change (gf256_mul_loop 8 x 1 0)
        with (gf256_mul_loop 7 (xtime x) 0 (Z.lxor 0 x)).
      rewrite gf256_mul_loop_zero_r. apply Z.lxor_0_l. }
    assert (gf256_mul 1 (Z.lxor X Y) = Z.lxor X Y) as ->.
    { apply gf256_mul_one_l.
      assert (0 <= Z.lxor X Y) by (apply Z.lxor_nonneg; lia).
      split; [done|].
      destruct (decide (Z.lxor X Y = 0)) as [->|Hn0]; [lia|].
      apply (Z.log2_lt_pow2 _ 8); [lia|].
      eapply Z.le_lt_trans; [apply Z.log2_lxor; lia|].
      apply Z.max_lub_lt.
      - destruct (decide (X = 0)) as [->|]; [done|].
        apply (Z.log2_lt_pow2 _ 8); lia.
      - destruct (decide (Y = 0)) as [->|]; [done|].
        apply (Z.log2_lt_pow2 _ 8); lia. }
    rewrite Z.lxor_0_l.
    by rewrite Z.lxor_assoc, Z.lxor_nilpotent, Z.lxor_0_r.
  - intros Hn y. unfold _diamond, xor_bit.
    rewrite add_resolved, !mul_too_few by done. reflexivity.
Qed.

Lemma diamond_docstring_witness :
  _diamond 3 1 (Resolved (field 200), Resolved (field 77))
    (Resolved (field 0), Resolved (field 91))
  = (Resolved (field 0), Resolved (field 91)) ∧
  _diamond 3 1 (Resolved (field 200), Resolved (field 77))
    (Resolved (field 1), Resolved (field 91))
  = (Resolved (field 200), Resolved (field 77)).
Proof.
  destruct (diamond_docstring 3 1 (field 200) (field 77) (field 91))
    as [Hok _]; [vm_compute; split; congruence..|].
  apply Hok. simpl. lia.
Defined.

(** *** More on the binary draw *)

Lemma binary_draw_bit (players : Z) (threshold : nat) (p : Z)
    (sqrt : GFp p → GFp p) (t : Z) (draws : nat → GFp p) (fuel : nat) :
  2 * Z.of_nat threshold < players →
  Z.prime p → 2 < p → 0 < t < p → draws O = mkGFp t →
  let root := sqrt (f_mul (mkGFp t : GFp p) (mkGFp t)) in
  f_mul root root = f_mul (mkGFp t) (mkGFp t) →
  ∃ b : bool,
    prss_share_random players threshold sqrt (S fuel) draws true
    = Some (Resolved (bitF b)) ∧
    (b = true ↔ value root mod p = t).
Proof.
  intros Hn Hprime Hodd Ht Hd root Hroot.
  assert ((t * t) mod p ≠ 0) as Hsq.
  { intros Hdiv. apply Z.mod_divide in Hdiv; [|lia].
    apply (proj1 (Z.divide_prime_mul _ _ _ Hprime)) in Hdiv.
    assert ((p | t)) as Hd' by (by destruct Hdiv).
    apply Z.mod_divide in Hd'; [|lia]. rewrite Z.mod_small in Hd' by lia.
    lia. }
  assert (prss_share_random players threshold sqrt (S fuel) draws true
          = Some (Resolved
                    (f_div (f_add (f_div (mkGFp t) root) (field 1))
                       (field 2))))
    as ->.
  { rewrite prss_share_random_step, opened_square, Hd. simpl orb. cbv iota.
    destruct (Z.ltb_spec (2 * Z.of_nat threshold) players); [|lia].
    simpl value.
    by rewrite (proj2 (Z.eqb_neq _ _) Hsq). }
  destruct root as [r] eqn:Er. clear Er.
  simpl in Hroot. injection Hroot as Hroot.
  assert (r mod p ≠ 0) as Hr0.
  { intros Hr0. apply Hsq. rewrite <- Hroot. by rewrite Zmult_mod, Hr0. }
  pose proof (Z.invmod_prime r p Hprime Hr0) as Hinv.
  destruct (ratio_is_unit_root p Hprime Hodd t r Hroot Hsq) as [Hu|Hu].
  - exists true. split.
    + unfold f_div, bitF. simpl. rewrite Hu.
      rewrite (Z.mod_small 1), (Z.mod_small 2) by lia.
      change (1 + 1) with 2. rewrite (Z.mod_small 2) by lia.
      do 3 f_equal. rewrite Z.mul_comm. apply Z.invmod_prime; [done|].
      rewrite Z.mod_small; lia.
    + split; [intros _|done].
      assert ((t * Z.invmod r p * r) mod p = r mod p) as E.
      { rewrite <- Zmult_mod_idemp_l, Hu. by rewrite Z.mul_1_l. }
      rewrite <- Z.mul_assoc, <- Zmult_mod_idemp_r, Hinv, Z.mul_1_r in E.
      simpl. rewrite <- E. apply Z.mod_small. lia.
  - exists false. split.
    + unfold f_div, bitF. simpl. rewrite Hu.
      rewrite (Z.mod_small 1) by lia.
      replace (p - 1 + 1) with p by lia.
      by rewrite Z_mod_same_full.
    + split; [done|]. intros Heq. exfalso. simpl in Heq.
      assert ((t * Z.invmod r p) mod p = 1) as E; [|lia].
      rewrite <- Heq, Zmult_mod_idemp_l, Z.mul_comm. exact Hinv.
Qed.

(** X12.  The retry loop of [prss_share_random(field, binary=True)] in
    a prime field with an odd modulus, in a runtime with more than twice
    as many players as the threshold: the draws that are zero are
    skipped, and the first draw that is not zero decides.  After that
    many retries the call returns a share that resolves to a bit, which
    is [1] when [FieldElement.sqrt] returns the drawn element itself and
    [0] when it returns the other square root. *)
Theorem prss_share_random_first_nonzero (players : Z) (threshold : nat)
    (p : Z) (sqrt : GFp p → GFp p) (zs : nat → Z) (j extra : nat) :
  2 * Z.of_nat threshold < players →
  Z.prime p → 2 < p →
  (∀ i, (i < j)%nat → zs i mod p = 0) → zs j mod p ≠ 0 →
  let share : GFp p := field (zs j) in
  let root := sqrt (f_mul share share) in
  f_mul root root = f_mul share share →
  ∃ b : bool,
    prss_share_random players threshold sqrt (S j + extra)
      (λ n, field (zs n)) true
    = Some (Resolved (bitF b)) ∧
    (b = true ↔ value root mod p = value share) ∧
    (∀ fuel, (fuel <= j)%nat →
       prss_share_random players threshold sqrt fuel (λ n, field (zs n)) true
       = None).
Proof.
  intros Hn Hprime Hodd. revert zs. induction j as [|j IH]; intros zs Hz Hnz.
  - intros share root Hroot.
    destruct (binary_draw_bit players threshold p sqrt (zs O mod p)
                (λ n, field (zs n)) extra)
      as (b & Hb & Hiff); try done.
    { pose proof (Z.mod_pos_bound (zs O) p ltac:(lia)). lia. }
    exists b. split_and!; [done|done|].
    intros fuel Hf. by assert (fuel = O) as -> by lia.
  - intros share root Hroot.
    destruct (IH (λ n, zs (S n))) as (b & Hb & Hiff & Hnone).
    + intros i Hi. apply Hz. lia.
    + done.
    + exact Hroot.
    + assert (∀ fuel, prss_share_random players threshold sqrt (S fuel)
                        (λ n, field (zs n)) true
                      = prss_share_random players threshold sqrt fuel
                          (λ n, field (zs (S n))) true) as Hstep.
      { intros fuel. rewrite prss_share_random_step, opened_square.
        simpl orb. cbv iota.
        destruct (Z.ltb_spec (2 * Z.of_nat threshold) players); [|lia].
        simpl value.
        rewrite Zmult_mod_idemp_l, Zmult_mod_idemp_r.
        rewrite Zmult_mod, (Hz O) by lia. reflexivity. }
      exists b. split_and!; [|done|].
      * change (S (S j) + extra)%nat with (S (S j + extra)).
        by rewrite Hstep.
      * intros [|fuel] Hf; [done|]. rewrite Hstep. apply Hnone. lia.
Qed.

Lemma prss_share_random_first_nonzero_witness :
  let sqrt : GFp 7 → GFp 7 := λ x, f_mul x x in
  prss_share_random 3 1 sqrt 3
    (λ n, field (match n with
                 | 0%nat => 0 | 1%nat => 14 | _ => 4
                 end)) true
  = Some (Resolved (field 1)).
Proof.
  intros sqrt.
  destruct (prss_share_random_first_nonzero 3 1 7 sqrt
              (λ n, match n with 0%nat => 0 | 1%nat => 14 | _ => 4 end)
              2 0 ltac:(simpl; lia) prime_7) as (b & Hb & Hiff & _).
  - lia.
  - intros [|[|i]] Hi; try reflexivity. lia.
  - vm_compute. discriminate.
  - reflexivity.
  - change 3%nat with (S 2 + 0)%nat. rewrite Hb.
    rewrite (proj2 Hiff eq_refl). reflexivity.
Defined.

(** *** When the comparisons refuse to run *)

(** X13.  [greater_than] fails an assertion exactly when the field has
    at most [2^33 + 2^35] elements or the runtime has [2^32 - 2] or more
    players.  The field size is checked first, so a field that is too
    small is reported with the message of the first assertion whatever
    the number of players.  The threshold and the state of the operands
    do not matter: what fails later fails in a share, not in the
    call. *)
Theorem greater_than_asserts {F : Type} `{FieldElement F} (players : Z)
    (threshold : nat) (share_a share_b : future F)
    (int_bits : list (future F)) (player_bits : nat → list Z) :
  let r := greater_than players threshold share_a share_b int_bits
             player_bits in
  ((∃ msg, r = Err (AssertionError msg)) ↔
   ¬ (2 ^ 33 + 2 ^ 35 < modulus (F := F) ∧ players + 2 < 2 ^ 32)) ∧
  (modulus (F := F) <= 2 ^ 33 + 2 ^ 35 →
   r = Err (AssertionError "2^(l+1) + 2^t < p must hold")) ∧
  (2 ^ 33 + 2 ^ 35 < modulus (F := F) → 2 ^ 32 <= players + 2 →
   r = Err (AssertionError "")).
Proof.
  intros r. unfold r, greater_than.
  change (2 ^ (32 + 1) + 2 ^ (32 + 2 + 1)) with (2 ^ 33 + 2 ^ 35).
  destruct (Z.ltb_spec (2 ^ 33 + 2 ^ 35) (modulus (F := F))) as [Hm|Hm];
    cbn [py_assert mbind result_bind].
  - destruct (Z.ltb_spec (players + 2) (2 ^ 32)) as [Hn|Hn];
      cbn [py_assert mbind result_bind].
    + split_and!; [|lia|lia]. split; [|intros Hc; by destruct Hc].
      by intros [msg Hmsg].
    + split_and!; [|lia|done]. split; [lia|]. intros _. by eexists.
  - split_and!; [|done|lia]. split; [lia|]. intros _. by eexists.
Qed.

(** X14.  The two phases of variant B must be run with the same bit
    length.  If [greater_thanII_preproc] has succeeded for the bit
    length [l1] (drawing its [l1 + 1 + k] random bits), then
    [greater_thanII_online] called with [l2] passes its assertion when
    [l2 = l1] and fails with "preprocessing does not match online
    parameters" for every other [l2]. *)
Theorem greater_thanII_phases_agree {F : Type} `{FieldElement F}
    (players : Z) (threshold : nat) (share_a share_b : future F)
    (l1 l2 k : Z) (draws : preproc_draws F) (pre : preproc_result F) :
  0 <= l1 → 0 <= k →
  (Z.to_nat (l1 + 1 + k) <= length (draw_bits draws))%nat →
  greater_thanII_preproc players threshold (Some l1) (Some k) draws = Ok pre →
  Z.of_nat (length (r_bits pre)) = l1 + 1 ∧
  (l2 ≠ l1 →
   greater_thanII_online players threshold share_a share_b pre (Some l2)
   = Err (AssertionError "preprocessing does not match online parameters")) ∧
  (l2 = l1 →
   ∃ v, greater_thanII_online players threshold share_a share_b pre (Some l2)
        = Ok v).
Proof.
  intros Hl Hk Hlen Hpre. unfold greater_thanII_preproc in Hpre.
  simpl default in Hpre.
  destruct (preproc_asserts _ _ _ _) as [[]|e]; [|done].
  cbn [mbind result_bind] in Hpre.
  destruct (convert_bit_share_II _ _ _ _) as [s|e]; [|done].
  cbn [mbind result_bind mret result_ret] in Hpre. injection Hpre as <-.
  cbn [r_bits].
  assert (length (slice_to (take (Z.to_nat (l1 + 1 + k)) (draw_bits draws))
                    (l1 + 1)) = Z.to_nat (l1 + 1)) as Hr.
  { unfold slice_to. destruct (Z.ltb_spec (l1 + 1) 0); [lia|].
    rewrite !length_take. lia. }
  split_and!.
  - rewrite Hr. lia.
  - intros Hne. unfold greater_thanII_online. simpl default. cbn [r_bits].
    rewrite Hr.
    destruct (Z.eqb_spec (l2 + 1) (Z.of_nat (Z.to_nat (l1 + 1)))); [lia|done].
  - intros ->. unfold greater_thanII_online. simpl default. cbn [r_bits].
    rewrite Hr.
    destruct (Z.eqb_spec (l1 + 1) (Z.of_nat (Z.to_nat (l1 + 1)))); [|lia].
    cbn [py_assert mbind result_bind]. by eexists.
Qed.

Lemma greater_thanII_phases_agree_witness :
  let draws : preproc_draws (GFp 8589934627) :=
    mk_preproc_draws (Resolved <$> (bitF <$> low_bits 2863311530 33))
      (Resolved (bitF true)) [5; 77; 1234] (field 77) (field 9) in
  ∃ pre, greater_thanII_preproc 3 1 (Some 2) (Some 30) draws = Ok pre ∧
    greater_thanII_online 3 1 (Resolved (field 3)) (Resolved (field 2)) pre
      (Some 3)
    = Err (AssertionError "preprocessing does not match online parameters") ∧
    ∃ v, greater_thanII_online 3 1 (Resolved (field 3)) (Resolved (field 2))
           pre (Some 2) = Ok v.
Proof.
  intros draws.
  destruct (greater_thanII_preproc 3 1 (Some 2) (Some 30) draws) as [pre|err]
    eqn:E; [|by vm_compute in E].
  destruct (greater_thanII_phases_agree 3 1 (Resolved (field 3))
              (Resolved (field 2)) 2 3 30 draws pre)
    as (_ & Hne & _); [lia|lia|by vm_compute|exact E|].
  destruct (greater_thanII_phases_agree 3 1 (Resolved (field 3))
              (Resolved (field 2)) 2 2 30 draws pre)
    as (_ & _ & Heq); [lia|lia|by vm_compute|exact E|].
  exists pre. split_and!; [done|apply Hne; lia|by apply Heq].
Defined.

Lemma greater_than_correct_witness :
  greater_than (F := GFp 30916444023318367583) 3 1 (Resolved (field 10))
    (Resolved (field 20)) (Resolved <$> (bitF <$> low_bits 11453246122 34))
    (λ i, Z.b2z <$> [true; false; true])
  = Ok (Resolved (bitF false)) ∧
  greater_than (F := GFp 30916444023318367583) 3 1 (Resolved (field 30))
    (Resolved (field 20)) (Resolved <$> (bitF <$> low_bits 11453246122 34))
    (λ i, Z.b2z <$> [true; false; true])
  = Ok (Resolved (bitF true)).
Proof.
  split.
  - apply (greater_than_correct 3 1 ltac:(simpl; lia) 30916444023318367583
             10 20 (low_bits 11453246122 34) (λ _, [true; false; true]));
      [vm_compute; reflexivity|lia|lia|lia|by rewrite low_bits_length].
  - apply (greater_than_correct 3 1 ltac:(simpl; lia) 30916444023318367583
             30 20 (low_bits 11453246122 34) (λ _, [true; false; true]));
      [vm_compute; reflexivity|lia|lia|lia|by rewrite low_bits_length].
Defined.

(** *** Thresholds outside the list *)

(** X16.  The edges of [_recombine].  A threshold of at least the
    number of shares fails the assertion.  A negative threshold passes
    it, also for an empty list: with [-1] the slice [shares[:0]] is
    empty, so the result fires at once with the reconstruction of no
    points, and below [-1] the slice counts from the end and drops the
    last [-(threshold + 1)] shares. *)
Theorem recombine_threshold_edges {F : Type} `{FieldElement F}
    (recombine : list (F * F) → F) (shares : list (option (F * F)))
    (threshold : Z) :
  (Z.of_nat (length shares) <= threshold →
   _recombine recombine shares threshold = Err (AssertionError "")) ∧
  (threshold = -1 →
   _recombine recombine shares threshold = Ok (Some (recombine []))) ∧
  (threshold < -1 →
   _recombine recombine shares threshold
   = Ok (recombine <$>
           gatherResults
             (take (length shares - Z.to_nat (- (threshold + 1))) shares))).
Proof.
  unfold _recombine. split_and!.
  - intros Hle. by destruct (Z.ltb_spec threshold (Z.of_nat (length shares)));
      [lia|].
  - intros ->. by destruct (Z.ltb_spec (-1) (Z.of_nat (length shares)));
      [|lia].
  - intros Hlt. destruct (Z.ltb_spec threshold (Z.of_nat (length shares)));
      [|lia].
    cbn [py_assert mbind result_bind mret result_ret]. unfold slice_to.
    destruct (Z.ltb_spec (threshold + 1) 0); [|lia].
    do 4 f_equal. lia.
Qed.

(** *** The application [xor_all] *)

Lemma xor_all_loop_spec (fuel : nat) (inputs : list GF256) :
  inputs ≠ [] → (length inputs <= S fuel)%nat →
  ∃ x, xor_all_loop fuel (Resolved <$> inputs) = [Resolved x] ∧
       gf256_value x = foldr Z.lxor 0 (gf256_value <$> inputs).
Proof.
  revert inputs. induction fuel as [|fuel IH]; intros inputs Hne Hlen.
  - destruct inputs as [|x [|y rest]]; [done| |simpl in Hlen; lia].
    exists x. split; [done|]. simpl. by rewrite Z.lxor_0_r.
  - destruct inputs as [|a [|b rest]]; [done| |].
    + exists a. split; [done|]. simpl. by rewrite Z.lxor_0_r.
    + rewrite !fmap_cons. cbn [xor_all_loop]. unfold xor_bit.
      rewrite add_resolved.
      change [Resolved (f_add a b)] with (Resolved <$> [f_add a b]).
      rewrite <- fmap_app.
      destruct (IH (rest ++ [f_add a b])) as (x & -> & Hx).
      * by destruct rest.
      * rewrite length_app. simpl in *. lia.
      * exists x. split; [done|]. rewrite Hx, fmap_app, foldr_app. simpl.
        rewrite Z.lxor_0_r.
        assert (∀ (l : list Z) (c : Z),
                  foldr Z.lxor c l = Z.lxor c (foldr Z.lxor 0 l)) as Hacc.
        { induction l as [|z l IHl]; intros c; simpl.
          - by rewrite Z.lxor_0_r.
          - rewrite IHl, (Z.lxor_comm z), Z.lxor_assoc. f_equal.
            apply Z.lxor_comm. }
        rewrite Hacc. rewrite Z.lxor_assoc. done.
Qed.

(** X17.  [xor_all.py] opens the exclusive-or of all inputs: the loop
    that pops two shares from the front and appends their [xor_bit] ends
    after [n - 1] rounds with a single share over the exclusive-or of
    the [n] inputs, whatever pairs it has combined on the way.  The
    runtime is created with the threshold [1], so the opening needs two
    players at least: run by a single player it fails the assertion of
    [_recombine].  With no share at all, [shares[0]] raises
    [IndexError]. *)
Theorem xor_all_opens_xor (inputs : list GF256) :
  xor_all inputs
  = match inputs with
    | [] => Err IndexError
    | [_] => Ok Failed
    | _ => Ok (Resolved (mkGF256 (foldr Z.lxor 0 (gf256_value <$> inputs))))
    end.
Proof.
  destruct inputs as [|a rest]; [done|].
  unfold xor_all. rewrite length_fmap.
  destruct (xor_all_loop_spec (length (a :: rest)) (a :: rest))
    as (x & -> & Hx); [done|lia|].
  destruct rest as [|b rest]; [done|].
  unfold open. cbn [default from_option id].
  destruct (Z.ltb_spec (Z.of_nat 1) (Z.of_nat (length (a :: b :: rest))))
    as [_|Hlen]; [|simpl in Hlen; lia].
  do 2 f_equal. destruct x as [v]. simpl in Hx. by rewrite Hx.
Qed.

(** *** Attributing connections to players *)

Section NetworkProofs.
Context {Host Ip : Type} `{Countable Ip}.
Variable gethostbyname : Host → Ip.

Lemma mapping_fold (players : list (Z * Player (Host := Host)))
    (m : gmap (Ip * Z) Z) :
  foldl (λ mapping e, <[(e.1, port e.2.2) := e.2.1]> mapping) m
    (zip ((λ e, gethostbyname (host e.2)) <$> players) players)
  = foldl (λ mapping e, <[address_key gethostbyname e := e.1]> mapping) m players.
Proof.
  revert m. induction players as [|e players IH]; intros m; [done|].
  simpl. apply IH.
Qed.

Lemma mapping_lookup_Some (players : list (Z * Player (Host := Host)))
    (m : gmap (Ip * Z) Z) (key : Ip * Z) (id : Z) :
  (∀ e, e ∈ players → address_key gethostbyname e = key → e.1 = id) →
  (m !! key = Some id ∨ ∃ e, e ∈ players ∧ address_key gethostbyname e = key) →
  foldl (λ mapping e, <[address_key gethostbyname e := e.1]> mapping) m players !! key
  = Some id.
Proof.
  revert m. induction players as [|e players IH]; intros m Hu Hex; simpl.
  - destruct Hex as [|(e & He & _)]; [done|]. by apply elem_of_nil in He.
  - apply IH.
    + intros e' He'. apply Hu. by right.
    + destruct (decide (address_key gethostbyname e = key)) as [Hk|Hk].
      * left. rewrite Hk, lookup_insert_eq. f_equal. apply Hu; [by left|done].
      * destruct Hex as [Hm|(e' & He' & Hk')].
        -- left. by rewrite lookup_insert_ne.
        -- apply elem_of_cons in He' as [->|He']; [done|].
           right. by exists e'.
Qed.

Lemma mapping_lookup_None (players : list (Z * Player (Host := Host)))
    (m : gmap (Ip * Z) Z) (key : Ip * Z) :
  (∀ e, e ∈ players → address_key gethostbyname e ≠ key) →
  foldl (λ mapping e, <[address_key gethostbyname e := e.1]> mapping) m players !! key
  = m !! key.
Proof.
  revert m. induction players as [|e players IH]; intros m Hn; simpl; [done|].
  rewrite IH by (intros e' He'; apply Hn; by right).
  apply lookup_insert_ne. apply Hn. by left.
Qed.

Lemma player_of_elem (players : list (Z * Player (Host := Host))) (id : Z)
    (p : Player) :
  NoDup players.*1 → (id, p) ∈ players → player_of players id = Ok p.
Proof.
  induction players as [|[id' p'] players IH]; intros Hnd Hin.
  - by apply elem_of_nil in Hin.
  - apply NoDup_cons in Hnd as [Hfresh Hnd]. simpl.
    apply elem_of_cons in Hin as [[= -> ->]|Hin].
    + by rewrite decide_True.
    + rewrite decide_False; [by apply IH|].
      intros ->. apply Hfresh. apply list_elem_of_fmap. by exists (id, p).
Qed.

(** X15.  The port convention.  Player [a] connects to every player [b]
    with a larger id from the local port [port a + b].  When the
    listening port of [a] is a multiple of 100, [0 <= b < 100] and no
    other player shares [a]'s address, the factory of the accepting side
    rounds the remote port down to [port a] and attributes the
    connection to [a]; the connecting side attributes its end to [b]
    under the same conditions on [b]'s port.  For [b >= 100] the rounded
    port is no longer [port a]: unless some player listens there, the
    lookup fails with [KeyError]. *)
Theorem connect_identifies_peer (players : list (Z * Player (Host := Host)))
    (a b : Z) (pa pb : Player) (addr : Address) :
  NoDup players.*1 → (a, pa) ∈ players → (b, pb) ∈ players → a < b →
  port pa mod 100 = 0 →
  (∀ e, e ∈ players → address_key gethostbyname e = address_key gethostbyname (a, pa) → e.1 = a) →
  gethostbyname (addr_host addr) = gethostbyname (host pa) →
  addr_port addr = port pa + b →
  ∃ mapping connections,
    connect gethostbyname players a = Ok (mapping, port pa, connections) ∧
    mkConnection (host pb) (port pb) (host pa) (port pa + b) ∈ connections ∧
    (0 <= b < 100 → buildProtocol gethostbyname mapping addr = Ok a) ∧
    (100 <= b →
     (∀ e, e ∈ players →
           address_key gethostbyname e ≠ (gethostbyname (host pa), port pa + b - b mod 100)) →
     buildProtocol gethostbyname mapping addr = Err KeyError) ∧
    (port pb mod 100 = 0 →
     (∀ e, e ∈ players → address_key gethostbyname e = address_key gethostbyname (b, pb) → e.1 = b) →
     buildProtocol gethostbyname mapping (mkAddress (host pb) (port pb))
     = Ok b).
Proof.
  intros Hnd Ha Hb Hab Hport Huniq Hip Hp.
  unfold connect. rewrite (player_of_elem _ _ _ Hnd Ha).
  cbn [mbind result_bind mret result_ret].
  eexists _, _. split; [reflexivity|].
  unfold port_player_mapping. rewrite mapping_fold.
  split_and!.
  - apply list_elem_of_omap. exists (b, pb). split; [done|]. simpl.
    by destruct (Z.ltb_spec a b); [|lia].
  - intros Hb100. unfold buildProtocol. rewrite Hip, Hp.
    assert ((port pa + b) mod 100 = b) as ->.
    { replace (port pa) with (port pa / 100 * 100)
        by (pose proof (Z.div_mod (port pa) 100); lia).
      rewrite Z.add_comm, Z_mod_plus_full. by apply Z.mod_small. }
    replace (port pa + b - b) with (port pa) by lia.
    rewrite (mapping_lookup_Some players ∅ _ a); [done|done|].
    right. by exists (a, pa).
  - intros Hb100 Hfree. unfold buildProtocol. rewrite Hip, Hp.
    assert ((port pa + b) mod 100 = b mod 100) as ->.
    { replace (port pa) with (port pa / 100 * 100)
        by (pose proof (Z.div_mod (port pa) 100); lia).
      by rewrite Z.add_comm, Z_mod_plus_full. }
    rewrite mapping_lookup_None by done. by rewrite lookup_empty.
  - intros Hportb Huniqb. unfold buildProtocol. simpl.
    rewrite Hportb, Z.sub_0_r.
    rewrite (mapping_lookup_Some players ∅ _ b); [done|done|].
    right. by exists (b, pb).
Qed.
End NetworkProofs.

Lemma connect_identifies_peer_witness :
  let players := [(1, mkPlayer 10%nat 9100); (2, mkPlayer 20%nat 9200);
                  (3, mkPlayer 30%nat 9300)] in
  ∃ mapping connections,
    connect (λ h : nat, h) players 1 = Ok (mapping, 9100, connections) ∧
    buildProtocol (λ h : nat, h) mapping (mkAddress 10%nat 9103) = Ok 1.
Proof.
  intros players.
  destruct (connect_identifies_peer (λ h : nat, h) players 1 3
              (mkPlayer 10%nat 9100) (mkPlayer 30%nat 9300)
              (mkAddress 10%nat 9103))
    as (mapping & connections & Hc & _ & Hb & _).
  - simpl. repeat (apply NoDup_cons;
                   split; [rewrite ?elem_of_cons, elem_of_nil; lia|]).
    apply NoDup_nil_2.
  - by left.
  - right. right. by left.
  - lia.
  - reflexivity.
  - intros e He Hk. unfold players in He.
    repeat (apply elem_of_cons in He as [->|He]; [done|]).
    by apply elem_of_nil in He.
  - reflexivity.
  - reflexivity.
  - exists mapping, connections. split; [exact Hc|]. apply Hb. lia.
Defined.

(** *** Authentication codes of the BeDOZa runtime *)

Lemma py_index_lookup {A : Type} (l : list A) (i : nat) (x : A) :
  l !! i = Some x → BeDOZa.py_index l (Z.of_nat i) = Ok x.
Proof.
  intros Hl. unfold BeDOZa.py_index.
  destruct (Z.ltb_spec (Z.of_nat i) 0); [lia|].
  destruct (Z.ltb_spec (Z.of_nat i) 0); [lia|].
  by rewrite Nat2Z.id, Hl.
Qed.

Section CodesProofs.
Context {F : Type} `{FieldElement F}.

Lemma recombine_value_checks (alpha : F) (keys xs ms : list F) :
  length ms = length xs → (length xs <= length keys)%nat →
  BeDOZa.recombine_value (length xs) (xs ++ ms) (alpha, keys)
  = if forallb (BeDOZa.code_ok alpha keys xs ms) (seq 0 (length xs))
    then Ok (foldl f_add (field 0) xs)
    else Err BeDOZa.BeDOZaException.
Proof.
  intros Hms Hkeys. unfold BeDOZa.recombine_value. cbn [fst snd].
  set (n := length xs).
  set (step := λ (acc : result (F * bool)) (inx : nat), _).
  assert (∀ k, (k <= n)%nat →
            foldl step (Ok (field 0, true)) (seq 0 k)
            = Ok (foldl f_add (field 0) (take k xs),
                  forallb (BeDOZa.code_ok alpha keys xs ms) (seq 0 k))) as Hloop.
  { induction k as [|k IH]; intros Hk; [done|].
    rewrite seq_S, foldl_app, IH by lia. simpl.
    destruct (lookup_lt_is_Some_2 xs k ltac:(fold n; lia)) as [xi Hxi].
    destruct (lookup_lt_is_Some_2 ms k ltac:(rewrite Hms; fold n; lia))
      as [mi Hmi].
    destruct (lookup_lt_is_Some_2 keys k ltac:(fold n in Hkeys; lia))
      as [beta Hbeta].
    rewrite (py_index_lookup (xs ++ ms) k xi)
      by (by rewrite lookup_app_l by (fold n; lia)).
    rewrite <- Nat2Z.inj_add.
    rewrite (py_index_lookup (xs ++ ms) (n + k) mi).
    2:{ rewrite lookup_app_r by (fold n; lia).
        by replace (n + k - length xs)%nat with k by (fold n; lia). }
    rewrite (py_index_lookup keys k beta) by done.
    cbn [mbind result_bind mret result_ret].
    assert (BeDOZa.code_ok alpha keys xs ms k
            = (value mi =? value (BeDOZa.MAC alpha beta xi))) as Hck
      by (unfold BeDOZa.code_ok; by rewrite Hmi, Hbeta, Hxi).
    rewrite forallb_app. cbn [forallb]. rewrite Hck, andb_true_r.
    rewrite (take_S_r _ _ xi) by done. by rewrite foldl_app. }
  rewrite Hloop by done. rewrite take_ge by (unfold n; lia).
  by destruct (forallb _ _).
Qed.
End CodesProofs.

(** X18.  Honest shares open.  When every code is the [MAC] of its
    share under the receiver's [alpha] and the key of that position,
    [recombine_value] accepts and returns the sum of the shares. *)
Theorem recombine_value_accepts {F : Type} `{FieldElement F}
    (alpha : F) (keys xs : list F) :
  (length xs <= length keys)%nat →
  BeDOZa.recombine_value (length xs)
    (xs ++ zip_with (λ xi beta, BeDOZa.MAC alpha beta xi) xs keys)
    (alpha, keys)
  = Ok (foldl f_add (field 0) xs).
Proof.
  intros Hlen. rewrite recombine_value_checks.
  - assert (forallb _ (seq 0 (length xs)) = true) as ->; [|done].
    apply forallb_forall. intros k Hk. apply in_seq in Hk.
    unfold BeDOZa.code_ok. rewrite lookup_zip_with.
    destruct (xs !! k) as [xi|] eqn:Ex; [|done]. simpl.
    destruct (keys !! k) as [beta|] eqn:Eb; [|done]. simpl.
    apply Z.eqb_refl.
  - rewrite length_zip_with. lia.
  - done.
Qed.

Lemma recombine_value_accepts_witness :
  BeDOZa.recombine_value (F := GFp 2039) 3
    [field 10; field 20; field 30; field 24; field 45; field 66]
    (field 2, [field 4; field 5; field 6])
  = Ok (field 60).
Proof.
  exact (recombine_value_accepts (F := GFp 2039) (field 2)
           [field 4; field 5; field 6] [field 10; field 20; field 30]
           ltac:(simpl; lia)).
Defined.

(** X19.  A changed share is caught.  In a prime field, with an
    [alpha] that is not zero, replacing any one share by a different
    element while the codes stay those of the original shares makes
    [recombine_value] raise [BeDOZaException]; it does not return a
    value. *)
Theorem recombine_value_rejects (p : Z) (alpha : GFp p)
    (keys xs xs' : list (GFp p)) (i : nat) (x x' : GFp p) :
  Z.prime p → value alpha mod p ≠ 0 →
  length xs' = length xs → (length xs <= length keys)%nat →
  xs !! i = Some x → xs' !! i = Some x' →
  value x mod p ≠ value x' mod p →
  BeDOZa.recombine_value (length xs')
    (xs' ++ zip_with (λ xi beta, BeDOZa.MAC alpha beta xi) xs keys)
    (alpha, keys)
  = Err BeDOZa.BeDOZaException.
Proof.
  intros Hprime Halpha Hlen Hkeys Hx Hx' Hne.
  assert (2 <= p) as Hp2 by (by apply Z.prime_ge_2).
  rewrite recombine_value_checks.
  - assert (forallb (BeDOZa.code_ok alpha keys xs'
                       (zip_with (λ xi beta, BeDOZa.MAC alpha beta xi) xs keys))
              (seq 0 (length xs')) = false) as ->; [|done].
    apply not_true_is_false. intros Hall. rewrite forallb_forall in Hall.
    assert (i < length xs')%nat as Hi by (by eapply lookup_lt_Some).
    specialize (Hall i ltac:(apply in_seq; lia)).
    unfold BeDOZa.code_ok in Hall. rewrite lookup_zip_with, Hx in Hall.
    simpl in Hall.
    destruct (lookup_lt_is_Some_2 keys i ltac:(lia)) as [beta Hbeta].
    rewrite Hbeta, Hx' in Hall. simpl in Hall. apply Z.eqb_eq in Hall.
    rewrite !Zplus_mod_idemp_l in Hall.
    apply Hne.
    assert ((p | gfp_value alpha * (gfp_value x - gfp_value x'))) as Hd.
    { apply Z.mod_divide; [lia|].
      replace (gfp_value alpha * (gfp_value x - gfp_value x'))
        with (gfp_value alpha * gfp_value x + gfp_value beta
              - (gfp_value alpha * gfp_value x' + gfp_value beta)) by ring.
      rewrite Zminus_mod, Hall, <- Zminus_mod. by rewrite Z.sub_diag. }
    apply (proj1 (Z.divide_prime_mul _ _ _ Hprime)) in Hd as [Hd|Hd].
    + apply Z.mod_divide in Hd; [|lia]. done.
    + apply Z.mod_divide in Hd; [|lia]. simpl.
      rewrite Zminus_mod in Hd.
      pose proof (Z.mod_pos_bound (gfp_value x) p ltac:(lia)).
      pose proof (Z.mod_pos_bound (gfp_value x') p ltac:(lia)).
      destruct (decide (gfp_value x mod p = gfp_value x' mod p)); [done|].
      exfalso.
      destruct (Z.lt_ge_cases (gfp_value x mod p) (gfp_value x' mod p)).
      * rewrite <- (Z_mod_plus_full _ 1), Z.mod_small in Hd; lia.
      * rewrite Z.mod_small in Hd; lia.
  - rewrite length_zip_with. lia.
  - lia.
Qed.

Lemma prime_2039 : Z.prime 2039.
Proof. apply prime_check_sound. vm_compute. reflexivity. Qed.

Lemma recombine_value_rejects_witness :
  BeDOZa.recombine_value (F := GFp 2039) 3
    [field 10; field 21; field 30; field 24; field 45; field 66]
    (field 2, [field 4; field 5; field 6])
  = Err BeDOZa.BeDOZaException.
Proof.
  assert (value (field 2 : GFp 2039) mod 2039 ≠ 0) as Halpha
    by (vm_compute; discriminate).
  assert (value (field 20 : GFp 2039) mod 2039
          ≠ value (field 21 : GFp 2039) mod 2039) as Hne
    by (vm_compute; discriminate).
  exact (recombine_value_rejects 2039 (field 2)
           [field 4; field 5; field 6] [field 10; field 20; field 30]
           [field 10; field 21; field 30] 1 (field 20) (field 21)
           prime_2039 Halpha eq_refl ltac:(simpl; lia) eq_refl eq_refl Hne).
Defined.

(** X20.  The key material fits together.  With the keys of
    [load_keys], the codes player [i] attaches to its share with
    [generate_auth_codes] are the ones player [j] expects: whatever the
    three shares are, at every receiver [j] among the players 1, 2 and 3
    the values and codes gathered by [exchange] pass [recombine_value]
    with the receiver's own key list, and the result is the sum of the
    three shares. *)
Theorem open_returns_sum {F : Type} `{FieldElement F} (x1 x2 x3 : F)
    (receiver : Z) :
  1 <= receiver <= 3 →
  ∃ c1 c2 c3 keyList shares_codes,
    BeDOZa.generate_auth_codes BeDOZa.load_keys 1 x1 = Ok c1 ∧
    BeDOZa.generate_auth_codes BeDOZa.load_keys 2 x2 = Ok c2 ∧
    BeDOZa.generate_auth_codes BeDOZa.load_keys 3 x3 = Ok c3 ∧
    BeDOZa.generate_keys BeDOZa.load_keys receiver = Ok keyList ∧
    BeDOZa.gathered_at [(x1, c1); (x2, c2); (x3, c3)] receiver
    = Ok shares_codes ∧
    BeDOZa.recombine_value 3 shares_codes keyList
    = Ok (f_add (f_add (f_add (field 0) x1) x2) x3).
Proof.
  intros Hr.
  assert (receiver = 1 ∨ receiver = 2 ∨ receiver = 3) as [->|[->| ->]] by lia.
  all: eexists _, _, _, _, _; split_and!; try reflexivity.
  all: unfold BeDOZa.recombine_value; simpl;
    unfold BeDOZa.MAC; by rewrite !Z.eqb_refl.
Qed.

Lemma open_returns_sum_witness :
  ∃ c1 c2 c3 shares_codes,
    BeDOZa.generate_auth_codes (F := GFp 2039) BeDOZa.load_keys 1 (field 10)
    = Ok c1 ∧
    BeDOZa.generate_auth_codes (F := GFp 2039) BeDOZa.load_keys 2 (field 20)
    = Ok c2 ∧
    BeDOZa.generate_auth_codes (F := GFp 2039) BeDOZa.load_keys 3 (field 30)
    = Ok c3 ∧
    BeDOZa.gathered_at [(field 10, c1); (field 20, c2); (field 30, c3)] 2
    = Ok shares_codes ∧
    BeDOZa.recombine_value 3 shares_codes
      (field 3, [field 4; field 5; field 6])
    = Ok (field 60).
Proof.
  destruct (open_returns_sum (F := GFp 2039) (field 10) (field 20) (field 30) 2)
    as (c1 & c2 & c3 & kl & sc & H1 & H2 & H3 & Hk & Hg & Hr); [lia|].
  exists c1, c2, c3, sc. split_and!; try done.
  injection Hk as <-. exact Hr.
Defined.

(** X21.  Player ids outside 1..3.  [generate_auth_codes] picks the
    key [akeys[playerId - 1]]: for [playerId = 0] the index [-1] counts
    from the end, so the call succeeds and gives the codes of player 3;
    for [playerId = 4] it raises [IndexError].  [get_keys] has no branch
    for such ids and returns [None], which [generate_keys] cannot
    unpack: [TypeError]. *)
Theorem key_material_other_ids {F : Type} `{FieldElement F} (v : F) (id : Z) :
  BeDOZa.generate_auth_codes BeDOZa.load_keys 0 v
  = BeDOZa.generate_auth_codes BeDOZa.load_keys 3 v ∧
  (∃ codes, BeDOZa.generate_auth_codes BeDOZa.load_keys 3 v = Ok codes) ∧
  BeDOZa.generate_auth_codes BeDOZa.load_keys 4 v = Err IndexError ∧
  ((id < 1 ∨ 3 < id) →
   BeDOZa.get_keys (F := F) BeDOZa.load_keys id = Ok None ∧
   BeDOZa.generate_keys (F := F) BeDOZa.load_keys id = Err TypeError).
Proof.
  split_and!; try reflexivity.
  - by eexists.
  - intros Hid. unfold BeDOZa.generate_keys, BeDOZa.get_keys.
    destruct (Z.eqb_spec id 1); [lia|].
    destruct (Z.eqb_spec id 2); [lia|].
    destruct (Z.eqb_spec id 3); [lia|]. done.
Qed.

(** *** The transform of [apps/fft.py] *)

Lemma fft_index_lookup {A : Type} (l : list A) (i : nat) (x : A) :
  l !! i = Some x → FFT.index l (Z.of_nat i) = FFT.Returns x.
Proof.
  intros Hl. unfold FFT.index.
  destruct (Z.ltb_spec (Z.of_nat i) 0); [lia|].
  destruct (Z.ltb_spec (Z.of_nat i) 0); [lia|].
  by rewrite Nat2Z.id, Hl.
Qed.

Lemma fft_index_nonneg {A : Type} (l : list A) (k : Z) (x : A) :
  0 <= k → l !! Z.to_nat k = Some x → FFT.index l k = FFT.Returns x.
Proof.
  intros Hk Hl. rewrite <- (Z2Nat.id k) by done.
  by apply fft_index_lookup.
Qed.

Lemma fill_returns {A B : Type} (f : A → FFT.outcome B) (g : A → B)
    (l : list A) :
  (∀ a, a ∈ l → f a = FFT.Returns (g a)) →
  FFT.fill f l = FFT.Returns (g <$> l).
Proof.
  induction l as [|a l IH]; intros Hf; [done|].
  simpl. rewrite (Hf a) by (by left).
  rewrite IH by (intros b Hb; apply Hf; by right). done.
Qed.

Lemma odds_cons2 {A : Type} (a b : A) (l : list A) :
  FFT.odds (a :: b :: l) = b :: FFT.odds l.
Proof. unfold FFT.odds. by destruct l. Qed.

Lemma evens_odds_length {A : Type} (h : nat) (l : list A) :
  length l = (2 * h)%nat →
  length (FFT.evens l) = h ∧ length (FFT.odds l) = h.
Proof.
  revert l. induction h as [|h IH]; intros l Hl.
  - by destruct l.
  - destruct l as [|a [|b l]]; simpl in Hl; try lia.
    destruct (IH l ltac:(lia)) as [He Ho].
    rewrite odds_cons2. cbn [FFT.evens length]. by rewrite He, Ho.
Qed.

Lemma sum_imap_scale (c : Z) (f g : nat → Z → Z) (l : list Z) :
  (∀ k x, f k x = c * g k x) →
  foldr Z.add 0 (imap f l) = c * foldr Z.add 0 (imap g l).
Proof.
  revert f g. induction l as [|x l IH]; intros f g Hfg; simpl; [lia|].
  rewrite (IH (f ∘ S) (g ∘ S)) by (intros k y; apply Hfg).
  rewrite Hfg. lia.
Qed.

Lemma sum_imap_congr (p : Z) (f g : nat → Z → Z) (l : list Z) :
  (∀ k x, (k < length l)%nat → f k x mod p = g k x mod p) →
  foldr Z.add 0 (imap f l) mod p = foldr Z.add 0 (imap g l) mod p.
Proof.
  revert f g. induction l as [|x l IH]; intros f g Hfg; simpl; [done|].
  rewrite Zplus_mod, (IH (f ∘ S) (g ∘ S)), Hfg, <- Zplus_mod; [done| |].
  - simpl. lia.
  - intros k y Hk. apply Hfg. simpl. lia.
Qed.

Lemma dft_sum_cons (a : Z) (A : list Z) (w j : Z) :
  0 <= j → FFT.dft_sum (a :: A) w j = a + w ^ j * FFT.dft_sum A w j.
Proof.
  intros Hj. unfold FFT.dft_sum. simpl.
  rewrite Z.mul_0_r, Z.pow_0_r, Z.mul_1_r. f_equal.
  apply sum_imap_scale. intros k x. simpl.
  replace (j * Z.of_nat (S k)) with (j + j * Z.of_nat k) by lia.
  rewrite Z.pow_add_r by lia. lia.
Qed.

Lemma dft_sum_split (A : list Z) (w j : Z) :
  0 <= j →
  FFT.dft_sum A w j
  = FFT.dft_sum (FFT.evens A) (w ^ 2) j
    + w ^ j * FFT.dft_sum (FFT.odds A) (w ^ 2) j.
Proof.
  intros Hj.
  assert ((w ^ 2) ^ j = w ^ j * w ^ j) as Hsq.
  { rewrite <- Z.pow_mul_r, <- Z.pow_add_r by lia. f_equal. lia. }
  assert (∀ l : list Z,
            (FFT.dft_sum l w j
             = FFT.dft_sum (FFT.evens l) (w ^ 2) j
               + w ^ j * FFT.dft_sum (FFT.odds l) (w ^ 2) j) ∧
            ∀ a, FFT.dft_sum (a :: l) w j
                 = FFT.dft_sum (FFT.evens (a :: l)) (w ^ 2) j
                   + w ^ j * FFT.dft_sum (FFT.odds (a :: l)) (w ^ 2) j) as H.
  { induction l as [|b l [IH1 IH2]].
    - split; [unfold FFT.dft_sum; simpl; lia|].
      intros a. change (FFT.odds [a]) with (@nil Z).
      change (FFT.evens [a]) with [a]. rewrite !dft_sum_cons by done.
      unfold FFT.dft_sum. simpl. ring.
    - split; [apply IH2|]. intros a.
      rewrite odds_cons2. cbn [FFT.evens].
      rewrite !dft_sum_cons by done. rewrite IH1, Hsq. ring. }
  apply H.
Qed.

Lemma dft_sum_congr (p : Z) (A : list Z) (w1 w2 j1 j2 : Z) :
  (∀ k : nat, (k < length A)%nat →
     w1 ^ (j1 * Z.of_nat k) mod p = w2 ^ (j2 * Z.of_nat k) mod p) →
  FFT.dft_sum A w1 j1 mod p = FFT.dft_sum A w2 j2 mod p.
Proof.
  intros Hw. unfold FFT.dft_sum. apply sum_imap_congr.
  intros k x Hk. simpl. by rewrite Zmult_mod, Hw, <- Zmult_mod.
Qed.

Lemma root_power_period (w p h j : Z) (i : nat) :
  0 <= j → 0 < h → (w ^ 2) ^ h mod p = 1 mod p →
  (w ^ 2 mod p) ^ (j mod h * Z.of_nat i) mod p
  = (w ^ 2) ^ (j * Z.of_nat i) mod p.
Proof.
  intros Hj Hh Hroot. rewrite Z.mod_pow_l.
  pose proof (Z.mod_pos_bound j h Hh) as Hk.
  pose proof (Z.div_pos j h Hj Hh) as Hq.
  rewrite (Z.div_mod j h) at 2 by lia.
  replace ((h * (j / h) + j mod h) * Z.of_nat i)
    with (j mod h * Z.of_nat i + h * (j / h * Z.of_nat i)) by ring.
  rewrite Z.pow_add_r by nia.
  rewrite (Z.pow_mul_r _ h) by nia.
  rewrite Zmult_mod, <- (Z.mod_pow_l (_ ^ h)), Hroot, Z.mod_pow_l.
  rewrite Z.pow_1_l by nia.
  by rewrite <- Zmult_mod, Z.mul_1_r.
Qed.

Lemma mod_combine (b c w B C p : Z) :
  b mod p = B mod p → c mod p = C mod p →
  (b + (w mod p * c) mod p) mod p = (B + w * C) mod p.
Proof.
  intros Hb Hc. rewrite Zplus_mod_idemp_r.
  rewrite Zplus_mod, Hb, (Zmult_mod (w mod p)), Zmod_mod, Hc.
  by rewrite <- Zmult_mod, <- Zplus_mod.
Qed.

Lemma fft_power_of_two (e : nat) :
  ∀ (fuel : nat) (A : list Z) (omega p : Z),
    p ≠ 0 → length A = (2 ^ e)%nat →
    omega ^ (2 ^ Z.of_nat e) mod p = 1 mod p → (e <= fuel)%nat →
    ∃ R, FFT.fft fuel (2 ^ Z.of_nat e) A omega p = Some (FFT.Returns R) ∧
         length R = (2 ^ e)%nat ∧
         ∀ (j : nat) (r : Z), R !! j = Some r →
           r mod p = FFT.dft_sum A omega (Z.of_nat j) mod p ∧
           (e ≠ O → r mod p = r).
Proof.
  induction e as [|e IH]; intros fuel A omega p Hp Hlen Hroot Hfuel.
  - exists A. destruct fuel; (split; [done|]); (split; [done|]);
      intros j r Hj; destruct A as [|a [|? ?]]; try done;
      destruct j; try done; injection Hj as ->;
      unfold FFT.dft_sum; simpl; (split; [f_equal; lia|done]).
  - destruct fuel as [|fuel]; [lia|].
    set (h := 2 ^ Z.of_nat e).
    assert (0 < h) as Hh by (apply Z.pow_pos_nonneg; lia).
    assert (2 ^ Z.of_nat (S e) = 2 * h) as Hn.
    { unfold h. rewrite Nat2Z.inj_succ, Z.pow_succ_r by lia. done. }
    rewrite Hn in *.
    assert (Z.of_nat (2 ^ e) = h) as Hhn.
    { unfold h. rewrite Nat2Z.inj_pow. done. }
    cbn [FFT.fft]. destruct (Z.eqb_spec (2 * h) 1) as [|_]; [lia|].
    replace (2 * h / 2) with h by (rewrite Z.mul_comm, Z.div_mul; lia).
    unfold FFT.pow at 1. destruct (Z.eqb_spec p 0) as [|_]; [done|].
    change (2 <? 0) with false. cbv iota.
    assert (length A = (2 * 2 ^ e)%nat) as Hlen2 by (rewrite Hlen; simpl; lia).
    destruct (evens_odds_length (2 ^ e) A Hlen2) as [HlenB HlenC].
    assert ((omega ^ 2) ^ h mod p = 1 mod p) as Hroot2.
    { rewrite <- Z.pow_mul_r by lia. exact Hroot. }
    assert ((omega ^ 2 mod p) ^ h mod p = 1 mod p) as Hroot2'
      by (by rewrite Z.mod_pow_l).
    destruct (IH fuel (FFT.evens A) (omega ^ 2 mod p) p Hp HlenB Hroot2'
                ltac:(lia)) as (B_bar & HfB & HlB & HB).
    fold h in HfB. rewrite HfB.
    destruct (IH fuel (FFT.odds A) (omega ^ 2 mod p) p Hp HlenC Hroot2'
                ltac:(lia)) as (C_bar & HfC & HlC & HC).
    fold h in HfC. rewrite HfC.
    set (g := λ j : Z,
           (default 0 (B_bar !! Z.to_nat (j mod h))
            + (omega ^ j mod p
               * default 0 (C_bar !! Z.to_nat (j mod h))) mod p) mod p).
    exists (g <$> FFT.range (2 * h)).
    assert (∀ j : Z, 0 <= j →
              ∃ b c, B_bar !! Z.to_nat (j mod h) = Some b ∧
                     C_bar !! Z.to_nat (j mod h) = Some c) as Hbc.
    { intros j Hj. pose proof (Z.mod_pos_bound j h Hh).
      destruct (lookup_lt_is_Some_2 B_bar (Z.to_nat (j mod h))) as [b Hb];
        [lia|].
      destruct (lookup_lt_is_Some_2 C_bar (Z.to_nat (j mod h))) as [c Hc];
        [lia|].
      by exists b, c. }
    split_and!.
    + f_equal. apply fill_returns. intros j Hj.
      unfold FFT.range in Hj. apply list_elem_of_fmap in Hj as (jn & -> & _).
      destruct (Hbc (Z.of_nat jn) ltac:(lia)) as (b & c & Hb & Hc).
      pose proof (Z.mod_pos_bound (Z.of_nat jn) h Hh).
      rewrite (fft_index_nonneg B_bar _ b) by (done || lia).
      rewrite (fft_index_nonneg C_bar _ c) by (done || lia).
      unfold FFT.pow. destruct (Z.eqb_spec p 0) as [|_]; [done|].
      destruct (Z.ltb_spec (Z.of_nat jn) 0); [lia|].
      cbn [mbind FFT.outcome_bind mret FFT.outcome_ret].
      unfold g. by rewrite Hb, Hc.
    + unfold FFT.range. rewrite !length_fmap, length_seq.
      rewrite <- Hhn. simpl. lia.
    + intros j r Hj. unfold FFT.range in Hj.
      rewrite list_lookup_fmap in Hj.
      destruct (_ !! j) as [jz|] eqn:Ejz; [|done].
      rewrite list_lookup_fmap in Ejz.
      destruct (seq _ _ !! j) as [jn|] eqn:Ejn; [|done].
      apply lookup_seq in Ejn as [-> _]. injection Ejz as <-.
      injection Hj as <-. simpl.
      split; [|intros _; unfold g; apply Zmod_mod].
      destruct (Hbc (Z.of_nat j) ltac:(lia)) as (b & c & Hb & Hc).
      unfold g. rewrite Hb, Hc. simpl. rewrite Zmod_mod.
      pose proof (Z.mod_pos_bound (Z.of_nat j) h Hh).
      destruct (HB _ _ Hb) as [HB1 _]. destruct (HC _ _ Hc) as [HC1 _].
      rewrite Z2Nat.id in HB1, HC1 by lia.
      rewrite (dft_sum_split A omega (Z.of_nat j)) by lia.
      apply mod_combine.
      * rewrite HB1. apply dft_sum_congr. intros k _.
        apply root_power_period; [lia|done|done].
      * rewrite HC1. apply dft_sum_congr. intros k _.
        apply root_power_period; [lia|done|done].
Qed.

(** The entries of the list [fft] returns, read off [fft_power_of_two]:
    the form the properties of [fft], [test_correctness] and [get_omega]
    below share. *)
Lemma fft_entries (e fuel : nat) (A : list Z) (omega p : Z) :
  p ≠ 0 → length A = (2 ^ e)%nat →
  omega ^ (2 ^ Z.of_nat e) mod p = 1 mod p → (e <= fuel)%nat →
  ∃ R, FFT.fft fuel (2 ^ Z.of_nat e) A omega p = Some (FFT.Returns R) ∧
       length R = (2 ^ e)%nat ∧
       (e = O → R = A) ∧
       (e ≠ O → ∀ j : nat, (j < 2 ^ e)%nat →
          R !! j = Some (FFT.dft_sum A omega (Z.of_nat j) mod p)).
Proof.
  intros Hp Hlen Hroot Hfuel.
  destruct (fft_power_of_two e fuel A omega p Hp Hlen Hroot Hfuel)
    as (R & Hfft & HlR & HR).
  exists R. split_and!; [done|done| |].
  - intros ->. simpl in Hfft. destruct fuel; by injection Hfft as <-.
  - intros He j Hj.
    destruct (lookup_lt_is_Some_2 R j ltac:(lia)) as [r Hr].
    destruct (HR j r Hr) as [H1 H2]. rewrite Hr, <- H1. f_equal.
    symmetry. by apply H2.
Qed.

(** X22.  [fft] computes the discrete Fourier transform.  For a list
    of [n = 2^e] integers, a modulus other than [0] and an [omega] with
    [omega^n = 1] modulo [p], the call returns after [e] nested calls
    with a list of [n] entries; for [n >= 2] entry [j] is the value of
    the polynomial with the coefficients [A] at [omega^j], reduced
    modulo [p].  For [n = 1] the input list is returned as it is, not
    reduced. *)
Theorem fft_computes_dft (e fuel : nat) (A : list Z) (omega p : Z) :
  p ≠ 0 → length A = (2 ^ e)%nat →
  omega ^ (2 ^ Z.of_nat e) mod p = 1 mod p → (e <= fuel)%nat →
  ∃ R, FFT.fft fuel (2 ^ Z.of_nat e) A omega p = Some (FFT.Returns R) ∧
       length R = (2 ^ e)%nat ∧
       (e = O → R = A) ∧
       (e ≠ O → ∀ j : nat, (j < 2 ^ e)%nat →
          R !! j = Some (FFT.dft_sum A omega (Z.of_nat j) mod p)).
Proof.
  intros Hp Hlen Hroot Hfuel. by apply fft_entries.
Qed.

Lemma fft_computes_dft_witness :
  FFT.fft 2 4 [1; 2; 3; 4] 4 17 = Some (FFT.Returns [10; 7; 15; 6]).
Proof.
  destruct (fft_computes_dft 2 2 [1; 2; 3; 4] 4 17 ltac:(lia) eq_refl
              eq_refl ltac:(lia))
    as (R & Hfft & HlR & _ & HR).
  change (2 ^ Z.of_nat 2) with 4 in Hfft. rewrite Hfft. do 2 f_equal.
  specialize (HR ltac:(done)).
  destruct R as [|r0 [|r1 [|r2 [|r3 [|? ?]]]]]; try done.
  pose proof (HR 0%nat ltac:(simpl; lia)) as H0.
  pose proof (HR 1%nat ltac:(simpl; lia)) as H1.
  pose proof (HR 2%nat ltac:(simpl; lia)) as H2.
  pose proof (HR 3%nat ltac:(simpl; lia)) as H3.
  vm_compute in H0, H1, H2, H3. congruence.
Defined.

Lemma fft_terminates (fuel : nat) (n : Z) (A : list Z) (omega p : Z) :
  1 <= n → (Z.to_nat (Z.log2 n) <= fuel)%nat →
  ∃ r, FFT.fft fuel n A omega p = Some r.
Proof.
  revert n A omega. induction fuel as [|fuel IH]; intros n A omega Hn Hf.
  - assert (n = 1) as ->.
    { assert (Z.log2 n = 0) as E by (pose proof (Z.log2_nonneg n); lia).
      apply Z.log2_null in E. lia. }
    by eexists.
  - cbn [FFT.fft]. destruct (Z.eqb_spec n 1) as [|Hn1]; [by eexists|].
    destruct (FFT.pow omega 2 p) as [omega2|err]; [|by eexists].
    assert (1 <= n / 2) as Hn2 by (apply Z.div_le_lower_bound; lia).
    assert (Z.to_nat (Z.log2 (n / 2)) <= fuel)%nat as Hf2.
    { change 2 with (2 ^ 1) at 1. rewrite <- Z.shiftr_div_pow2 by lia.
      rewrite Z.log2_shiftr by lia. lia. }
    destruct (IH (n / 2) (FFT.evens A) omega2 Hn2 Hf2) as [[B_bar|eB] ->];
      [|by eexists].
    destruct (IH (n / 2) (FFT.odds A) omega2 Hn2 Hf2) as [[C_bar|eC] ->];
      by eexists.
Qed.

(** X23.  When [fft] ends.  For every [n >= 1], whatever the list and
    the numbers are, the recursion ends after [floor(log2 n)] nested
    calls, with a list or an exception.  For [n <= 0] it never ends:
    [n // 2] stays at [0] or below, so no number of nested calls is
    enough.  With the modulus [0] every call with [n] other than [1]
    raises [ValueError] at its first [pow]; for [n = 1] the modulus is
    never looked at. *)
Theorem fft_ends_iff_positive (n : Z) (A : list Z) (omega p : Z) :
  (1 <= n → ∃ r, FFT.fft (Z.to_nat (Z.log2 n)) n A omega p = Some r) ∧
  (n <= 0 → p ≠ 0 → ∀ fuel, FFT.fft fuel n A omega p = None) ∧
  (n ≠ 1 → ∀ fuel, FFT.fft (S fuel) n A omega 0
                  = Some (FFT.Raises FFT.ValueError)) ∧
  (∀ fuel, FFT.fft fuel 1 A omega p = Some (FFT.Returns A)).
Proof.
  split_and!.
  - intros Hn. by apply fft_terminates.
  - intros Hn Hp fuel. revert n A omega Hn.
    induction fuel as [|fuel IH]; intros n A omega Hn.
    + simpl. by destruct (Z.eqb_spec n 1); [lia|].
    + cbn [FFT.fft]. destruct (Z.eqb_spec n 1); [lia|].
      unfold FFT.pow. destruct (Z.eqb_spec p 0); [done|].
      change (2 <? 0) with false. cbv iota.
      rewrite IH; [done|]. apply Z.div_le_upper_bound; lia.
  - intros Hn fuel. cbn [FFT.fft]. by destruct (Z.eqb_spec n 1).
  - intros fuel. by destruct fuel.
Qed.

Lemma sum_acc (c : Z) (l : list Z) :
  foldr Z.add c l = foldr Z.add 0 l + c.
Proof. induction l as [|x l IH]; simpl; lia. Qed.

Lemma dft_sum_snoc (l : list Z) (x w j : Z) :
  FFT.dft_sum (l ++ [x]) w j
  = FFT.dft_sum l w j + x * w ^ (j * Z.of_nat (length l)).
Proof.
  unfold FFT.dft_sum. rewrite imap_app, foldr_app. simpl.
  rewrite sum_acc. by rewrite Nat.add_0_r, Z.add_0_r.
Qed.

Lemma evaluate_spec (coefficients : list Z) (omega p i : Z) :
  p ≠ 0 → 0 <= i →
  FFT.evaluate coefficients omega p i (Z.of_nat (length coefficients))
  = FFT.Returns (FFT.dft_sum coefficients omega i mod p).
Proof.
  intros Hp Hi. unfold FFT.evaluate, FFT.range. rewrite Nat2Z.id.
  set (step := λ (acc : FFT.outcome Z) (k : Z), _).
  assert (∀ k, (k <= length coefficients)%nat →
            foldl step (FFT.Returns 0) (Z.of_nat <$> seq 0 k)
            = FFT.Returns (FFT.dft_sum (take k coefficients) omega i mod p))
    as Hloop.
  { induction k as [|k IH]; intros Hk.
    - simpl. unfold FFT.dft_sum. simpl. by rewrite Zmod_0_l.
    - rewrite seq_S, fmap_app, foldl_app, IH by lia. simpl.
      destruct (lookup_lt_is_Some_2 coefficients k ltac:(lia)) as [ck Hck].
      rewrite (fft_index_lookup _ _ _ Hck).
      cbn [mbind FFT.outcome_bind mret FFT.outcome_ret].
      rewrite (take_S_r _ _ ck) by done. rewrite dft_sum_snoc.
      rewrite length_take, Nat.min_l by lia.
      destruct (Z.eqb_spec ck 0) as [->|Hne].
      + f_equal. f_equal. lia.
      + unfold FFT.pow. destruct (Z.eqb_spec p 0) as [|_]; [done|].
        destruct (Z.ltb_spec (i * Z.of_nat k) 0); [nia|].
        cbn [mbind FFT.outcome_bind mret FFT.outcome_ret]. f_equal.
        rewrite Zplus_mod_idemp_l, Zplus_mod_idemp_r.
        rewrite Zplus_mod, Zmult_mod_idemp_r, <- Zplus_mod. done. }
  rewrite Hloop by done. by rewrite take_ge by lia.
Qed.

(** X24.  [test_correctness] against [fft].  For [n = 2^e >= 2], with
    the list [fft] returns, the check passes at every point below [n].
    The points are drawn with [random.randint(0, n)], which includes
    [n]: at the first such point [fft_result[n]] raises [IndexError],
    although the transform is right. *)
Theorem test_correctness_on_fft (e : nat) (A : list Z) (omega p : Z)
    (points : list Z) :
  e ≠ O → p ≠ 0 → length A = (2 ^ e)%nat →
  omega ^ (2 ^ Z.of_nat e) mod p = 1 mod p →
  Forall (λ i, 0 <= i < 2 ^ Z.of_nat e) points →
  ∃ R, FFT.fft e (2 ^ Z.of_nat e) A omega p = Some (FFT.Returns R) ∧
       FFT.test_correctness A omega R p points = FFT.Returns tt ∧
       ∀ rest, FFT.test_correctness A omega R p
                 (points ++ 2 ^ Z.of_nat e :: rest)
               = FFT.Raises FFT.IndexError.
Proof.
  intros He Hp Hlen Hroot Hpoints.
  destruct (fft_entries e e A omega p Hp Hlen Hroot ltac:(lia))
    as (R & Hfft & HlR & _ & HR).
  specialize (HR He). exists R. split; [done|].
  assert (Z.of_nat (2 ^ e) = 2 ^ Z.of_nat e) as Hn
    by (by rewrite Nat2Z.inj_pow).
  unfold FFT.test_correctness.
  assert ((length A =? length R)%nat = true) as ->
    by (apply Nat.eqb_eq; lia).
  cbn [negb]. rewrite HlR, Hn.
  assert (∀ i, 0 <= i →
            FFT.evaluate A omega p i (2 ^ Z.of_nat e)
            = FFT.Returns (FFT.dft_sum A omega i mod p)) as Heval.
  { intros i Hi. rewrite <- Hn, <- Hlen. by apply evaluate_spec. }
  set (step := λ (acc : FFT.outcome unit) (i : Z), _).
  assert (foldl step (FFT.Returns tt) points = FFT.Returns tt) as Hpass.
  { clear -Hpoints HR Heval Hn. induction Hpoints as [|i points Hi _ IH].
    - done.
    - simpl. rewrite Heval by lia.
      rewrite (fft_index_nonneg R i (FFT.dft_sum A omega i mod p)).
      + cbn [mbind FFT.outcome_bind]. rewrite Z.eqb_refl. apply IH.
      + lia.
      + rewrite HR by lia. by rewrite Z2Nat.id by lia. }
  split; [done|]. intros rest. rewrite foldl_app, Hpass. simpl.
  rewrite Heval by lia.
  assert (FFT.index R (2 ^ Z.of_nat e) = FFT.Raises FFT.IndexError) as ->.
  { unfold FFT.index.
    destruct (Z.ltb_spec (2 ^ Z.of_nat e) 0) as [|_]; [lia|].
    destruct (Z.ltb_spec (2 ^ Z.of_nat e) 0) as [|_]; [lia|].
    rewrite lookup_ge_None_2; [done|lia]. }
  cbn [mbind FFT.outcome_bind].
  clear. induction rest as [|i rest IH]; [done|]. simpl. apply IH.
Qed.

Lemma test_correctness_on_fft_witness :
  FFT.test_correctness [1; 2; 3; 4] 4 [10; 7; 15; 6] 17 [3; 0; 2]
  = FFT.Returns tt ∧
  FFT.test_correctness [1; 2; 3; 4] 4 [10; 7; 15; 6] 17 [3; 0; 2; 4; 1]
  = FFT.Raises FFT.IndexError.
Proof.
  destruct (test_correctness_on_fft 2 [1; 2; 3; 4] 4 17 [3; 0; 2])
    as (R & Hfft & Hpass & Hfail).
  - done.
  - lia.
  - reflexivity.
  - reflexivity.
  - repeat constructor; lia.
  - assert (R = [10; 7; 15; 6]) as ->
      by (vm_compute in Hfft; congruence).
    split; [exact Hpass|exact (Hfail [1])].
Defined.

(** X25.  What [get_omega] hands to [fft].  When [get_omega(p, n)]
    returns [omega] for a positive [n], then [omega] is not [1] and
    [omega^n = 1] modulo [p], and [p >= 2]: with [n = 2^e] this is what
    [fft] needs, so the transform of any list of [n] numbers with this
    [omega] is the list of the polynomial's values.  The function does
    not always return: a draw of [0], which [randint(0, p-1)] allows,
    fails the assertion, and draws that give [1] are retried without
    bound. *)
Theorem get_omega_feeds_fft (fuel : nat) (xs : nat → Z) (p : Z) (e : nat)
    (omega : Z) (A : list Z) :
  FFT.get_omega fuel xs p (2 ^ Z.of_nat e) = Some (FFT.Returns omega) →
  length A = (2 ^ e)%nat →
  omega ≠ 1 ∧ 2 <= p ∧ omega ^ (2 ^ Z.of_nat e) mod p = 1 ∧
  (∃ R, FFT.fft e (2 ^ Z.of_nat e) A omega p = Some (FFT.Returns R) ∧
        (e ≠ O → ∀ j : nat, (j < 2 ^ e)%nat →
           R !! j = Some (FFT.dft_sum A omega (Z.of_nat j) mod p))) ∧
  (∀ (fuel' : nat) (xs' : nat → Z) (n : Z),
     xs' O = 0 → 1 <= n <= p - 1 →
     FFT.get_omega fuel' xs' p n = Some (FFT.Raises FFT.AssertionError)) ∧
  (∀ (fuel' : nat) (n : Z), 1 <= n →
     FFT.get_omega fuel' (λ _, 1) p n = None).
Proof.
  intros Hget HlenA.
  set (n := 2 ^ Z.of_nat e) in *.
  assert (0 < n) as Hn by (apply Z.pow_pos_nonneg; lia).
  assert (omega ≠ 1 ∧ 1 <= p ∧ omega ^ n mod p = 1) as (Hne & Hp1 & Hroot).
  { clear HlenA. revert xs Hget.
    induction fuel as [|fuel IH]; intros xs Hget; cbn [FFT.get_omega] in Hget.
    - destruct (Z.ltb_spec (p - 1) 0); [done|].
      destruct (Z.eqb_spec n 0); [done|].
      destruct (FFT.pow (xs O) ((p - 1) / n) p) as [y|]; [|done].
      destruct (Z.eqb_spec y 1); [done|].
      unfold FFT.pow in Hget. destruct (Z.eqb_spec p 0); [done|].
      destruct (Z.ltb_spec n 0); [lia|].
      destruct (Z.eqb_spec (y ^ n mod p) 1) as [E|]; [|done].
      injection Hget as <-. by split_and!; [|lia|].
    - destruct (Z.ltb_spec (p - 1) 0); [done|].
      destruct (Z.eqb_spec n 0); [done|].
      destruct (FFT.pow (xs O) ((p - 1) / n) p) as [y|]; [|done].
      destruct (Z.eqb_spec y 1); [by apply (IH (λ i, xs (S i)))|].
      unfold FFT.pow in Hget. destruct (Z.eqb_spec p 0); [done|].
      destruct (Z.ltb_spec n 0); [lia|].
      destruct (Z.eqb_spec (y ^ n mod p) 1) as [E|]; [|done].
      injection Hget as <-. by split_and!; [|lia|]. }
  assert (2 <= p) as Hp2.
  { destruct (decide (p = 1)) as [->|]; [|lia].
    rewrite Z.mod_1_r in Hroot. lia. }
  split_and!; try done.
  - destruct (fft_entries e e A omega p ltac:(lia) HlenA)
      as (R & Hfft & _ & _ & HR); [|lia|].
    + fold n. rewrite Hroot. symmetry. apply Z.mod_small. lia.
    + exists R. by split.
  - intros fuel' xs' m Hx Hm.
    assert (1 <= (p - 1) / m) as Hq by (apply Z.div_le_lower_bound; lia).
    destruct fuel'; cbn [FFT.get_omega];
      (destruct (Z.ltb_spec (p - 1) 0); [lia|]);
      (destruct (Z.eqb_spec m 0); [lia|]);
      unfold FFT.pow; (destruct (Z.eqb_spec p 0); [lia|]);
      (destruct (Z.ltb_spec ((p - 1) / m) 0); [lia|]);
      rewrite Hx, Z.pow_0_l, Z.mod_0_l by lia;
      change (0 =? 1) with false; cbv iota;
      (destruct (Z.ltb_spec m 0); [lia|]);
      rewrite Z.pow_0_l, Z.mod_0_l by lia; done.
  - intros fuel' m Hm.
    induction fuel' as [|fuel' IH]; cbn [FFT.get_omega];
      (destruct (Z.ltb_spec (p - 1) 0); [lia|]);
      (destruct (Z.eqb_spec m 0); [lia|]);
      unfold FFT.pow; (destruct (Z.eqb_spec p 0); [lia|]);
      (destruct (Z.ltb_spec ((p - 1) / m) 0) as [Hneg|_];
       [pose proof (Z.div_pos (p - 1) m ltac:(lia) ltac:(lia)); lia|]);
      rewrite Z.pow_1_l by (apply Z.div_pos; lia);
      rewrite Z.mod_small by lia; change (1 =? 1) with true; cbv iota;
      [done|exact IH].
Qed.

Lemma get_omega_feeds_fft_witness :
  FFT.get_omega 0 (λ _, 3) 17 4 = Some (FFT.Returns 13) ∧
  13 ^ 4 mod 17 = 1 ∧
  ∃ R, FFT.fft 2 4 [1; 2; 3; 4] 13 17 = Some (FFT.Returns R) ∧
       R !! 1%nat = Some (FFT.dft_sum [1; 2; 3; 4] 13 1 mod 17).
Proof.
  assert (FFT.get_omega 0 (λ _, 3) 17 (2 ^ Z.of_nat 2)
          = Some (FFT.Returns 13)) as Hget by reflexivity.
  destruct (get_omega_feeds_fft 0 (λ _, 3) 17 2 13 [1; 2; 3; 4] Hget eq_refl)
    as (_ & _ & Hroot & (R & Hfft & HR) & _).
  split_and!; [exact Hget|exact Hroot|].
  exists R. split; [exact Hfft|]. apply HR; [done|simpl; lia].
Defined.
